(** * xiaoyuzhou: the adaptive execution layer and the vault, embedded
    and verified

    A shallow embedding of the TypeScript sources

      - [src/core/types.ts]           (enumerations and result records)
      - [src/strategy/engine.ts]      (StrategyEngine: selection, health checks,
                                       fallback, retry)
      - [src/adapters/base.ts]        (BaseAdapter: results, batch publishing)
      - [src/adapters/http.adapter.ts] (HttpAdapter: requests with retry, the
                                       health check)
      - [src/storage/crypto.ts]       (CryptoUtil: encrypt, decrypt, verifyIntegrity,
                                       passwords, hashes and tokens)
      - [src/storage/token.ts]        (TokenStorage: save, load, clear)
      - [src/storage/session.ts]      (SessionStorage: the session on disk)
      - the authentication manager    (AuthManager: login, logout)
      - the client                    (XiaoYuzhouClient: the guarded calls)

    and of what they use of the platform: the UTF-8, hexadecimal and base64
    codecs of [Buffer], [JSON.parse] and [JSON.stringify], the calls of [fs],
    and from [crypto] SHA-256, HMAC, PBKDF2 and AES-256 in Galois/Counter
    mode.

    Conventions.  JavaScript objects that are mutated in place (the engine,
    its adapter states) are threaded through a small state monad.  Code that
    can throw returns a sum whose left side is the thrown value.  Calls that
    leave the process ([operation(adapter)], [adapter.healthCheck()],
    [fetch], [Date.now()]) are functions of an abstract world [W]; the disk is a map
    from paths to nodes; [crypto.randomBytes] reads a stream of bytes.  A
    JavaScript string is the list of its UTF-16 code units. *)

From Stdlib Require Import ZArith NArith List String Ascii Bool Lia.
From Stdlib Require Import Init.Byte Strings.Byte.
From stdpp Require Import base option gmap strings list.
Import ListNotations.

Set Default Proof Using "Type".

(** ** A state monad for code that mutates [this] *)

Module StateM.
Section Defs.
Context {S : Type}.

Definition M (A : Type) : Type := S -> A * S.

Definition ret {A} (a : A) : M A := fun s => (a, s).

Definition bind {A B} (m : M A) (k : A -> M B) : M B :=
  fun s => let (a, s') := m s in k a s'.

Definition get : M S := fun s => (s, s).

Definition put (s : S) : M unit := fun _ => (tt, s).

Definition modify (f : S -> S) : M unit := fun s => (tt, f s).

End Defs.
End StateM.
Import StateM.

Declare Scope stm_scope.
Delimit Scope stm_scope with stm.
Notation "x <- m ;; k" := (bind m (fun x => k))
  (at level 20, m at level 99, k at level 200, only parsing) : stm_scope.
Notation "m ;;; k" := (bind m (fun _ => k))
  (at level 100, k at level 200, right associativity, only parsing) : stm_scope.
Open Scope stm_scope.

(** ** [src/core/types.ts] *)

(** [enum AdapterType { PLAYWRIGHT = 'playwright', HTTP = 'http' }] *)
Module AdapterType.

Inductive t : Set := PLAYWRIGHT | HTTP.

#[global] Instance eq_dec : EqDecision t.
Proof. solve_decision. Defined.

#[global] Instance countable : Countable t.
Proof.
  refine (inj_countable'
            (fun a => match a with PLAYWRIGHT => true | HTTP => false end)
            (fun b => if b then PLAYWRIGHT else HTTP) _).
  intros []; reflexivity.
Defined.

(** The string value of the enumeration member, as template strings print it. *)
Definition to_string (a : t) : string :=
  match a with PLAYWRIGHT => "playwright" | HTTP => "http" end.

End AdapterType.

(** [interface HealthCheckResult { healthy; latency; error? }] *)
Module HealthCheckResult.
Record t : Type := mk { healthy : bool; latency : Z; error : option string }.
End HealthCheckResult.

(** [interface AdapterResult<T> { success; data?; error?; errorCode? }].
    [errorCode] is an [ErrorCode] enumeration member; only its presence and
    its printed name matter here. *)
Module AdapterResult.
Record t (T : Type) : Type :=
  mk { success : bool; data : option T; error : option string; errorCode : option string }.
Arguments mk {T}.
Arguments success {T}.
Arguments data {T}.
Arguments error {T}.
Arguments errorCode {T}.
End AdapterResult.

(** ** [src/strategy/engine.ts] *)

(** [enum StrategyMode] *)
Module StrategyMode.
Inductive t : Set := AUTO | PLAYWRIGHT | HTTP | PLAYWRIGHT_ONLY | HTTP_ONLY.
End StrategyMode.

(** The two adapter objects handed to the engine's constructor. *)
Inductive IAdapter : Set := playwrightAdapter | httpAdapter.

Definition getType (a : IAdapter) : AdapterType.t :=
  match a with
  | playwrightAdapter => AdapterType.PLAYWRIGHT
  | httpAdapter => AdapterType.HTTP
  end.

(** A value thrown in JavaScript: either the rejection of the caller's
    operation, or an [Error] object the engine builds itself. *)
Inductive thrown (E : Type) : Type :=
| Rejected (e : E)
| Error (message : string).
Arguments Rejected {E}.
Arguments Error {E}.

(** What the engine does that an observer can see: the operation calls, the
    health probes and the warning logged for each failed attempt
    ([Operation failed (attempt i/max)]).  The other logger lines carry no
    information that is used below and are left out. *)
Inductive event (E : Type) : Type :=
| Call (a : IAdapter) (rejection : option E)
| Probe (a : IAdapter) (healthy : bool)
| AttemptFailed (attempts maxAttempts : Z) (error : thrown E).
Arguments Call {E}.
Arguments Probe {E}.
Arguments AttemptFailed {E}.

Module StrategyEngine.

Record StrategyConfig : Type := mkConfig {
  mode : StrategyMode.t;
  healthCheckInterval : Z;
  fallbackTimeout : Z;
  retryAttempts : Z
}.

Record AdapterState : Type := mkState {
  adapter : IAdapter;
  healthy : bool;
  lastHealthCheck : Z;
  consecutiveFailures : nat
}.

(** The fields of [class StrategyEngine] ([healthCheckTimer] apart). *)
Record t : Type := mk {
  config : StrategyConfig;
  adapters : gmap AdapterType.t AdapterState;
  currentAdapter : option AdapterType.t
}.

(** The defaults of the constructor. *)
Definition defaultConfig : StrategyConfig :=
  {| mode := StrategyMode.AUTO;
     healthCheckInterval := 60000;
     fallbackTimeout := 5000;
     retryAttempts := 3 |}.

(** [constructor(playwrightAdapter, httpAdapter, config, logger)], with
    [config] already merged over the defaults. *)
Definition new (cfg : StrategyConfig) : t :=
  {| config := cfg;
     adapters :=
       <[AdapterType.HTTP :=
           {| adapter := httpAdapter; healthy := true;
              lastHealthCheck := 0; consecutiveFailures := 0 |}]>
       (<[AdapterType.PLAYWRIGHT :=
           {| adapter := playwrightAdapter; healthy := true;
              lastHealthCheck := 0; consecutiveFailures := 0 |}]> ∅);
     currentAdapter := None |}.

Definition set_adapters (f : gmap AdapterType.t AdapterState -> gmap AdapterType.t AdapterState)
  (s : t) : t :=
  {| config := config s; adapters := f (adapters s); currentAdapter := currentAdapter s |}.

Definition set_currentAdapter (c : option AdapterType.t) (s : t) : t :=
  {| config := config s; adapters := adapters s; currentAdapter := c |}.

Definition set_mode (m : StrategyMode.t) (s : t) : t :=
  {| config := {| mode := m;
                  healthCheckInterval := healthCheckInterval (config s);
                  fallbackTimeout := fallbackTimeout (config s);
                  retryAttempts := retryAttempts (config s) |};
     adapters := adapters s; currentAdapter := currentAdapter s |}.

(** [recordSuccess(adapterType)] *)
Definition recordSuccess (adapterType : AdapterType.t) (s : t) : t :=
  match adapters s !! adapterType with
  | Some state =>
      set_adapters
        <[adapterType := {| adapter := adapter state; healthy := true;
                            lastHealthCheck := lastHealthCheck state;
                            consecutiveFailures := 0 |}]> s
  | None => s
  end.

(** [recordFailure(adapterType)]: the counter is incremented, and the handle
    is marked unhealthy once it has reached 3. *)
Definition recordFailure (adapterType : AdapterType.t) (s : t) : t :=
  match adapters s !! adapterType with
  | Some state =>
      let failures := S (consecutiveFailures state) in
      set_adapters
        <[adapterType := {| adapter := adapter state;
                            healthy := if (3 <=? failures)%nat then false else healthy state;
                            lastHealthCheck := lastHealthCheck state;
                            consecutiveFailures := failures |}]> s
  | None => s
  end.

(** The candidate order [selectBestAdapter] derives from the mode. *)
Definition candidateTypes (m : StrategyMode.t) : list AdapterType.t :=
  match m with
  | StrategyMode.PLAYWRIGHT_ONLY => [AdapterType.PLAYWRIGHT]
  | StrategyMode.HTTP_ONLY => [AdapterType.HTTP]
  | StrategyMode.PLAYWRIGHT => [AdapterType.PLAYWRIGHT; AdapterType.HTTP]
  | StrategyMode.HTTP => [AdapterType.HTTP; AdapterType.PLAYWRIGHT]
  | StrategyMode.AUTO => [AdapterType.HTTP; AdapterType.PLAYWRIGHT]
  end.

(** [getCurrentAdapter()] *)
Definition getCurrentAdapter {E} (s : t) : thrown E + IAdapter :=
  match currentAdapter s with
  | None => inl (Error "No adapter selected")
  | Some current =>
      match adapters s !! current with
      | None => inl (Error ("Adapter not found: " ++ AdapterType.to_string current))
      | Some state => inr (adapter state)
      end
  end.

Section Engine.

(** The world outside the engine and what the engine asks of it. *)
Context {W E : Type}.
Variable healthCheck : IAdapter -> W -> HealthCheckResult.t * W.
Variable now : W -> Z.

(** The state the engine's methods run in: the engine object, the world and
    the observable history so far. *)
Record St : Type := mkSt { engine : t; world : W; history : list (event E) }.

Definition on_engine (f : t -> t) : M (S:=St) unit :=
  modify (fun st => {| engine := f (engine st); world := world st; history := history st |}).

Definition emit (e : event E) : M (S:=St) unit :=
  modify (fun st => {| engine := engine st; world := world st; history := history st ++ [e] |}).

Definition in_world {A} (f : W -> A * W) : M (S:=St) A :=
  fun st => let (a, w) := f (world st) in
            (a, {| engine := engine st; world := w; history := history st |}).

Definition this : M (S:=St) t := fun st => (engine st, st).

(** [checkAdapterHealth(adapterType)] *)
Definition checkAdapterHealth (adapterType : AdapterType.t) : M HealthCheckResult.t :=
  s <- this ;;
  match adapters s !! adapterType with
  | None =>
      ret {| HealthCheckResult.healthy := false; HealthCheckResult.latency := 0;
             HealthCheckResult.error := Some "Adapter not found" |}
  | Some state =>
      t0 <- in_world (fun w => (now w, w)) ;;
      result <- in_world (healthCheck (adapter state)) ;;
      emit (Probe (adapter state) (HealthCheckResult.healthy result)) ;;;
      on_engine (set_adapters
        <[adapterType :=
            if HealthCheckResult.healthy result then
              {| adapter := adapter state; healthy := true;
                 lastHealthCheck := t0; consecutiveFailures := 0 |}
            else
              let failures := S (consecutiveFailures state) in
              {| adapter := adapter state;
                 healthy := if (3 <=? failures)%nat then false else healthy state;
                 lastHealthCheck := t0; consecutiveFailures := failures |}]>) ;;;
      ret result
  end.

(** First loop of [selectBestAdapter]: the first candidate whose handle is
    flagged healthy. *)
Fixpoint firstHealthy (s : t) (candidates : list AdapterType.t) : option AdapterType.t :=
  match candidates with
  | [] => None
  | type :: rest =>
      match adapters s !! type with
      | Some state => if healthy state then Some type else firstHealthy s rest
      | None => firstHealthy s rest
      end
  end.

(** Second loop of [selectBestAdapter]: probe each candidate in turn and
    stop at the first probe that reports healthy. *)
Fixpoint recover (candidates : list AdapterType.t) : M (option AdapterType.t) :=
  match candidates with
  | [] => ret None
  | type :: rest =>
      result <- checkAdapterHealth type ;;
      if HealthCheckResult.healthy result then ret (Some type) else recover rest
  end.

(** [selectBestAdapter()] *)
Definition selectBestAdapter : M AdapterType.t :=
  s <- this ;;
  let candidates := candidateTypes (mode (config s)) in
  match firstHealthy s candidates with
  | Some type =>
      on_engine (set_currentAdapter (Some type)) ;;; ret type
  | None =>
      recovered <- recover candidates ;;
      match recovered with
      | Some type => on_engine (set_currentAdapter (Some type)) ;;; ret type
      | None =>
          let first := hd AdapterType.HTTP candidates in
          on_engine (set_currentAdapter (Some first)) ;;; ret first
      end
  end.

(** [initialize()], after the adapters' own [initialize()] calls. *)
Definition initialize : M unit := selectBestAdapter ;;; ret tt.

(** [setMode(mode)]: the re-selection it starts is not awaited, but it runs
    to its first [await] (the whole of it when a candidate is flagged
    healthy) before [setMode] returns; it is modelled as run to completion. *)
Definition setMode (m : StrategyMode.t) : M unit :=
  on_engine (set_mode m) ;;; selectBestAdapter ;;; ret tt.

(** The callback [startHealthCheck()] hands to [setInterval]: a probe of
    every key of [this.adapters], in the order the constructor inserted
    them. *)
Definition healthCheckTick : M unit :=
  checkAdapterHealth AdapterType.PLAYWRIGHT ;;;
  checkAdapterHealth AdapterType.HTTP ;;;
  ret tt.

(** [forceAdapter(adapterType)] *)
Definition forceAdapter (adapterType : AdapterType.t) : M (thrown E + unit) :=
  s <- this ;;
  match adapters s !! adapterType with
  | None => ret (inl (Error ("Unknown adapter type: " ++ AdapterType.to_string adapterType)))
  | Some state =>
      ok <- (if healthy state then ret true
             else result <- checkAdapterHealth adapterType ;;
                  ret (HealthCheckResult.healthy result)) ;;
      if ok : bool then
        on_engine (set_currentAdapter (Some adapterType)) ;;; ret (inr tt)
      else
        ret (inl (Error ("Adapter " ++ AdapterType.to_string adapterType ++ " is not healthy")))
  end.

Section Execute.

Context {T : Type}.
Variable operation : IAdapter -> W -> (E + T) * W.

(** The rejection, if any, in the outcome of an operation call. *)
Definition rejection (r : E + T) : option E :=
  match r with inl e => Some e | inr _ => None end.

(** [await operation(adapter)], with the call recorded. *)
Definition call (a : IAdapter) : M (E + T) :=
  r <- in_world (operation a) ;;
  emit (Call a (rejection r)) ;;;
  ret r.

(** The body of the [try] block: [getCurrentAdapter()] then the operation. *)
Definition attempt : M (thrown E + T) :=
  s <- this ;;
  match getCurrentAdapter s with
  | inl err => ret (inl err)
  | inr a =>
      r <- call a ;;
      match r with
      | inl e => ret (inl (Rejected e))
      | inr result => ret (inr result)
      end
  end.

(** [recordSuccess(this.currentAdapter!)] and [recordFailure(this.currentAdapter!)]:
    with no adapter selected, [this.adapters.get(null)] is [undefined] and
    nothing is recorded. *)
Definition recordCurrent (record : AdapterType.t -> t -> t) : M unit :=
  on_engine (fun s => match currentAdapter s with
                      | Some current => record current s
                      | None => s
                      end).

(** The same-call fallback inside the [catch] block: [Some result] when the
    operation was run on Playwright and resolved. *)
Definition fallback (fallbackToPlaywright : bool) : M (option T) :=
  s <- this ;;
  if fallbackToPlaywright && bool_decide (currentAdapter s = Some AdapterType.HTTP) then
    match adapters s !! AdapterType.PLAYWRIGHT with
    | Some playwrightState =>
        if healthy playwrightState then
          r <- call (adapter playwrightState) ;;
          match r with
          | inr result =>
              on_engine (recordSuccess AdapterType.PLAYWRIGHT) ;;; ret (Some result)
          | inl _ => ret None
          end
        else ret None
    | None => ret None
    end
  else ret None.

(** The [while (attempts < maxAttempts)] loop.  Every iteration that does not
    return increments [attempts], so [maxAttempts - attempts] iterations are
    enough; [fuel] counts them down. *)
Fixpoint loop (fuel : nat) (fallbackToPlaywright : bool) (attempts maxAttempts : Z)
  : M (thrown E + T) :=
  match fuel with
  | O => ret (inl (Error "Operation failed after retries"))
  | S fuel' =>
      if (attempts <? maxAttempts)%Z then
        r <- attempt ;;
        match r with
        | inr result => recordCurrent recordSuccess ;;; ret (inr result)
        | inl error =>
            let attempts := (attempts + 1)%Z in
            emit (AttemptFailed attempts maxAttempts error) ;;;
            recordCurrent recordFailure ;;;
            fb <- fallback fallbackToPlaywright ;;
            match fb with
            | Some result => ret (inr result)
            | None =>
                selectBestAdapter ;;;
                if (maxAttempts <=? attempts)%Z then ret (inl error)
                else loop fuel' fallbackToPlaywright attempts maxAttempts
            end
        end
      else ret (inl (Error "Operation failed after retries"))
  end.

(** [execute(operation, { fallbackToPlaywright = true, retryOnFailure = true })] *)
Definition execute (fallbackToPlaywright retryOnFailure : bool) : M (thrown E + T) :=
  s <- this ;;
  let maxAttempts := if retryOnFailure then retryAttempts (config s) else 1%Z in
  loop (Z.to_nat maxAttempts) fallbackToPlaywright 0 maxAttempts.

End Execute.
End Engine.

Arguments St : clear implicits.

(** *** Reading a history *)

(** The failed attempts logged in a stretch of history, each with the number
    the warning prints for it. *)
Fixpoint failures {E} (evs : list (event E)) : list (Z * thrown E) :=
  match evs with
  | [] => []
  | AttemptFailed i _ e :: rest => (i, e) :: failures rest
  | _ :: rest => failures rest
  end.

(** [surfaced evs n err]: in [evs], [err] is the error of the failed attempt
    number [n], no attempt fails after it, and when [err] is a rejection of
    the operation, the call that raised it is the event just before the
    warning. *)
Definition surfaced {E} (evs : list (event E)) (n : Z) (err : thrown E) : Prop :=
  exists pre post,
    evs = pre ++ AttemptFailed n n err :: post
    /\ failures post = []
    /\ match err with
       | Rejected e => exists pre' a, pre = pre' ++ [Call a (Some e)]
       | Error _ => True
       end.

(** The adapters the operation was called on in a stretch of history, and
    the adapters that were probed, in order. *)
Fixpoint calls {E} (evs : list (event E)) : list IAdapter :=
  match evs with
  | [] => []
  | Call a _ :: rest => a :: calls rest
  | _ :: rest => calls rest
  end.

Fixpoint probes {E} (evs : list (event E)) : list IAdapter :=
  match evs with
  | [] => []
  | Probe a _ :: rest => a :: probes rest
  | _ :: rest => probes rest
  end.

(** [state && state.healthy], the test [selectBestAdapter] and the fallback
    of [execute] apply to a handle. *)
Definition flaggedHealthy (s : t) (type : AdapterType.t) : bool :=
  match adapters s !! type with
  | Some state => healthy state
  | None => false
  end.

(** The adapter objects behind a list of types, for the types that have a
    handle. *)
Fixpoint handles (s : t) (types : list AdapterType.t) : list IAdapter :=
  match types with
  | [] => []
  | type :: rest =>
      match adapters s !! type with
      | Some state => adapter state :: handles s rest
      | None => handles s rest
      end
  end.

(** The attempt budget of one [execute] call. *)
Definition maxAttempts (s : t) (retryOnFailure : bool) : Z :=
  if retryOnFailure then retryAttempts (config s) else 1%Z.

End StrategyEngine.

(** ** [src/adapters/base.ts] *)

(** [interface PublishResult { success; resourceId; publishedUrl?; error? }] *)
Module PublishResult.
Record t : Type :=
  mk { success : bool; resourceId : string;
       publishedUrl : option string; error : option string }.
End PublishResult.

Module BaseAdapter.

(** [protected success<T>(data)] *)
Definition success {T} (data : T) : AdapterResult.t T :=
  {| AdapterResult.success := true; AdapterResult.data := Some data;
     AdapterResult.error := None; AdapterResult.errorCode := None |}.

(** [protected failure<T>(error, errorCode?)] *)
Definition failure {T} (error : string) (errorCode : option string) : AdapterResult.t T :=
  {| AdapterResult.success := false; AdapterResult.data := None;
     AdapterResult.error := Some error; AdapterResult.errorCode := errorCode |}.

(** [result.success && result.data]: the test [publishResources] applies to
    the result of one item.  [data] is an object, so it is truthy exactly
    when it is there. *)
Definition published {T} (result : AdapterResult.t T) : option T :=
  if AdapterResult.success result then AdapterResult.data result else None.

(** Whether an optional value is there. *)
Definition isSome {A} (o : option A) : bool :=
  match o with Some _ => true | None => false end.

(** [error || fallback] on an optional string: the empty string is falsy. *)
Definition or_else (error : option string) (fallback : string) : string :=
  match error with
  | Some e => if String.eqb e "" then fallback else e
  | None => fallback
  end.

Section Publish.

(** [PublishOptions] is handed on untouched; the abstract method
    [publishResource] is the subclass's. *)
Context {W PublishOptions : Type}.
Variable publishResource :
  string -> option PublishOptions -> W -> AdapterResult.t PublishResult.t * W.

(** The entry pushed to [results] for one item. *)
Definition entry (resourceId : string) (result : AdapterResult.t PublishResult.t)
  : PublishResult.t :=
  match published result with
  | Some data => data
  | None => {| PublishResult.success := false;
               PublishResult.resourceId := resourceId;
               PublishResult.publishedUrl := None;
               PublishResult.error := AdapterResult.error result |}
  end.

(** The [for ... of] loop of [publishResources], with its two accumulators. *)
Fixpoint publishEach (resourceIds : list string) (options : option PublishOptions)
    (results : list PublishResult.t) (errors : list string) (w : W)
  : list PublishResult.t * list string * W :=
  match resourceIds with
  | [] => (results, errors, w)
  | resourceId :: rest =>
      let (result, w') := publishResource resourceId options w in
      match published result with
      | Some data => publishEach rest options (results ++ [data]) errors w'
      | None =>
          publishEach rest options
            (results ++ [entry resourceId result])
            (errors ++ [or_else (AdapterResult.error result)
                          ("Failed to publish resource " ++ resourceId)])
            w'
      end
  end.

(** [publishResources(resourceIds, options)], the default implementation. *)
Definition publishResources (resourceIds : list string) (options : option PublishOptions)
    (w : W) : AdapterResult.t (list PublishResult.t) * W :=
  let '(results, errors, w') := publishEach resourceIds options [] [] w in
  ({| AdapterResult.success := (List.length errors =? 0)%nat;
      AdapterResult.data := Some results;
      AdapterResult.error :=
        if (0 <? List.length errors)%nat then Some (String.concat "; " errors) else None;
      AdapterResult.errorCode := None |}, w').

(** The message pushed to [errors] for one item, when its answer does not
    count as published. *)
Definition complaint (resourceId : string) (result : AdapterResult.t PublishResult.t)
  : option string :=
  match published result with
  | Some _ => None
  | None => Some (or_else (AdapterResult.error result)
                    ("Failed to publish resource " ++ resourceId))
  end.

(** The world after the items have been published one after the other. *)
Fixpoint afterwards (resourceIds : list string) (options : option PublishOptions) (w : W) : W :=
  match resourceIds with
  | [] => w
  | resourceId :: rest => afterwards rest options (snd (publishResource resourceId options w))
  end.

(** What [publishResource] answered for each item, in order, when the items
    are published one after the other from world [w]. *)
Fixpoint answers (resourceIds : list string) (options : option PublishOptions) (w : W)
  : list (AdapterResult.t PublishResult.t) :=
  match resourceIds with
  | [] => []
  | resourceId :: rest =>
      let (result, w') := publishResource resourceId options w in
      result :: answers rest options w'
  end.

End Publish.
End BaseAdapter.

(** ** JavaScript strings and Node buffers

    A JavaScript string is a sequence of UTF-16 code units, and a Node
    [Buffer] is a sequence of bytes.  Where a string of the program reaches
    an encoder, a decoder or a parser, it is modelled as its code units;
    names, paths and messages that are only compared or concatenated stay
    Rocq strings. *)

Module Js.
Local Open Scope N_scope.

(** The code units of an ASCII literal. *)
Definition str (s : string) : list N :=
  map N_of_ascii (list_ascii_of_string s).

(** The byte with value [n mod 256]. *)
Definition byte_of_N (n : N) : byte :=
  match Byte.of_N (n mod 256) with Some b => b | None => x00 end.

(** [String.prototype.isWellFormed()]: every code unit is 16 bits wide and
    no surrogate is unpaired. *)
Definition is_high (u : N) : bool := (0xD800 <=? u) && (u <? 0xDC00).
Definition is_low (u : N) : bool := (0xDC00 <=? u) && (u <? 0xE000).

Fixpoint isWellFormed (s : list N) : bool :=
  match s with
  | [] => true
  | u :: rest =>
      if is_high u then
        match rest with
        | l :: rest' => is_low l && isWellFormed rest'
        | [] => false
        end
      else negb (is_low u) && (u <? 0x10000) && isWellFormed rest
  end.

(** A string is a list of 16-bit code units. *)
Definition is_string (s : list N) : Prop := Forall (fun u => u < 0x10000) s.

(** [String.prototype.slice(start, end)], on code units: a negative index
    counts from the end, and both are clamped to the string. *)
Definition slice (start stop : Z) (s : list N) : list N :=
  let len := Z.of_nat (List.length s) in
  let from := if (start <? 0)%Z then Z.max (len + start) 0 else Z.min start len in
  let to := if (stop <? 0)%Z then Z.max (len + stop) 0 else Z.min stop len in
  firstn (Z.to_nat (to - from)) (skipn (Z.to_nat from) s).

(** The longest string the engine makes ([buffer.constants.MAX_STRING_LENGTH]
    on a 64-bit build). *)
Definition MAX_STRING_LENGTH : Z := 536870888.

End Js.

(** *** [Buffer.from(string, encoding)] and [buffer.toString(encoding)] *)

Module Buffer.
Import Js.
Local Open Scope N_scope.

(** **** UTF-8 *)

(** The UTF-8 bytes of a code point below 0x110000, as byte values. *)
Definition utf8_bytes (cp : N) : list N :=
  if cp <? 0x80 then [cp]
  else if cp <? 0x800 then [0xC0 + cp / 64; 0x80 + cp mod 64]
  else if cp <? 0x10000 then
    [0xE0 + cp / 4096; 0x80 + (cp / 64) mod 64; 0x80 + cp mod 64]
  else
    [0xF0 + cp / 262144; 0x80 + (cp / 4096) mod 64;
     0x80 + (cp / 64) mod 64; 0x80 + cp mod 64].

(** The byte values of a string written as UTF-8: a surrogate pair is one
    code point, and an unpaired surrogate is written as U+FFFD. *)
Fixpoint utf8_values (s : list N) : list N :=
  match s with
  | [] => []
  | u :: rest =>
      if is_high u then
        match rest with
        | l :: rest' =>
            if is_low l then
              utf8_bytes (0x10000 + (u - 0xD800) * 0x400 + (l - 0xDC00))
                ++ utf8_values rest'
            else utf8_bytes 0xFFFD ++ utf8_values rest
        | [] => utf8_bytes 0xFFFD
        end
      else if is_low u then utf8_bytes 0xFFFD ++ utf8_values rest
      else utf8_bytes u ++ utf8_values rest
  end.

(** [Buffer.from(s, 'utf8')] *)
Definition from_utf8 (s : list N) : list byte := map byte_of_N (utf8_values s).

(** The state of the UTF-8 decoder: the code point being assembled, the
    number of continuation bytes still expected and the bounds the next byte
    has to respect. *)
Record decoder : Type :=
  mkDecoder { code_point : N; needed : nat; lower : N; upper : N }.

Definition start : decoder :=
  {| code_point := 0; needed := 0; lower := 0x80; upper := 0xBF |}.

(** The code units of a decoded code point. *)
Definition units (cp : N) : list N :=
  if cp <? 0x10000 then [cp]
  else [0xD800 + (cp - 0x10000) / 0x400; 0xDC00 + (cp - 0x10000) mod 0x400].

(** A byte read when no sequence is open. *)
Definition lead (b : N) : list N * decoder :=
  if b <=? 0x7F then ([b], start)
  else if (0xC2 <=? b) && (b <=? 0xDF) then
    ([], {| code_point := b mod 32; needed := 1; lower := 0x80; upper := 0xBF |})
  else if (0xE0 <=? b) && (b <=? 0xEF) then
    ([], {| code_point := b mod 16; needed := 2;
            lower := if b =? 0xE0 then 0xA0 else 0x80;
            upper := if b =? 0xED then 0x9F else 0xBF |})
  else if (0xF0 <=? b) && (b <=? 0xF4) then
    ([], {| code_point := b mod 8; needed := 3;
            lower := if b =? 0xF0 then 0x90 else 0x80;
            upper := if b =? 0xF4 then 0x8F else 0xBF |})
  else ([0xFFFD], start).

(** One byte through the decoder.  A byte that cannot continue the open
    sequence ends it with U+FFFD and is read again as a lead byte. *)
Definition step (d : decoder) (b : N) : list N * decoder :=
  match needed d with
  | O => lead b
  | S n =>
      if (lower d <=? b) && (b <=? upper d) then
        let cp := code_point d * 64 + b mod 64 in
        match n with
        | O => (units cp, start)
        | S _ => ([], {| code_point := cp; needed := n; lower := 0x80; upper := 0xBF |})
        end
      else
        let (out, d') := lead b in (0xFFFD :: out, d')
  end.

Fixpoint decode (d : decoder) (bs : list N) : list N :=
  match bs with
  | [] => match needed d with O => [] | S _ => [0xFFFD] end
  | b :: rest => let (out, d') := step d b in out ++ decode d' rest
  end.

(** [buffer.toString('utf8')] *)
Definition toString_utf8 (buf : list byte) : list N :=
  decode start (map Byte.to_N buf).

(** **** Hexadecimal *)

Definition hex_digit (n : N) : N :=
  if n <? 10 then 48 + n else 87 + n.

Definition hex_value (c : N) : option N :=
  if (48 <=? c) && (c <=? 57) then Some (c - 48)
  else if (97 <=? c) && (c <=? 102) then Some (c - 87)
  else if (65 <=? c) && (c <=? 70) then Some (c - 55)
  else None.

(** [buffer.toString('hex')] *)
Definition toString_hex (buf : list byte) : list N :=
  flat_map (fun b => [hex_digit (Byte.to_N b / 16); hex_digit (Byte.to_N b mod 16)]) buf.

(** [Buffer.from(s, 'hex')]: pairs of digits are decoded up to the first
    pair that is not hexadecimal; a last single character is dropped. *)
Fixpoint from_hex (s : list N) : list byte :=
  match s with
  | hi :: lo :: rest =>
      match hex_value hi, hex_value lo with
      | Some h, Some l => byte_of_N (16 * h + l) :: from_hex rest
      | _, _ => []
      end
  | _ => []
  end.

(** **** Base64 *)

(** The character of a 6-bit value in the standard alphabet. *)
Definition base64_char (v : N) : N :=
  if v <? 26 then 65 + v
  else if v <? 52 then 71 + v
  else if v <? 62 then v - 4
  else if v =? 62 then 43
  else 47.

(** The 6-bit value of a character; the decoder also accepts the URL-safe
    [-] and [_]. *)
Definition base64_value (c : N) : option N :=
  if (65 <=? c) && (c <=? 90) then Some (c - 65)
  else if (97 <=? c) && (c <=? 122) then Some (c - 71)
  else if (48 <=? c) && (c <=? 57) then Some (c + 4)
  else if (c =? 43) || (c =? 45) then Some 62
  else if (c =? 47) || (c =? 95) then Some 63
  else None.

(** The 6-bit groups of a byte sequence, three bytes at a time. *)
Fixpoint sextets (buf : list N) : list N :=
  match buf with
  | b0 :: b1 :: b2 :: rest =>
      [b0 / 4; (b0 mod 4) * 16 + b1 / 16; (b1 mod 16) * 4 + b2 / 64; b2 mod 64]
        ++ sextets rest
  | [b0; b1] => [b0 / 4; (b0 mod 4) * 16 + b1 / 16; (b1 mod 16) * 4]
  | [b0] => [b0 / 4; (b0 mod 4) * 16]
  | [] => []
  end.

Definition padding (n : nat) : list N :=
  match (n mod 3)%nat with
  | 1%nat => [61; 61]
  | 2%nat => [61]
  | _ => []
  end.

(** [buffer.toString('base64')] *)
Definition toString_base64 (buf : list byte) : list N :=
  map base64_char (sextets (map Byte.to_N buf)) ++ padding (List.length buf).

(** The 6-bit values the decoder reads: characters outside the alphabet are
    skipped, and the first [=] ends the input. *)
Fixpoint base64_values (s : list N) : list N :=
  match s with
  | [] => []
  | c :: rest =>
      if c =? 61 then []
      else match base64_value c with
           | Some v => v :: base64_values rest
           | None => base64_values rest
           end
  end.

(** The bytes of a sequence of 6-bit values, four values at a time. *)
Fixpoint octets (vs : list N) : list N :=
  match vs with
  | v0 :: v1 :: v2 :: v3 :: rest =>
      [v0 * 4 + v1 / 16; (v1 mod 16) * 16 + v2 / 4; (v2 mod 4) * 64 + v3]
        ++ octets rest
  | [v0; v1; v2] => [v0 * 4 + v1 / 16; (v1 mod 16) * 16 + v2 / 4]
  | [v0; v1] => [v0 * 4 + v1 / 16]
  | _ => []
  end.

(** [Buffer.from(s, 'base64')]; it never throws. *)
Definition from_base64 (s : list N) : list byte :=
  map byte_of_N (octets (base64_values s)).

End Buffer.

(** *** [JSON.parse]

    The JSON grammar of ECMA-404 as [JSON.parse] reads it.  A number is kept
    as its lexeme: nothing below computes with numbers. *)

Module JSON.
Local Open Scope N_scope.

#[warnings="-register-all"]
Inductive value : Type :=
| JUndefined
| JNull
| JBoolean (b : bool)
| JNumber (lexeme : list N)
| JString (s : list N)
| JArray (elements : list value)
| JObject (members : list (list N * value)).

Definition is_ws (c : N) : bool :=
  (c =? 32) || (c =? 9) || (c =? 10) || (c =? 13).

Fixpoint skip_ws (s : list N) : list N :=
  match s with
  | c :: rest => if is_ws c then skip_ws rest else s
  | [] => []
  end.

Definition is_digit (c : N) : bool := (48 <=? c) && (c <=? 57).

(** The longest prefix of digits, and what follows it. *)
Fixpoint digits (s : list N) : list N * list N :=
  match s with
  | c :: rest =>
      if is_digit c then let (ds, rest') := digits rest in (c :: ds, rest')
      else ([], s)
  | [] => ([], [])
  end.

(** A number: an optional minus sign; an integer part, which is 0 or starts
    with a digit from 1 to 9; an optional fraction, a dot and at least one
    digit; an optional exponent, [e] or [E], an optional sign and at least
    one digit. *)
Definition parse_number (s : list N) : option (list N * list N) :=
  let (sign, s1) := match s with 45 :: rest => ([45], rest) | _ => ([], s) end in
  let (int, s2) := digits s1 in
  match int with
  | [] => None
  | d :: more =>
      if (d =? 48) && negb (match more with [] => true | _ => false end) then None
      else
        let frac :=
          match s2 with
          | 46 :: rest =>
              let (ds, rest') := digits rest in
              match ds with [] => None | _ => Some (46 :: ds, rest') end
          | _ => Some ([], s2)
          end in
        match frac with
        | None => None
        | Some (fs, s3) =>
            let exp :=
              match s3 with
              | e :: rest =>
                  if (e =? 101) || (e =? 69) then
                    let (es, rest1) :=
                      match rest with
                      | c :: rest' =>
                          if (c =? 43) || (c =? 45) then ([c], rest') else ([], rest)
                      | [] => ([], rest)
                      end in
                    let (ds, rest2) := digits rest1 in
                    match ds with [] => None | _ => Some (e :: es ++ ds, rest2) end
                  else Some ([], s3)
              | [] => Some ([], s3)
              end in
            match exp with
            | None => None
            | Some (xs, s4) => Some (sign ++ int ++ fs ++ xs, s4)
            end
        end
  end.

(** The characters of a string literal after its opening quote. *)
Fixpoint parse_chars (s : list N) (acc : list N) : option (list N * list N) :=
  match s with
  | [] => None
  | 34 :: rest => Some (acc, rest)
  | 92 :: rest =>
      match rest with
      | 34 :: rest' => parse_chars rest' (acc ++ [34])
      | 92 :: rest' => parse_chars rest' (acc ++ [92])
      | 47 :: rest' => parse_chars rest' (acc ++ [47])
      | 98 :: rest' => parse_chars rest' (acc ++ [8])
      | 102 :: rest' => parse_chars rest' (acc ++ [12])
      | 110 :: rest' => parse_chars rest' (acc ++ [10])
      | 114 :: rest' => parse_chars rest' (acc ++ [13])
      | 116 :: rest' => parse_chars rest' (acc ++ [9])
      | 117 :: h3 :: h2 :: h1 :: h0 :: rest' =>
          match Buffer.hex_value h3, Buffer.hex_value h2,
                Buffer.hex_value h1, Buffer.hex_value h0 with
          | Some a, Some b, Some c, Some d =>
              parse_chars rest' (acc ++ [((a * 16 + b) * 16 + c) * 16 + d])
          | _, _, _, _ => None
          end
      | _ => None
      end
  | c :: rest => if c <? 32 then None else parse_chars rest (acc ++ [c])
  end.

(** [s] with the prefix [lit] removed, when it starts with it. *)
Fixpoint after (lit s : list N) : option (list N) :=
  match lit, s with
  | [], _ => Some s
  | l :: lit', c :: s' => if l =? c then after lit' s' else None
  | _ :: _, [] => None
  end.

(** Values, array elements and object members.  Every call that does not
    consume input is followed by one that does, so twice the length of the
    input is enough fuel. *)
Fixpoint parse_value (fuel : nat) (s : list N) : option (value * list N) :=
  match fuel with
  | O => None
  | S fuel =>
      match skip_ws s with
      | 123 :: rest =>
          match skip_ws rest with
          | 125 :: rest' => Some (JObject [], rest')
          | _ =>
              match parse_members fuel rest [] with
              | Some (ms, rest') => Some (JObject ms, rest')
              | None => None
              end
          end
      | 91 :: rest =>
          match skip_ws rest with
          | 93 :: rest' => Some (JArray [], rest')
          | _ =>
              match parse_elements fuel rest [] with
              | Some (vs, rest') => Some (JArray vs, rest')
              | None => None
              end
          end
      | 34 :: rest =>
          match parse_chars rest [] with
          | Some (str, rest') => Some (JString str, rest')
          | None => None
          end
      | 116 :: _ =>
          match after (Js.str "true") (skip_ws s) with
          | Some rest => Some (JBoolean true, rest)
          | None => None
          end
      | 102 :: _ =>
          match after (Js.str "false") (skip_ws s) with
          | Some rest => Some (JBoolean false, rest)
          | None => None
          end
      | 110 :: _ =>
          match after (Js.str "null") (skip_ws s) with
          | Some rest => Some (JNull, rest)
          | None => None
          end
      | _ =>
          match parse_number (skip_ws s) with
          | Some (lexeme, rest) => Some (JNumber lexeme, rest)
          | None => None
          end
      end
  end
with parse_elements (fuel : nat) (s : list N) (acc : list value)
  : option (list value * list N) :=
  match fuel with
  | O => None
  | S fuel =>
      match parse_value fuel s with
      | Some (v, rest) =>
          match skip_ws rest with
          | 44 :: rest' => parse_elements fuel rest' (acc ++ [v])
          | 93 :: rest' => Some (acc ++ [v], rest')
          | _ => None
          end
      | None => None
      end
  end
with parse_members (fuel : nat) (s : list N) (acc : list (list N * value))
  : option (list (list N * value) * list N) :=
  match fuel with
  | O => None
  | S fuel =>
      match skip_ws s with
      | 34 :: rest =>
          match parse_chars rest [] with
          | Some (key, rest1) =>
              match skip_ws rest1 with
              | 58 :: rest2 =>
                  match parse_value fuel rest2 with
                  | Some (v, rest3) =>
                      match skip_ws rest3 with
                      | 44 :: rest4 => parse_members fuel rest4 (acc ++ [(key, v)])
                      | 125 :: rest4 => Some (acc ++ [(key, v)], rest4)
                      | _ => None
                      end
                  | None => None
                  end
              | _ => None
              end
          | None => None
          end
      | _ => None
      end
  end.

(** [JSON.parse(text)]: [None] stands for the [SyntaxError] it throws. *)
Definition parse (text : list N) : option value :=
  match parse_value (2 * List.length text + 2) text with
  | Some (v, rest) =>
      match skip_ws rest with
      | [] => Some v
      | _ => None
      end
  | None => None
  end.

Definition eqb_units (a b : list N) : bool :=
  bool_decide (a = b).

(** The value of the last member named [key], as an object made by
    [JSON.parse] holds it. *)
Fixpoint lookup (key : list N) (members : list (list N * value)) : value :=
  match members with
  | [] => JUndefined
  | (k, v) :: rest =>
      match lookup key rest with
      | JUndefined => if eqb_units k key then v else JUndefined
      | later => later
      end
  end.

(** [v.key] for a key that no prototype defines: [None] stands for the
    [TypeError] thrown on [null] and [undefined]. *)
Definition get (v : value) (key : list N) : option value :=
  match v with
  | JUndefined | JNull => None
  | JObject members => Some (lookup key members)
  | _ => Some JUndefined
  end.

(** **** [JSON.stringify] *)

(** The decimal digits of a natural number. *)
Fixpoint decimal_digits (fuel : nat) (n : N) (acc : list N) : list N :=
  match fuel with
  | O => acc
  | S fuel =>
      if n <? 10 then (48 + n) :: acc
      else decimal_digits fuel (n / 10) ((48 + n mod 10) :: acc)
  end.

Definition decimal (n : N) : list N := decimal_digits (S (N.to_nat (N.log2 n))) n [].

(** [String(z)] for an integer [z]: what [JSON.stringify] writes for a
    number that is an integer below [10^21] in size. *)
Definition integer (z : Z) : list N :=
  match z with
  | Zneg p => 45 :: decimal (Npos p)
  | _ => decimal (Z.to_N z)
  end.

(** The escape [\uXXXX] of a code unit, in lowercase. *)
Definition unicode_escape (u : N) : list N :=
  [92; 117; Buffer.hex_digit (u / 4096); Buffer.hex_digit ((u / 256) mod 16);
   Buffer.hex_digit ((u / 16) mod 16); Buffer.hex_digit (u mod 16)].

(** One code unit that is no surrogate, as [QuoteJSONString] writes it. *)
Definition quote_unit (u : N) : list N :=
  if u =? 8 then [92; 98]
  else if u =? 9 then [92; 116]
  else if u =? 10 then [92; 110]
  else if u =? 12 then [92; 102]
  else if u =? 13 then [92; 114]
  else if u =? 34 then [92; 34]
  else if u =? 92 then [92; 92]
  else if u <? 32 then unicode_escape u
  else [u].

(** The characters between the quotes: a surrogate pair is written as it
    is, an unpaired surrogate as its escape. *)
Fixpoint quote_body (s : list N) : list N :=
  match s with
  | [] => []
  | u :: rest =>
      if Js.is_high u then
        match rest with
        | l :: rest' =>
            if Js.is_low l then u :: l :: quote_body rest'
            else unicode_escape u ++ quote_body rest
        | [] => unicode_escape u
        end
      else if Js.is_low u then unicode_escape u ++ quote_body rest
      else quote_unit u ++ quote_body rest
  end.

(** [JSON.stringify(s)] for a string. *)
Definition quote (s : list N) : list N := [34] ++ quote_body s ++ [34].

(** A property value that is a string, an integer, a boolean or [null]. *)
Inductive primitive : Type :=
| PString (s : list N)
| PInteger (z : Z)
| PBoolean (b : bool)
| PNull.

Definition stringify_primitive (p : primitive) : list N :=
  match p with
  | PString s => quote s
  | PInteger z => integer z
  | PBoolean true => Js.str "true"
  | PBoolean false => Js.str "false"
  | PNull => Js.str "null"
  end.

(** What [JSON.parse] makes of the text of a primitive. *)
Definition value_of (p : primitive) : value :=
  match p with
  | PString s => JString s
  | PInteger z => JNumber (integer z)
  | PBoolean b => JBoolean b
  | PNull => JNull
  end.

(** The lines of the members, each indented by two spaces, with [,] and a
    line feed between two of them. *)
Fixpoint stringify_members (members : list (list N * primitive)) : list N :=
  match members with
  | [] => []
  | (key, p) :: rest =>
      [32; 32] ++ quote key ++ [58; 32] ++ stringify_primitive p
        ++ match rest with
           | [] => []
           | _ => [44; 10] ++ stringify_members rest
           end
  end.

(** [JSON.stringify(record, null, 2)] for an object whose properties, in
    the order of their creation, hold primitives. *)
Definition stringify_record (members : list (list N * primitive)) : list N :=
  match members with
  | [] => Js.str "{}"
  | _ => [123; 10] ++ stringify_members members ++ [10; 125]
  end.

End JSON.

(** *** The file system, as [fs] sees it

    A path names a file with its bytes, a directory, or nothing. *)

Module Fs.

Inductive node : Type :=
| File (content : list byte)
| Directory.

(** [fs.existsSync(path)] *)
Definition existsSync (path : string) (disk : gmap string node) : bool :=
  match disk !! path with Some _ => true | None => false end.

(** [fs.readFileSync(path, 'utf-8')]: the left side is the code of the
    error it throws. *)
Definition readFileSync (path : string) (disk : gmap string node) : string + list N :=
  match disk !! path with
  | Some (File content) => inr (Buffer.toString_utf8 content)
  | Some Directory => inl "EISDIR"
  | None => inl "ENOENT"
  end.

(** [fs.writeFileSync(path, data, 'utf-8')] *)
Definition writeFileSync (path : string) (data : list N) (disk : gmap string node)
  : string + gmap string node :=
  match disk !! path with
  | Some Directory => inl "EISDIR"
  | _ => inr (<[path := File (Buffer.from_utf8 data)]> disk)
  end.

(** [fs.unlinkSync(path)] *)
Definition unlinkSync (path : string) (disk : gmap string node)
  : string + gmap string node :=
  match disk !! path with
  | Some (File _) => inr (delete path disk)
  | Some Directory => inl "EISDIR"
  | None => inl "ENOENT"
  end.

(** [path.join(dir, name)] for a directory name with no trailing separator
    and a plain file name. *)
Definition join (dir name : string) : string := dir ++ "/" ++ name.

End Fs.

(** ** Node's [crypto] module

    The primitives [src/storage/crypto.ts] calls, as their standards define
    them: SHA-256 (FIPS 180-4), HMAC (RFC 2104), PBKDF2 (RFC 8018), AES-256
    (FIPS 197) and GCM (NIST SP 800-38D).  Words and blocks are natural
    numbers; byte strings are lists of byte values inside, and lists of
    bytes at the interface. *)

Module SHA256.
Local Open Scope N_scope.

Definition add32 (a b : N) : N := (a + b) mod 2 ^ 32.

Definition rotr (n x : N) : N :=
  N.lor (N.shiftr x n) (N.shiftl x (32 - n) mod 2 ^ 32).

Definition Ch (x y z : N) : N :=
  N.lxor (N.land x y) (N.land (N.lxor x (2 ^ 32 - 1)) z).

Definition Maj (x y z : N) : N :=
  N.lxor (N.lxor (N.land x y) (N.land x z)) (N.land y z).

Definition Sigma0 (x : N) : N := N.lxor (N.lxor (rotr 2 x) (rotr 13 x)) (rotr 22 x).
Definition Sigma1 (x : N) : N := N.lxor (N.lxor (rotr 6 x) (rotr 11 x)) (rotr 25 x).
Definition sigma0 (x : N) : N := N.lxor (N.lxor (rotr 7 x) (rotr 18 x)) (N.shiftr x 3).
Definition sigma1 (x : N) : N := N.lxor (N.lxor (rotr 17 x) (rotr 19 x)) (N.shiftr x 10).

(** The first 64 primes. *)
Definition primes : list N :=
  [2; 3; 5; 7; 11; 13; 17; 19; 23; 29; 31; 37; 41; 43; 47; 53;
   59; 61; 67; 71; 73; 79; 83; 89; 97; 101; 103; 107; 109; 113; 127; 131;
   137; 139; 149; 151; 157; 163; 167; 173; 179; 181; 191; 193; 197; 199; 211; 223;
   227; 229; 233; 239; 241; 251; 257; 263; 269; 271; 277; 281; 283; 293; 307; 311].

(** The integer cube root, one bit at a time from bit [bits - 1] down. *)
Fixpoint cube_root (bits : nat) (n r : N) : N :=
  match bits with
  | O => r
  | S bits' =>
      let r' := r + 2 ^ N.of_nat bits' in
      cube_root bits' n (if r' * r' * r' <=? n then r' else r)
  end.

(** The round constants: the first 32 bits of the fractional parts of the
    cube roots of the first 64 primes. *)
Definition K : list N :=
  Eval vm_compute in map (fun p => cube_root 40 (p * 2 ^ 96) 0 mod 2 ^ 32) primes.

(** The initial hash value: the first 32 bits of the fractional parts of the
    square roots of the first 8 primes. *)
Definition H0 : list N :=
  Eval vm_compute in map (fun p => N.sqrt (p * 2 ^ 64) mod 2 ^ 32) (firstn 8 primes).

(** The big-endian number of a byte string, and the [n] big-endian bytes of
    a number. *)
Definition of_bytes (bs : list N) : N := fold_left (fun acc b => acc * 256 + b) bs 0.

Fixpoint to_bytes (n : nat) (x : N) : list N :=
  match n with
  | O => []
  | S n' => (x / 256 ^ N.of_nat n') mod 256 :: to_bytes n' x
  end.

(** Consecutive chunks of [size] elements; [count] is the number of chunks. *)
Fixpoint chunks {A} (size count : nat) (l : list A) : list (list A) :=
  match count with
  | O => []
  | S count' => firstn size l :: chunks size count' (skipn size l)
  end.

(** The message followed by the bit 1, zeros, and its length in bits on 64
    bits. *)
Definition pad (message : list N) : list N :=
  let len := List.length message in
  message ++ [0x80] ++ repeat 0 ((64 - (len + 9) mod 64) mod 64)%nat
    ++ to_bytes 8 (8 * N.of_nat len).

(** One round. The window holds the schedule words from the current one
    on. *)
Definition round (state : list N * list N) (k : N) : list N * list N :=
  match state with
  | ([a; b; c; d; e; f; g; h], w0 :: window) =>
      let t1 := add32 (add32 (add32 (add32 h (Sigma1 e)) (Ch e f g)) k) w0 in
      let t2 := add32 (Sigma0 a) (Maj a b c) in
      let w16 := add32 (add32 (add32 (sigma1 (nth 13 window 0)) (nth 8 window 0))
                          (sigma0 (nth 0 window 0))) w0 in
      ([add32 t1 t2; a; b; c; add32 d t1; e; f; g], window ++ [w16])
  | _ => state
  end.

(** The compression of one 64-byte block into the hash value. *)
Definition compress (hash : list N) (block : list N) : list N :=
  let words := map of_bytes (chunks 4 16 block) in
  zip_with add32 hash (fst (fold_left round K (hash, words))).

(** The digest of a byte string. *)
Definition digest (message : list N) : list N :=
  let padded := pad message in
  let blocks := chunks 64 (List.length padded / 64) padded in
  flat_map (to_bytes 4) (fold_left compress blocks H0).

End SHA256.

Module HMAC.
Local Open Scope N_scope.

(** The key as one block of 64 bytes: hashed when it is longer, and filled
    up with zero bytes. *)
Definition key_block (key : list N) : list N :=
  let k := if (64 <? List.length key)%nat then SHA256.digest key else key in
  k ++ repeat 0 (64 - List.length k)%nat.

(** HMAC-SHA-256 from the key block. *)
Definition of_block (block message : list N) : list N :=
  SHA256.digest (map (N.lxor 0x5c) block
                   ++ SHA256.digest (map (N.lxor 0x36) block ++ message)).

Definition sha256 (key message : list N) : list N :=
  of_block (key_block key) message.

End HMAC.

Module PBKDF2.
Local Open Scope N_scope.

(** [U_1 xor ... xor U_c] for one block of output, from the key block of
    the password. *)
Definition F (block salt : list N) (iterations : N) (i : N) : list N :=
  let u1 := HMAC.of_block block (salt ++ SHA256.to_bytes 4 i) in
  snd (N.iter (iterations - 1)
         (fun '(u, t) => let u' := HMAC.of_block block u in (u', zip_with N.lxor t u'))
         (u1, u1)).

Fixpoint blocks (block salt : list N) (iterations : N) (count : nat) (i : N) : list N :=
  match count with
  | O => []
  | S count' => F block salt iterations i ++ blocks block salt iterations count' (i + 1)
  end.

(** PBKDF2 with HMAC-SHA-256. *)
Definition of_block (block salt : list N) (iterations : N) (keylen : nat) : list N :=
  firstn keylen (blocks block salt iterations ((keylen + 31) / 32)%nat 1).

Definition hmac_sha256 (password salt : list N) (iterations : N) (keylen : nat) : list N :=
  of_block (HMAC.key_block password) salt iterations keylen.

End PBKDF2.

Module AES256.
Local Open Scope N_scope.

(** Arithmetic in GF(2^8) modulo [x^8 + x^4 + x^3 + x + 1]. *)
Definition xtime (a : N) : N :=
  if 2 * a <? 256 then 2 * a else N.lxor (2 * a - 256) 0x1b.

Fixpoint gmul_bits (bits : nat) (a b : N) : N :=
  match bits with
  | O => 0
  | S bits' =>
      N.lxor (if N.odd b then a else 0) (gmul_bits bits' (xtime a) (b / 2))
  end.

Definition gmul (a b : N) : N := gmul_bits 8 a b.

Fixpoint gpow (a : N) (n : nat) : N :=
  match n with
  | O => 1
  | S n' => gmul a (gpow a n')
  end.

Definition rotl8 (n x : N) : N := (N.shiftl x n mod 256) + N.shiftr x (8 - n).

(** The S-box: the inverse in the field (0 for 0), then the affine map. *)
Definition sub (x : N) : N :=
  let b := gpow x 254 in
  N.lxor (N.lxor (N.lxor (N.lxor (N.lxor b (rotl8 1 b)) (rotl8 2 b)) (rotl8 3 b))
            (rotl8 4 b)) 0x63.

Definition sbox : list N :=
  Eval vm_compute in map (fun i => sub (N.of_nat i)) (seq 0 256).

Definition SubByte (b : N) : N := nth (N.to_nat b) sbox 0.

(** The state is the 16 bytes of the block in order: byte [r + 4 c] is row
    [r] of column [c]. *)
Definition SubBytes (state : list N) : list N := map SubByte state.

Definition ShiftRows (state : list N) : list N :=
  map (fun i => nth ((i mod 4) + 4 * ((i / 4 + i mod 4) mod 4))%nat state 0) (seq 0 16).

Definition mix (column : list N) : list N :=
  match column with
  | [a0; a1; a2; a3] =>
      [N.lxor (N.lxor (N.lxor (gmul 2 a0) (gmul 3 a1)) a2) a3;
       N.lxor (N.lxor (N.lxor a0 (gmul 2 a1)) (gmul 3 a2)) a3;
       N.lxor (N.lxor (N.lxor a0 a1) (gmul 2 a2)) (gmul 3 a3);
       N.lxor (N.lxor (N.lxor (gmul 3 a0) a1) a2) (gmul 2 a3)]
  | _ => column
  end.

Definition MixColumns (state : list N) : list N :=
  flat_map mix (SHA256.chunks 4 4 state).

Definition AddRoundKey (state key : list N) : list N := zip_with N.lxor state key.

(** The key expansion for a 256-bit key: 60 words, of which the key is the
    first 8.  [words] holds the words so far, the latest first. *)
Fixpoint expand (count : nat) (i : nat) (rcon : N) (words : list (list N))
  : list (list N) :=
  match count with
  | O => rev words
  | S count' =>
      let previous := nth 0 words [] in
      let temp :=
        if (i mod 8 =? 0)%nat then
          match previous with
          | [b0; b1; b2; b3] => [N.lxor (SubByte b1) rcon; SubByte b2; SubByte b3; SubByte b0]
          | _ => previous
          end
        else if (i mod 8 =? 4)%nat then map SubByte previous
        else previous in
      expand count' (S i) (if (i mod 8 =? 0)%nat then xtime rcon else rcon)
        (zip_with N.lxor (nth 7 words []) temp :: words)
  end.

(** The 15 round keys of a 32-byte key. *)
Definition round_keys (key : list N) : list (list N) :=
  map (fun ws => concat ws)
    (SHA256.chunks 4 15 (expand 52 8 1 (rev (SHA256.chunks 4 8 key)))).

(** The cipher on one block, given the round keys. *)
Definition cipher (keys : list (list N)) (block : N) : N :=
  match keys with
  | k0 :: rest =>
      let middle := firstn 13 rest in
      let last := nth 13 rest [] in
      let state :=
        fold_left
          (fun s k => AddRoundKey (MixColumns (ShiftRows (SubBytes s))) k)
          middle (AddRoundKey (SHA256.to_bytes 16 block) k0) in
      SHA256.of_bytes (AddRoundKey (ShiftRows (SubBytes state)) last)
  | [] => block
  end.

Definition encrypt_block (key : list N) (block : N) : N :=
  cipher (round_keys key) block.

End AES256.

Module GCM.
Local Open Scope N_scope.

(** The product in GF(2^128) of two blocks, in the bit order of the
    standard: bit 0 of a block is its most significant bit. *)
Fixpoint mul_bits (bits : nat) (x v : N) : N :=
  match bits with
  | O => 0
  | S bits' =>
      N.lxor (if N.testbit x (N.of_nat bits') then v else 0)
        (mul_bits bits' x
           (if N.testbit v 0 then N.lxor (N.shiftr v 1) (N.shiftl 0xe1 120)
            else N.shiftr v 1))
  end.

Definition mul (x y : N) : N := mul_bits 128 x y.

Definition ghash (h : N) (blocks : list N) : N :=
  fold_left (fun y x => mul (N.lxor y x) h) blocks 0.

(** The blocks of a byte string, the last one filled up with zero bits. *)
Definition blocks_of (bytes : list N) : list N :=
  map (fun chunk => SHA256.of_bytes (chunk ++ repeat 0 (16 - List.length chunk)%nat))
    (SHA256.chunks 16 ((List.length bytes + 15) / 16)%nat bytes).

Definition inc32 (block : N) : N :=
  (block / 2 ^ 32) * 2 ^ 32 + (block mod 2 ^ 32 + 1) mod 2 ^ 32.

(** The pre-counter block of an initialisation vector. *)
Definition j0 (h : N) (iv : list N) : N :=
  if (List.length iv =? 12)%nat then SHA256.of_bytes iv * 2 ^ 32 + 1
  else ghash h (blocks_of iv ++ [8 * N.of_nat (List.length iv)]).

(** [count] blocks of key stream, from the counter block [counter]. *)
Fixpoint keystream (keys : list (list N)) (counter : N) (count : nat) : list N :=
  match count with
  | O => []
  | S count' =>
      SHA256.to_bytes 16 (AES256.cipher keys counter)
        ++ keystream keys (inc32 counter) count'
  end.

(** Counter mode from the block after [j]: used to encrypt and to decrypt. *)
Definition gctr (keys : list (list N)) (j : N) (data : list N) : list N :=
  zip_with N.lxor data (keystream keys (inc32 j) ((List.length data + 15) / 16)%nat).

(** The 16-byte authentication tag of a ciphertext, with no additional
    data. *)
Definition tag (keys : list (list N)) (h j : N) (ciphertext : list N) : list N :=
  SHA256.to_bytes 16
    (N.lxor (ghash h (blocks_of ciphertext ++ [8 * N.of_nat (List.length ciphertext)]))
       (AES256.cipher keys j)).

(** Authenticated encryption: the ciphertext and its tag. *)
Definition seal (key iv plaintext : list N) : list N * list N :=
  let keys := AES256.round_keys key in
  let h := AES256.cipher keys 0 in
  let j := j0 h iv in
  let ciphertext := gctr keys j plaintext in
  (ciphertext, tag keys h j ciphertext).

(** Whether the tag received is the beginning of the tag of the ciphertext. *)
Definition verifies (key iv received ciphertext : list N) : bool :=
  let keys := AES256.round_keys key in
  let h := AES256.cipher keys 0 in
  bool_decide (firstn (List.length received) (tag keys h (j0 h iv) ciphertext) = received).

(** Authenticated decryption: the plaintext when the tag verifies. *)
Definition open (key iv received ciphertext : list N) : option (list N) :=
  if verifies key iv received ciphertext then
    let keys := AES256.round_keys key in
    Some (gctr keys (j0 (AES256.cipher keys 0) iv) ciphertext)
  else None.

End GCM.

(** The functions of Node's [crypto] that [crypto.ts] calls, on buffers. *)
Module Crypto.
Import Js.

Definition values (buf : list byte) : list N := map Byte.to_N buf.
Definition bytes (vs : list N) : list byte := map byte_of_N vs.

(** [crypto.randomBytes(size)]: the source of randomness is a stream of
    bytes, of which the call takes the first [size]. *)
Definition randomBytes (size : nat) (random : nat -> byte) : list byte * (nat -> byte) :=
  (map random (seq 0 size), fun i => random (size + i)%nat).

(** [crypto.pbkdf2Sync(password, salt, iterations, keylen, 'sha256')]; a
    string password is taken as its UTF-8 bytes. *)
Definition pbkdf2Sync (password : list N) (salt : list byte) (iterations : N)
    (keylen : nat) : list byte :=
  bytes (PBKDF2.hmac_sha256 (values (Buffer.from_utf8 password)) (values salt)
           iterations keylen).

(** [createCipheriv('aes-256-gcm', key, iv)], [update], [final] and
    [getAuthTag]: the ciphertext and the 16-byte tag, unless the key or the
    vector is refused. *)
Definition cipher (key iv plaintext : list byte) : string + list byte * list byte :=
  if negb (List.length key =? 32)%nat then inl "Invalid key length"
  else if (List.length iv =? 0)%nat then inl "Invalid initialization vector"
  else
    let (ciphertext, tag) := GCM.seal (values key) (values iv) (values plaintext) in
    inr (bytes ciphertext, bytes tag).

(** The tag lengths [setAuthTag] accepts in GCM mode. *)
Definition valid_tag_length (n : nat) : bool :=
  (n =? 4)%nat || (n =? 8)%nat || ((12 <=? n)%nat && (n <=? 16)%nat).

(** [createDecipheriv('aes-256-gcm', key, iv)], [setAuthTag], [update] and
    [final]: the plaintext, unless the key, the vector or the tag length is
    refused or the tag does not verify. *)
Definition decipher (key iv tag ciphertext : list byte) : string + list byte :=
  if negb (List.length key =? 32)%nat then inl "Invalid key length"
  else if (List.length iv =? 0)%nat then inl "Invalid initialization vector"
  else if negb (valid_tag_length (List.length tag)) then
    inl "Invalid authentication tag length"
  else
    match GCM.open (values key) (values iv) (values tag) (values ciphertext)
          return string + list byte with
    | Some plaintext => inr (bytes plaintext)
    | None => inl "Unsupported state or unable to authenticate data"
    end.

(** [crypto.randomBytes(size)] for a size that is any integer: a size
    below 0 or above [2^31 - 1] is refused. *)
Definition randomBytesOf (size : Z) (random : nat -> byte)
  : (string + list byte) * (nat -> byte) :=
  if ((size <? 0) || (2147483647 <? size))%Z then
    (inl "The value of size is out of range", random)
  else
    let (buf, random') := randomBytes (Z.to_nat size) random in (inr buf, random').

(** [crypto.createHash('sha256').update(data).digest()] for a string, which
    is hashed as its UTF-8 bytes. *)
Definition sha256 (data : list N) : list byte :=
  bytes (SHA256.digest (values (Buffer.from_utf8 data))).

End Crypto.

(** ** [src/storage/crypto.ts] *)

Module CryptoUtil.

Definition KEY_LENGTH : nat := 32.
Definition IV_LENGTH : nat := 16.
Definition SALT_LENGTH : nat := 64.
Definition TAG_LENGTH : nat := 16.
Definition ITERATIONS : N := 100000.

(** [deriveKey(password, salt)] *)
Definition deriveKey (password : list N) (salt : list byte) : list byte :=
  Crypto.pbkdf2Sync password salt ITERATIONS KEY_LENGTH.

(** [encrypt(data, password)]: the base64 text of [salt + iv + tag +
    ciphertext], or the message of the error thrown. *)
Definition encrypt (data password : list N) (random : nat -> byte)
  : (string + list N) * (nat -> byte) :=
  let (salt, random1) := Crypto.randomBytes SALT_LENGTH random in
  let (iv, random2) := Crypto.randomBytes IV_LENGTH random1 in
  let key := deriveKey password salt in
  match Crypto.cipher key iv (Buffer.from_utf8 data)
        return (string + list N) * (nat -> byte) with
  | inl _ => (inl "Failed to encrypt data", random2)
  | inr (ciphertext, tag) =>
      let encrypted := Buffer.toString_hex ciphertext in
      let combined := salt ++ iv ++ tag ++ Buffer.from_hex encrypted in
      (inr (Buffer.toString_base64 combined), random2)
  end.

(** [buffer.subarray(start, end)] and [buffer.subarray(start)] *)
Definition subarray (start stop : nat) (buf : list byte) : list byte :=
  firstn (stop - start) (skipn start buf).

(** [decrypt(encryptedData, password)]: the plaintext, or the message of
    the error thrown. *)
Definition decrypt (encryptedData password : list N) : string + list N :=
  let combined := Buffer.from_base64 encryptedData in
  let salt := subarray 0 SALT_LENGTH combined in
  let iv := subarray SALT_LENGTH (SALT_LENGTH + IV_LENGTH) combined in
  let tag := subarray (SALT_LENGTH + IV_LENGTH)
               (SALT_LENGTH + IV_LENGTH + TAG_LENGTH) combined in
  let encrypted := skipn (SALT_LENGTH + IV_LENGTH + TAG_LENGTH) combined in
  let key := deriveKey password salt in
  match Crypto.decipher key iv tag encrypted return string + list N with
  | inl _ => inl "Failed to decrypt data - invalid password or corrupted data"
  | inr decrypted => inr (Buffer.toString_utf8 decrypted)
  end.

(** [buffer.toString('hex')], which fails for a string that would be too
    long. *)
Definition toHex (buf : list byte) : string + list N :=
  if (Js.MAX_STRING_LENGTH <? 2 * Z.of_nat (List.length buf))%Z then
    inl "Cannot create a string longer than 0x1fffffe8 characters"
  else inr (Buffer.toString_hex buf).

(** [generatePassword(length = 32)], for an integer [length]:
    [Math.ceil(length / 2)] is [(length + 1) / 2] rounded down. *)
Definition generatePassword (length : Z) (random : nat -> byte)
  : (string + list N) * (nat -> byte) :=
  match Crypto.randomBytesOf ((length + 1) / 2) random
        return (string + list N) * (nat -> byte) with
  | (inl error, random') => (inl error, random')
  | (inr buf, random') =>
      match toHex buf with
      | inl error => (inl error, random')
      | inr hex => (inr (Js.slice 0 length hex), random')
      end
  end.

(** [hash(data)] *)
Definition hash (data : list N) : list N :=
  Buffer.toString_hex (Crypto.sha256 data).

(** [generateToken()] *)
Definition generateToken (random : nat -> byte) : list N * (nat -> byte) :=
  let (buf, random') := Crypto.randomBytes 32 random in
  (Buffer.toString_hex buf, random').

(** [verifyIntegrity(encryptedData)] *)
Definition verifyIntegrity (encryptedData : list N) : bool :=
  let combined := Buffer.from_base64 encryptedData in
  let minLength := (SALT_LENGTH + IV_LENGTH + TAG_LENGTH)%nat in
  if (List.length combined <? minLength)%nat then false else true.

(** *** The parts of the blob [encrypt] builds *)

(** The salt and the vector [encrypt] draws from the stream. *)
Definition salt_of (random : nat -> byte) : list byte :=
  fst (Crypto.randomBytes SALT_LENGTH random).

Definition iv_of (random : nat -> byte) : list byte :=
  fst (Crypto.randomBytes IV_LENGTH (snd (Crypto.randomBytes SALT_LENGTH random))).

(** What [encrypt] seals, the UTF-8 bytes of the data under the derived key:
    the ciphertext and the tag. *)
Definition sealed (data password : list N) (random : nat -> byte) : list N * list N :=
  GCM.seal (Crypto.values (deriveKey password (salt_of random)))
    (Crypto.values (iv_of random)) (Crypto.values (Buffer.from_utf8 data)).

(** Salt, vector, tag and ciphertext, in base64. *)
Definition blob_of (data password : list N) (random : nat -> byte) : list N :=
  Buffer.toString_base64
    (salt_of random ++ iv_of random
       ++ Crypto.bytes (snd (sealed data password random))
       ++ Crypto.bytes (fst (sealed data password random))).

(** Whether the tag of that blob verifies under the key another passphrase
    derives from its salt. *)
Definition tag_verifies (data password password' : list N) (random : nat -> byte) : bool :=
  GCM.verifies (Crypto.values (deriveKey password' (salt_of random)))
    (Crypto.values (iv_of random))
    (snd (sealed data password random)) (fst (sealed data password random)).

End CryptoUtil.

(** ** [src/storage/token.ts] *)

Module TokenStorage.

Record t : Type := mk {
  storageDir : string;
  password : list N;
  tokenFile : string
}.

(** [constructor(logger, options)], with the defaults applied. *)
Definition new (storageDir : string) (password : list N) : t :=
  {| storageDir := storageDir; password := password;
     tokenFile := Fs.join storageDir "token.encrypted" |}.

(** [exists()] *)
Definition exists_ (this : t) (disk : gmap string Fs.node) : bool :=
  Fs.existsSync (tokenFile this) disk.

(** [clear()]: what [unlinkSync] throws is caught and logged. *)
Definition clear (this : t) (disk : gmap string Fs.node) : gmap string Fs.node :=
  if exists_ this disk then
    match Fs.unlinkSync (tokenFile this) disk with
    | inr disk' => disk'
    | inl _ => disk
    end
  else disk.

(** [load()]: the parsed token data, or [None] for the [null] it returns
    when there is no file, when the integrity check fails and when anything
    in the [try] block throws. *)
Definition load (this : t) (disk : gmap string Fs.node)
  : option JSON.value * gmap string Fs.node :=
  if negb (exists_ this disk) then (None, disk)
  else
    match Fs.readFileSync (tokenFile this) disk with
    | inl _ => (None, disk)
    | inr encrypted =>
        if negb (CryptoUtil.verifyIntegrity encrypted) then (None, clear this disk)
        else
          match CryptoUtil.decrypt encrypted (password this)
                return option JSON.value * gmap string Fs.node with
          | inl _ => (None, disk)
          | inr decrypted =>
              match JSON.parse decrypted with
              | None => (None, disk)
              | Some tokenData =>
                  match JSON.get tokenData (Js.str "userId") with
                  | None => (None, disk)
                  | Some _ => (Some tokenData, disk)
                  end
              end
          end
    end.

(** [interface StoredToken]: three strings and three times in
    milliseconds. *)
Record StoredToken : Type := mkToken {
  token : list N;
  userId : list N;
  userName : list N;
  expiresAt : Z;
  createdAt : Z;
  updatedAt : Z
}.

(** The properties of a [StoredToken], in the order of the interface. *)
Definition properties (tokenData : StoredToken) : list (list N * JSON.primitive) :=
  [(Js.str "token", JSON.PString (token tokenData));
   (Js.str "userId", JSON.PString (userId tokenData));
   (Js.str "userName", JSON.PString (userName tokenData));
   (Js.str "expiresAt", JSON.PInteger (expiresAt tokenData));
   (Js.str "createdAt", JSON.PInteger (createdAt tokenData));
   (Js.str "updatedAt", JSON.PInteger (updatedAt tokenData))].

(** [save(tokenData)]: the disk after it, or the message of the error
    thrown; the random bytes [encrypt] draws are used up either way. *)
Definition save (this : t) (tokenData : StoredToken) (random : nat -> byte)
    (disk : gmap string Fs.node)
  : (string + gmap string Fs.node) * (nat -> byte) :=
  let data := JSON.stringify_record (properties tokenData) in
  let encrypted := CryptoUtil.encrypt data (password this) random in
  (match fst encrypted return string + gmap string Fs.node with
   | inl _ => inl "Failed to save token"
   | inr text =>
       match Fs.writeFileSync (tokenFile this) text disk with
       | inl _ => inl "Failed to save token"
       | inr disk1 => inr disk1
       end
   end, snd encrypted).

(** [getUserInfo()] *)
Definition getUserInfo (this : t) (disk : gmap string Fs.node)
  : option (JSON.value * JSON.value) * gmap string Fs.node :=
  match load this disk return option (JSON.value * JSON.value) * gmap string Fs.node with
  | (Some tokenData, disk1) =>
      (Some (JSON.lookup (Js.str "userId") 
               (match tokenData with JSON.JObject members => members | _ => [] end),
             JSON.lookup (Js.str "userName")
               (match tokenData with JSON.JObject members => members | _ => [] end)),
       disk1)
  | (None, disk1) => (None, disk1)
  end.

End TokenStorage.

(** ** [src/storage/session.ts]: the browser-session part *)

Module SessionStorage.

Record t : Type := mk {
  storageDir : string;
  sessionFile : string;
  browserStateFile : string;
  userInfoFile : string
}.

(** [constructor(logger, options)], with [options.storageDir || '.storage']
    already applied. *)
Definition new (storageDir : string) : t :=
  {| storageDir := storageDir;
     sessionFile := Fs.join storageDir "session.json";
     browserStateFile := Fs.join storageDir "browser-state.json";
     userInfoFile := Fs.join storageDir "user-info.json" |}.

(** What [loadUserInfo] returns: the two properties it reads off the parsed
    file, whatever their values are. *)
Record UserInfo : Type := mkUserInfo { userId : JSON.value; userName : JSON.value }.

(** [hasValidSession()] *)
Definition hasValidSession (this : t) (disk : gmap string Fs.node) : bool :=
  Fs.existsSync (browserStateFile this) disk && Fs.existsSync (userInfoFile this) disk.

(** [loadUserInfo()]: [None] is the [null] it returns when the file is not
    there and when anything in the [try] block throws. *)
Definition loadUserInfo (this : t) (disk : gmap string Fs.node) : option UserInfo :=
  if negb (Fs.existsSync (userInfoFile this) disk) then None
  else
    match Fs.readFileSync (userInfoFile this) disk with
    | inl _ => None
    | inr data =>
        match JSON.parse data with
        | None => None
        | Some userInfo =>
            match JSON.get userInfo (Js.str "userId"),
                  JSON.get userInfo (Js.str "userName") with
            | Some id, Some name => Some {| userId := id; userName := name |}
            | _, _ => None
            end
        end
    end.

(** [exists()] *)
Definition exists_ (this : t) (disk : gmap string Fs.node) : bool :=
  Fs.existsSync (sessionFile this) disk.

(** The object [saveUserInfo] stores: the two strings of [userInfo], then
    the two readings of [Date.now()]. *)
Definition storedUserInfo (userId userName : list N) (createdAt updatedAt : Z)
  : list (list N * JSON.primitive) :=
  [(Js.str "userId", JSON.PString userId);
   (Js.str "userName", JSON.PString userName);
   (Js.str "createdAt", JSON.PInteger createdAt);
   (Js.str "updatedAt", JSON.PInteger updatedAt)].

(** [saveUserInfo(userInfo)] for a [userInfo] of its declared type, two
    strings: what the [try] block throws is caught and logged. *)
Definition saveUserInfo (this : t) (userId userName : list N) (createdAt updatedAt : Z)
    (disk : gmap string Fs.node) : gmap string Fs.node :=
  match Fs.writeFileSync (userInfoFile this)
          (JSON.stringify_record (storedUserInfo userId userName createdAt updatedAt))
          disk with
  | inr disk1 => disk1
  | inl _ => disk
  end.

(** [saveBrowserState(state)], where [data] is the text [JSON.stringify]
    makes of the state: the disk after it, or the message of the error
    thrown. *)
Definition saveBrowserState (this : t) (data : list N) (disk : gmap string Fs.node)
  : string + gmap string Fs.node :=
  match Fs.writeFileSync (browserStateFile this) data disk with
  | inr disk1 => inr disk1
  | inl _ => inl "Failed to save browser state"
  end.

(** [if (fs.existsSync(path)) { fs.unlinkSync(path); }]: the disk after it,
    or the code of the error thrown. *)
Definition unlinkIfExists (path : string) (disk : gmap string Fs.node)
  : string + gmap string Fs.node :=
  if Fs.existsSync path disk then Fs.unlinkSync path disk else inr disk.

(** [clearBrowserSession()]: one [try] block around both removals, so the
    second is not reached when the first throws. *)
Definition clearBrowserSession (this : t) (disk : gmap string Fs.node)
  : gmap string Fs.node :=
  match unlinkIfExists (browserStateFile this) disk with
  | inl _ => disk
  | inr disk1 =>
      match unlinkIfExists (userInfoFile this) disk1 with
      | inl _ => disk1
      | inr disk2 => disk2
      end
  end.

(** [clear()]: the session file in a [try] block of its own, then the
    browser session. *)
Definition clear (this : t) (disk : gmap string Fs.node) : gmap string Fs.node :=
  clearBrowserSession this
    (match unlinkIfExists (sessionFile this) disk with
     | inl _ => disk
     | inr disk1 => disk1
     end).

End SessionStorage.

(** ** The authentication manager ([AuthManager], browser-session based) *)

(** [enum LoginMethod { QR_CODE = 'qr_code', PHONE_CODE = 'phone_code' }];
    [Other] stands for a value that is no member of the enumeration, which
    the [default] branch of [login] answers. *)
Module LoginMethod.
Inductive t : Type := QR_CODE | PHONE_CODE | Other (name : string).
Definition to_string (m : t) : string :=
  match m with QR_CODE => "qr_code" | PHONE_CODE => "phone_code" | Other name => name end.
End LoginMethod.

(** [interface AuthResult { success; userId?; userName?; error? }] *)
Module AuthResult.
Record t : Type :=
  mk { success : bool; userId : JSON.value; userName : JSON.value; error : option string }.
End AuthResult.

Module AuthManager.

(** The fields of the class: the session store, and whether [browser],
    [context] and [page] hold an object, and the cached user info. *)
Record t : Type := mk {
  sessionStorage : SessionStorage.t;
  browser : bool;
  context : bool;
  page : bool;
  userInfo : option SessionStorage.UserInfo
}.

Definition set_userInfo (info : option SessionStorage.UserInfo) (this : t) : t :=
  {| sessionStorage := sessionStorage this; browser := browser this;
     context := context this; page := page this; userInfo := info |}.

(** [isAuthenticated()] *)
Definition isAuthenticated (this : t) (disk : gmap string Fs.node) : bool :=
  (browser this && context this)
  || SessionStorage.hasValidSession (sessionStorage this) disk.

(** [getUserInfo()] *)
Definition getUserInfo (this : t) : option SessionStorage.UserInfo := userInfo this.

Section Login.

(** The browser and the platform behind it. *)
Context {W : Type}.

(** What a login flow and [saveSession] can touch. *)
Record Env : Type := mkEnv { manager : t; disk : gmap string Fs.node; world : W }.

(** The private login flows drive a browser; they answer whether the login
    reached the dashboard, unless they throw (the left side is the message
    of the error).  [saveSession] catches what it throws. *)
Variable loginByQRCode : Env -> (string + bool) * Env.
Variable loginByPhoneCode : Env -> (string + bool) * Env.
Variable saveSession : Env -> Env.

(** The state [login] runs in: the environment and the login flows started
    so far. *)
Record St : Type := mkSt { env : Env; started : list LoginMethod.t }.

Definition on_manager (f : t -> t) : M (S:=St) unit :=
  modify (fun st =>
    {| env := {| manager := f (manager (env st)); disk := disk (env st);
                 world := world (env st) |};
       started := started st |}).

Definition flow {A} (method : LoginMethod.t) (f : Env -> A * Env) : M (S:=St) A :=
  fun st => let (a, e) := f (env st) in
            (a, {| env := e; started := started st ++ [method] |}).

Definition in_env {A} (f : Env -> A * Env) : M (S:=St) A :=
  fun st => let (a, e) := f (env st) in (a, {| env := e; started := started st |}).

(** [{ success: true, userId: this.userInfo?.userId, userName: this.userInfo?.userName }] *)
Definition succeeded (this : t) : AuthResult.t :=
  {| AuthResult.success := true;
     AuthResult.userId :=
       match userInfo this with
       | Some info => SessionStorage.userId info
       | None => JSON.JUndefined
       end;
     AuthResult.userName :=
       match userInfo this with
       | Some info => SessionStorage.userName info
       | None => JSON.JUndefined
       end;
     AuthResult.error := None |}.

Definition failed (message : string) : AuthResult.t :=
  {| AuthResult.success := false; AuthResult.userId := JSON.JUndefined;
     AuthResult.userName := JSON.JUndefined; AuthResult.error := Some message |}.

(** [login({ force = false, method = LoginMethod.QR_CODE })] *)
Definition login (force : bool) (method : LoginMethod.t) : M AuthResult.t :=
  st <- get ;;
  let this := manager (env st) in
  if negb force && SessionStorage.hasValidSession (sessionStorage this) (disk (env st)) then
    (match SessionStorage.loadUserInfo (sessionStorage this) (disk (env st)) with
     | Some savedUserInfo => on_manager (set_userInfo (Some savedUserInfo))
     | None => ret tt
     end) ;;;
    st' <- get ;;
    ret (succeeded (manager (env st')))
  else
    match method with
    | LoginMethod.Other name =>
        ret (failed (String.append "Unsupported login method: " name))
    | _ =>
        outcome <- flow method
                     (match method with
                      | LoginMethod.PHONE_CODE => loginByPhoneCode
                      | _ => loginByQRCode
                      end) ;;
        match outcome with
        | inl message =>
            ret (failed (if String.eqb message "" then "Unknown error" else message))
        | inr false => ret (failed "Login failed")
        | inr true =>
            in_env (fun e => (tt, saveSession e)) ;;;
            st' <- get ;;
            ret (succeeded (manager (env st')))
        end
    end.

(** The objects [closeBrowser] closes. *)
Inductive BrowserObject : Set := ThePage | TheContext | TheBrowser.

(** [page.close()], [context.close()] and [browser.close()]: whether the
    call resolves. *)
Variable close : BrowserObject -> W -> bool * W.

(** [closeBrowser()]: each object that is there is closed and its field set
    to [null], in one [try] block: after a close that throws the rest is
    left as it is. *)
Definition closeBrowser (e : Env) : Env :=
  let this := manager e in
  let (ok1, w1) := if page this then close ThePage (world e) else (true, world e) in
  if negb ok1 then {| manager := this; disk := disk e; world := w1 |}
  else
    let this1 := {| sessionStorage := sessionStorage this; browser := browser this;
                    context := context this; page := false; userInfo := userInfo this |} in
    let (ok2, w2) := if context this1 then close TheContext w1 else (true, w1) in
    if negb ok2 then {| manager := this1; disk := disk e; world := w2 |}
    else
      let this2 := {| sessionStorage := sessionStorage this; browser := browser this;
                      context := false; page := false; userInfo := userInfo this |} in
      let (ok3, w3) := if browser this2 then close TheBrowser w2 else (true, w2) in
      if negb ok3 then {| manager := this2; disk := disk e; world := w3 |}
      else
        {| manager := {| sessionStorage := sessionStorage this; browser := false;
                         context := false; page := false; userInfo := userInfo this |};
           disk := disk e; world := w3 |}.

(** [logout()] *)
Definition logout (e : Env) : Env :=
  let e1 := closeBrowser e in
  {| manager := set_userInfo None (manager e1);
     disk := SessionStorage.clearBrowserSession (sessionStorage (manager e1)) (disk e1);
     world := world e1 |}.

(** [dispose()] *)
Definition dispose (e : Env) : Env := closeBrowser e.

End Login.

Arguments Env : clear implicits.
Arguments St : clear implicits.

End AuthManager.
(** ** [src/adapters/http.adapter.ts] *)

Module HttpConfig.
(** [interface HttpConfig], as handed to the constructor: [None] is a
    property that is absent. *)
Record t : Type := mk {
  baseUrl : option string;
  headers : option (gmap string string);
  retryAttempts : option Z;
  retryDelay : option Z;
  timeout : option Z
}.
End HttpConfig.

Module HttpAdapter.

(** [String.prototype.includes(searchString)] *)
Fixpoint includes (searchString s : string) : bool :=
  String.prefix searchString s
  || match s with
     | EmptyString => false
     | String _ rest => includes searchString rest
     end.

(** [String(z)] for an integer. *)
Definition decimal (z : Z) : string :=
  string_of_list_ascii (map ascii_of_N (JSON.integer z)).

(** An [Error] object as the [catch] block of [request] looks at it:
    [isTypeError] is [error instanceof TypeError].  What [fetch] and
    [response.json()] reject with are [Error] objects. *)
Record JsError : Type := mkError { isTypeError : bool; message : string }.

(** [new Error(message)] *)
Definition new_Error (message : string) : JsError :=
  {| isTypeError := false; message := message |}.

Definition DEFAULT_BASE_URL : string := "https://api.xiaoyuzhoufm.com".
Definition DEFAULT_RETRY_ATTEMPTS : Z := 3.
Definition DEFAULT_RETRY_DELAY : Z := 1000.

(** The adapter object: the four fields of [this.httpConfig] that are read,
    and [timeout] and [authToken] of [BaseAdapter]. *)
Record t : Type := mk {
  baseUrl : string;
  headers : gmap string string;
  retryAttempts : Z;
  retryDelay : Z;
  timeout : Z;
  authToken : option string
}.

(** [constructor(config)].  In
    [{ retryAttempts: config.retryAttempts || 3, ..., ...config }] the spread
    comes last and writes every property [config] has over the default
    computed before it, so a default stands only for a property that is
    absent.  [BaseAdapter] takes [config.timeout || 30000]. *)
Definition new (config : HttpConfig.t) : t :=
  {| baseUrl := default DEFAULT_BASE_URL (HttpConfig.baseUrl config);
     headers := default ∅ (HttpConfig.headers config);
     retryAttempts := default DEFAULT_RETRY_ATTEMPTS (HttpConfig.retryAttempts config);
     retryDelay := default DEFAULT_RETRY_DELAY (HttpConfig.retryDelay config);
     timeout := match HttpConfig.timeout config with
                | Some ms => if (ms =? 0)%Z then 30000%Z else ms
                | None => 30000%Z
                end;
     authToken := None |}.

Definition set_authToken (token : option string) (this : t) : t :=
  {| baseUrl := baseUrl this; headers := headers this;
     retryAttempts := retryAttempts this; retryDelay := retryDelay this;
     timeout := timeout this; authToken := token |}.

(** [setAuthToken(token)] and [isAuthenticated()] of [BaseAdapter]. *)
Definition setAuthToken (token : string) (this : t) : t := set_authToken (Some token) this.

Definition isAuthenticated (this : t) : bool :=
  match authToken this with
  | Some token => negb (String.eqb token "")
  | None => false
  end.

(** [buildUrl(path)] *)
Definition buildUrl (this : t) (path : string) : string :=
  String.append
    (if String.eqb (baseUrl this) "" then DEFAULT_BASE_URL else baseUrl this)
    (if String.prefix "/" path then path else String.append "/" path).

(** [buildHeaders(additionalHeaders)]: in an object literal a later property
    replaces an earlier one of the same name. *)
Definition buildHeaders (this : t) (additionalHeaders : gmap string string)
  : gmap string string :=
  let headers :=
    additionalHeaders ∪ headers this
    ∪ <["Accept" := "application/json"]> {["Content-Type" := "application/json"]} in
  match authToken this with
  | Some token =>
      if String.eqb token "" then headers
      else <["Authorization" := String.append "Bearer " token]> headers
  | None => headers
  end.

Section Http.

(** [D] is what a caller hands over as [data] (an object, which is truthy),
    [J] what [response.json()] resolves with. *)
Context {W D J : Type}.

(** The arguments of one [fetch] call: [body] stands for
    [JSON.stringify(data)], and [timeout] for the abort signal that
    [fetchWithTimeout] arms. *)
Record Request : Type := mkRequest {
  url : string;
  method : string;
  requestHeaders : gmap string string;
  body : option D;
  requestTimeout : Z
}.

(** What [request] reads of a [Response]: [retryAfter] is
    [response.headers.get('Retry-After')], [text] what [response.text()]
    resolves with ([None] when it rejects) and [json] the outcome of
    [response.json()]. *)
Record Response : Type := mkResponse {
  status : Z;
  retryAfter : option string;
  text : option string;
  json : JsError + J
}.

(** [response.ok] *)
Definition ok (response : Response) : bool :=
  (200 <=? status response)%Z && (status response <=? 299)%Z.

Variable fetch : Request -> W -> (JsError + Response) * W.
Variable now : W -> Z.

(** The argument of a [sleep] call.  [parseInt(retryAfter) * 1000] is kept
    as the header it is computed from. *)
Inductive delay : Type :=
| Ms (ms : Z)
| RetryAfter (header : string).

(** What the adapter does that an observer can see. *)
Inductive event : Type :=
| Fetched (request : Request)
| Slept (d : delay).

Record St : Type := mkSt { this : t; world : W; history : list event }.

Definition on_this (f : t -> t) : M (S:=St) unit :=
  modify (fun st => {| this := f (this st); world := world st; history := history st |}).

Definition emit (e : event) : M (S:=St) unit :=
  modify (fun st => {| this := this st; world := world st; history := history st ++ [e] |}).

(** [await this.fetchWithTimeout(url, options)] *)
Definition fetchWithTimeout (request : Request) : M (S:=St) (JsError + Response) :=
  fun st => let (outcome, w) := fetch request (world st) in
            (outcome, {| this := this st; world := w; history := history st ++ [Fetched request] |}).

(** [await this.sleep(ms)] *)
Definition sleep (d : delay) : M (S:=St) unit := emit (Slept d).

(** [healthCheck()]: the URL handed to [fetch] is ['/'] as it stands, with
    no headers. *)
Definition healthCheck : M (S:=St) HealthCheckResult.t :=
  st <- get ;;
  let startTime := now (world st) in
  outcome <- fetchWithTimeout
               {| url := "/"; method := "HEAD"; requestHeaders := ∅; body := None;
                  requestTimeout := timeout (this st) |} ;;
  st' <- get ;;
  let latency := (now (world st') - startTime)%Z in
  match outcome with
  | inr response =>
      ret {| HealthCheckResult.healthy := ok response || (status response <? 500)%Z;
             HealthCheckResult.latency := latency;
             HealthCheckResult.error := None |}
  | inl error =>
      ret {| HealthCheckResult.healthy := false;
             HealthCheckResult.latency := latency;
             HealthCheckResult.error := Some (message error) |}
  end.

(** How one run of the [try] block of [request] ends. *)
Inductive completion : Type :=
| Returned (responseData : J)
| Continued
| Thrown (error : JsError).

(** The request of every attempt. *)
Definition requestOf (this : t) (method url : string) (data : option D)
    (headers : gmap string string) : Request :=
  {| url := url; method := method; requestHeaders := buildHeaders this headers;
     body := data; requestTimeout := timeout this |}.

(** [retryAfter ? parseInt(retryAfter) * 1000 : retryDelay * (attempt + 1)] *)
Definition rateLimitDelay (response : Response) (retryDelay attempt : Z) : delay :=
  match retryAfter response with
  | Some header =>
      if String.eqb header "" then Ms (retryDelay * (attempt + 1)) else RetryAfter header
  | None => Ms (retryDelay * (attempt + 1))
  end.

(** The [try] block of [request]. *)
Definition tryBlock (method url : string) (data : option D) (headers : gmap string string)
    (retryDelay attempt : Z) : M (S:=St) completion :=
  st <- get ;;
  outcome <- fetchWithTimeout (requestOf (this st) method url data headers) ;;
  match outcome with
  | inl error => ret (Thrown error)
  | inr response =>
      if negb (ok response) then
        if (status response =? 401)%Z then
          on_this (set_authToken None) ;;;
          ret (Thrown (new_Error "Authentication failed - token may be expired"))
        else if (status response =? 429)%Z then
          sleep (rateLimitDelay response retryDelay attempt) ;;;
          ret Continued
        else
          let errorText := default "Unknown error" (text response) in
          ret (Thrown (new_Error
                 (String.append "HTTP "
                    (String.append (decimal (status response))
                       (String.append ": " errorText)))))
      else
        match json response with
        | inr responseData => ret (Returned responseData)
        | inl error => ret (Thrown error)
        end
  end.

(** [throw lastError || new Error('Request failed after retries')] *)
Definition giveUp (lastError : option JsError) : JsError :=
  default (new_Error "Request failed after retries") lastError.

(** The [for (attempt = 0; attempt < retryAttempts; attempt++)] loop of
    [request], with its [catch] block.  Every iteration that does not leave
    the loop increments [attempt], so [retryAttempts - attempt] iterations
    are enough; [fuel] counts them down. *)
Fixpoint attempts (fuel : nat) (method url : string) (data : option D)
    (headers : gmap string string) (retryAttempts retryDelay attempt : Z)
    (lastError : option JsError) : M (S:=St) (JsError + J) :=
  match fuel with
  | O => ret (inl (giveUp lastError))
  | S fuel' =>
      if (attempt <? retryAttempts)%Z then
        c <- tryBlock method url data headers retryDelay attempt ;;
        match c with
        | Returned responseData => ret (inr responseData)
        | Continued =>
            attempts fuel' method url data headers retryAttempts retryDelay
              (attempt + 1) lastError
        | Thrown error =>
            if isTypeError error && includes "abort" (message error) then
              ret (inl (new_Error "Request timeout"))
            else if includes "Authentication failed" (message error) then
              ret (inl error)
            else
              (if (attempt <? retryAttempts - 1)%Z
               then sleep (Ms (retryDelay * (attempt + 1)))
               else ret tt) ;;;
              attempts fuel' method url data headers retryAttempts retryDelay
                (attempt + 1) (Some error)
        end
      else ret (inl (giveUp lastError))
  end.

(** [request(method, path, data, { headers = {}, retryAttempts, retryDelay })],
    the last two defaulting to the configured ones. *)
Definition request (method path : string) (data : option D) (headers : gmap string string)
    (retryAttemptsOption retryDelayOption : option Z) : M (S:=St) (JsError + J) :=
  st <- get ;;
  let retryAttempts := default (retryAttempts (this st)) retryAttemptsOption in
  let retryDelay := default (retryDelay (this st)) retryDelayOption in
  attempts (Z.to_nat retryAttempts) method (buildUrl (this st) path) data headers
    retryAttempts retryDelay 0 None.

(** [get(path, options)] and [post(path, data, options)] *)
Definition get (path : string) (headers : gmap string string) : M (S:=St) (JsError + J) :=
  request "GET" path None headers None None.

Definition post (path : string) (data : option D) (headers : gmap string string)
  : M (S:=St) (JsError + J) :=
  request "POST" path data headers None None.

End Http.

Arguments Request : clear implicits.
Arguments Response : clear implicits.
Arguments event : clear implicits.
Arguments St : clear implicits.

(** *** Reading a history *)

Fixpoint fetches {D} (evs : list (event D)) : list (Request D) :=
  match evs with
  | [] => []
  | Fetched request :: rest => request :: fetches rest
  | Slept _ :: rest => fetches rest
  end.

Fixpoint sleeps {D} (evs : list (event D)) : list delay :=
  match evs with
  | [] => []
  | Fetched _ :: rest => sleeps rest
  | Slept d :: rest => d :: sleeps rest
  end.

End HttpAdapter.
(** ** The client ([XiaoYuzhouClient]) *)

Module XiaoYuzhouClient.
Import StrategyEngine.

Section Client.

Context {W E Show Resource PublishOptions : Type}.
Variable healthCheck : IAdapter -> W -> HealthCheckResult.t * W.
Variable now : W -> Z.

(** The methods of the two adapters: what a call resolves with, or what it
    rejects with. *)
Variable adapter_getShows : IAdapter -> W -> (E + AdapterResult.t (list Show)) * W.
Variable adapter_getResources :
  IAdapter -> string -> W -> (E + AdapterResult.t (list Resource)) * W.
Variable adapter_publishResource :
  IAdapter -> string -> option PublishOptions -> W
  -> (E + AdapterResult.t PublishResult.t) * W.
Variable adapter_publishResources :
  IAdapter -> list string -> option PublishOptions -> W
  -> (E + AdapterResult.t (list PublishResult.t)) * W.

(** [resource.status] *)
Variable status : Resource -> string.

(** What the callbacks handed to [execute] do with the answer of the
    adapter:
    [if (!result.success) throw new Error(result.error || message);
     return result.data || orElse]. *)
Definition unwrap {T} (message : string) (orElse : T)
    (answer : (E + AdapterResult.t T) * W) : (thrown E + T) * W :=
  match fst answer with
  | inl e => (inl (Rejected e), snd answer)
  | inr result =>
      if AdapterResult.success result then
        (inr (default orElse (AdapterResult.data result)), snd answer)
      else
        (inl (Error (BaseAdapter.or_else (AdapterResult.error result) message)), snd answer)
  end.

(** [ensureAuthenticated()]: the error it throws, if any. *)
Definition ensureAuthenticated (authManager : AuthManager.t) (disk : gmap string Fs.node)
  : option (thrown (thrown E)) :=
  if AuthManager.isAuthenticated authManager disk then None
  else Some (Error "Not authenticated. Please login first.").

(** [getShows()] *)
Definition getShows (authManager : AuthManager.t) (disk : gmap string Fs.node)
  : M (S:=St W (thrown E)) (thrown (thrown E) + list Show) :=
  match ensureAuthenticated authManager disk with
  | Some error => ret (inl error)
  | None =>
      execute healthCheck now
        (fun adapter w => unwrap "Failed to get shows" [] (adapter_getShows adapter w))
        true true
  end.

(** [getResources(showId)] *)
Definition getResources (authManager : AuthManager.t) (disk : gmap string Fs.node)
    (showId : string) : M (S:=St W (thrown E)) (thrown (thrown E) + list Resource) :=
  match ensureAuthenticated authManager disk with
  | Some error => ret (inl error)
  | None =>
      execute healthCheck now
        (fun adapter w =>
           unwrap "Failed to get resources" [] (adapter_getResources adapter showId w))
        true true
  end.

(** [getUnpublishedResources(showId)] *)
Definition getUnpublishedResources (authManager : AuthManager.t)
    (disk : gmap string Fs.node) (showId : string)
  : M (S:=St W (thrown E)) (thrown (thrown E) + list Resource) :=
  r <- getResources authManager disk showId ;;
  match r with
  | inl error => ret (inl error)
  | inr allResources =>
      ret (inr (List.filter
                  (fun r => String.eqb (status r) "draft" || String.eqb (status r) "scheduled")
                  allResources))
  end.

(** [publishResource(resourceId, options)] *)
Definition publishResource (authManager : AuthManager.t) (disk : gmap string Fs.node)
    (resourceId : string) (options : option PublishOptions)
  : M (S:=St W (thrown E)) (thrown (thrown E) + PublishResult.t) :=
  match ensureAuthenticated authManager disk with
  | Some error => ret (inl error)
  | None =>
      execute healthCheck now
        (fun adapter w =>
           unwrap "Failed to publish resource"
             {| PublishResult.success := false;
                PublishResult.resourceId := resourceId;
                PublishResult.publishedUrl := None;
                PublishResult.error := Some "Unknown error" |}
             (adapter_publishResource adapter resourceId options w))
        true true
  end.

(** [publishResources(resourceIds, options)] *)
Definition publishResources (authManager : AuthManager.t) (disk : gmap string Fs.node)
    (resourceIds : list string) (options : option PublishOptions)
  : M (S:=St W (thrown E)) (thrown (thrown E) + list PublishResult.t) :=
  match ensureAuthenticated authManager disk with
  | Some error => ret (inl error)
  | None =>
      execute healthCheck now
        (fun adapter w =>
           unwrap "Failed to publish resources" []
             (adapter_publishResources adapter resourceIds options w))
        true true
  end.

(** [getCurrentAdapter()]: [currentAdapter || AdapterType.HTTP]. *)
Definition getCurrentAdapter (engine : StrategyEngine.t) : AdapterType.t :=
  default AdapterType.HTTP (currentAdapter engine).

(** [switchAdapter(adapterType)] *)
Definition switchAdapter (adapterType : AdapterType.t)
  : M (S:=St W (thrown E)) (thrown (thrown E) + unit) :=
  forceAdapter healthCheck now adapterType.

End Client.

End XiaoYuzhouClient.

(** * Concrete worlds

    Small worlds on which the embedding is run: the outcome of a call there
    depends on the adapter (or the resource) only. *)

Module Scenario.
Import StrategyEngine.

(** [Date.now()] stands still. *)
Definition clock (w : unit) : Z := 0.

(** A health probe that reports what [up] says of the adapter. *)
Definition probe (up : IAdapter -> bool) (a : IAdapter) (w : unit)
  : HealthCheckResult.t * unit :=
  ({| HealthCheckResult.healthy := up a; HealthCheckResult.latency := 0;
      HealthCheckResult.error := if up a then None else Some "unreachable" |}, w).

Definition all_up (a : IAdapter) : bool := true.
Definition all_down (a : IAdapter) : bool := false.
Definition http_down (a : IAdapter) : bool :=
  match a with httpAdapter => false | playwrightAdapter => true end.

(** An operation that rejects on every adapter, with the adapter's name as
    the error. *)
Definition rejects (a : IAdapter) (w : unit) : (string + string) * unit :=
  (inl (AdapterType.to_string (getType a)), w).

(** An operation that resolves on every adapter, with the adapter's name as
    the value. *)
Definition resolves (a : IAdapter) (w : unit) : (string + string) * unit :=
  (inr (AdapterType.to_string (getType a)), w).

(** An operation that resolves with a failure value, as the adapters'
    data operations do when they catch an exception. *)
Definition resolves_with_failure (a : IAdapter) (w : unit)
  : (string + AdapterResult.t unit) * unit :=
  (inr (BaseAdapter.failure "Publish button not found" None), w).

(** A freshly constructed engine with the default configuration. *)
Definition fresh : St unit string :=
  {| engine := new defaultConfig; world := tt; history := [] |}.

(** The engine after [initialize()]. *)
Definition started : St unit string := snd (initialize (probe all_up) clock fresh).

(** The engine after [initialize()] and three periodic health checks of the
    HTTP adapter that found it down. *)
Definition http_found_down : St unit string :=
  snd ((initialize (probe http_down) clock ;;;
        checkAdapterHealth (probe http_down) clock AdapterType.HTTP ;;;
        checkAdapterHealth (probe http_down) clock AdapterType.HTTP ;;;
        checkAdapterHealth (probe http_down) clock AdapterType.HTTP) fresh).

(** A [publishResource] that fails for the resource [b] and succeeds for
    every other one. *)
Definition publish_all_but_b (resourceId : string) (options : option unit) (w : unit)
  : AdapterResult.t PublishResult.t * unit :=
  (if String.eqb resourceId "b"
   then BaseAdapter.failure "Publish button not found" None
   else BaseAdapter.success
          {| PublishResult.success := true; PublishResult.resourceId := resourceId;
             PublishResult.publishedUrl := None; PublishResult.error := None |}, w).

(** A string literal of JSON text: the characters of [s] between quotes. *)
Definition quoted (s : string) : list N := [34%N] ++ Js.str s ++ [34%N].

(** The text [saveUserInfo] writes for Ann. *)
Definition user_info_json : list N :=
  Js.str "{ " ++ quoted "userId" ++ Js.str ": " ++ quoted "u-42" ++ Js.str ", "
    ++ quoted "userName" ++ Js.str ": " ++ quoted "Ann" ++ Js.str ", "
    ++ quoted "createdAt" ++ Js.str ": 1700000000000, "
    ++ quoted "updatedAt" ++ Js.str ": 1700000000000 }".

Definition store : SessionStorage.t := SessionStorage.new ".storage".

(** A disk that holds a browser state and Ann's user info. *)
Definition disk_with_session : gmap string Fs.node :=
  <[".storage/user-info.json" := Fs.File (Buffer.from_utf8 user_info_json)]>
  (<[".storage/browser-state.json" := Fs.File (Buffer.from_utf8 (Js.str "{}"))]>
   (<[".storage" := Fs.Directory]> ∅)).

(** The same disk after the user-info file was cut short. *)
Definition disk_with_broken_user_info : gmap string Fs.node :=
  <[".storage/user-info.json" := Fs.File (Buffer.from_utf8 (Js.str "{ "))]>
  disk_with_session.

(** An authentication manager that has just been constructed. *)
Definition signed_out : AuthManager.t :=
  {| AuthManager.sessionStorage := store; AuthManager.browser := false;
     AuthManager.context := false; AuthManager.page := false;
     AuthManager.userInfo := None |}.

(** Login flows in a world where the user never completes the login. *)
Definition flow_times_out (e : AuthManager.Env unit) : (string + bool) * AuthManager.Env unit :=
  (inr false, e).

Definition save_nothing (e : AuthManager.Env unit) : AuthManager.Env unit := e.

Definition at_login (disk : gmap string Fs.node) : AuthManager.St unit :=
  {| AuthManager.env :=
       {| AuthManager.manager := signed_out; AuthManager.disk := disk;
          AuthManager.world := tt |};
     AuthManager.started := [] |}.

End Scenario.
(** ** Vaults under attack: the inputs of the storage scenarios *)

Module VaultScenario.
Import Js.
Local Open Scope N_scope.

(** The stream of random bytes that yields [0, 1, 2, ...]. *)
Definition counting : nat -> byte := fun i => byte_of_N (N.of_nat i).

(** One bit of one byte of a buffer turned over. *)
Definition flip (b : byte) : byte := byte_of_N (N.lxor 1 (Byte.to_N b)).

Definition corrupt (i : nat) (buf : list byte) : list byte := alter flip i buf.

(** A blob of [encrypt] with the byte at offset [i] corrupted: salt and
    vector end at offset 80, the tag at offset 96, where the ciphertext
    begins. *)
Definition tampered (i : nat) (data password : list N) (random : nat -> byte) : list N :=
  Buffer.toString_base64
    (corrupt i (Buffer.from_base64 (CryptoUtil.blob_of data password random))).

(** A passphrase and the same passphrase followed by U+0000. *)
Definition passphrase : list N := str "a".
Definition passphrase_nul : list N := str "a" ++ [0].

Definition secret : list N := str "token".

(** A string that is one unpaired high surrogate. *)
Definition lone_surrogate : list N := [0xD800].

(** A token store whose file holds a blob with the middle byte of its
    ciphertext, five bytes long, corrupted. *)
Definition storage : TokenStorage.t := TokenStorage.new ".storage" passphrase.

Definition disk_with_tampered_token : gmap string Fs.node :=
  {[ TokenStorage.tokenFile storage
     := Fs.File (Buffer.from_utf8 (tampered 98 secret passphrase counting)) ]}.

(** A token store whose file is too short to hold salt, vector and tag. *)
Definition disk_with_short_token : gmap string Fs.node :=
  {[ TokenStorage.tokenFile storage := Fs.File (Buffer.from_utf8 (str "AAAA")) ]}.

End VaultScenario.
(** ** More worlds for the engine *)

Module EngineScenario.
Import StrategyEngine Scenario.

(** The engine after [initialize()] and three periodic health checks that
    found both adapters down. *)
Definition all_found_down : St unit string :=
  snd ((initialize (probe all_down) clock ;;;
        healthCheckTick (probe all_down) clock ;;;
        healthCheckTick (probe all_down) clock ;;;
        healthCheckTick (probe all_down) clock) fresh).

(** An operation that rejects on the HTTP adapter and resolves on the
    Playwright adapter. *)
Definition http_rejects (a : IAdapter) (w : unit) : (string + string) * unit :=
  match a with
  | httpAdapter => (inl "HTTP 503", w)
  | playwrightAdapter => (inr "published", w)
  end.

End EngineScenario.

(** ** More worlds for the authentication manager *)

Module AuthScenario.
Import Scenario.

(** Browser objects that close without an error. *)
Definition closes (o : AuthManager.BrowserObject) (w : unit) : bool * unit := (true, w).

(** A manager that holds Ann's identity and an open browser. *)
Definition signed_in : AuthManager.t :=
  {| AuthManager.sessionStorage := store; AuthManager.browser := true;
     AuthManager.context := true; AuthManager.page := true;
     AuthManager.userInfo :=
       Some {| SessionStorage.userId := JSON.JString (Js.str "u-42");
               SessionStorage.userName := JSON.JString (Js.str "Ann") |} |}.

Definition after_login : AuthManager.Env unit :=
  {| AuthManager.manager := signed_in; AuthManager.disk := disk_with_session;
     AuthManager.world := tt |}.

End AuthScenario.

(** ** More inputs for the stores *)

Module StorageScenario.
Import Js.
Local Open Scope N_scope.

(** A user name with a quote, an unpaired surrogate and a line feed in
    it. *)
Definition awkward_name : list N := [34; 0xD800; 10].

(** A token record. *)
Definition a_token : TokenStorage.StoredToken :=
  {| TokenStorage.token := str "t0k3n";
     TokenStorage.userId := str "u-42";
     TokenStorage.userName := awkward_name;
     TokenStorage.expiresAt := 1700003600000;
     TokenStorage.createdAt := 1700000000000;
     TokenStorage.updatedAt := 1700000000000 |}.

End StorageScenario.

(** ** Servers for the HTTP adapter *)

Module HttpScenario.
Import HttpAdapter.

(** The world counts the fetches made; requests carry no body and answers
    no data. *)
Definition answer (outcome : JsError + Response unit)
  : Request unit -> nat -> (JsError + Response unit) * nat :=
  fun _ n => (outcome, S n).

(** No connection: [fetch] rejects with a [TypeError]. *)
Definition unreachable := answer (inl {| isTypeError := true; message := "fetch failed" |}).

(** A 401 and a 429 with a [Retry-After] header. *)
Definition unauthorized :=
  answer (inr {| status := 401; retryAfter := None; text := Some "{}"; json := inr tt |}).

Definition rate_limited :=
  answer (inr {| status := 429; retryAfter := Some "2"; text := Some ""; json := inr tt |}).

(** [new HttpAdapter({})] with a token set, and [new HttpAdapter({ retryAttempts: 0 })]. *)
Definition defaults : HttpConfig.t :=
  {| HttpConfig.baseUrl := None; HttpConfig.headers := None;
     HttpConfig.retryAttempts := None; HttpConfig.retryDelay := None;
     HttpConfig.timeout := None |}.

Definition no_attempts : HttpConfig.t :=
  {| HttpConfig.baseUrl := None; HttpConfig.headers := None;
     HttpConfig.retryAttempts := Some 0%Z; HttpConfig.retryDelay := None;
     HttpConfig.timeout := None |}.

Definition start (this : t) : St nat unit :=
  {| this := this; world := 0%nat; history := [] |}.

Definition with_token : St nat unit := start (setAuthToken "t0k3n" (new defaults)).

End HttpScenario.

(** ** A client *)

Module ClientScenario.
Import StrategyEngine Scenario.

(** The configuration the client's constructor gives the engine when it is
    handed no [strategyMode]. *)
Definition config : StrategyConfig :=
  {| mode := StrategyMode.PLAYWRIGHT; healthCheckInterval := 60000;
     fallbackTimeout := 5000; retryAttempts := 3 |}.

(** The client's engine after [initialize()]. *)
Definition initialized : St unit (thrown string) :=
  snd (initialize (probe all_up) clock
         {| engine := new config; world := tt; history := [] |}).

(** Adapters that answer every [publishResource] with a failure. *)
Definition publish_fails (a : IAdapter) (resourceId : string) (options : option unit)
    (w : unit) : (string + AdapterResult.t PublishResult.t) * unit :=
  (inr (BaseAdapter.failure "Publish button not found" None), w).

End ClientScenario.
(** * Properties of the strategy engine *)

Module EngineFacts.
Import StrategyEngine.

Lemma recordFailure_lookup (s : t) (ty : AdapterType.t) (st : AdapterState) :
  adapters s !! ty = Some st ->
  adapters (recordFailure ty s) !! ty =
    Some {| adapter := adapter st;
            healthy := if (3 <=? S (consecutiveFailures st))%nat then false else healthy st;
            lastHealthCheck := lastHealthCheck st;
            consecutiveFailures := S (consecutiveFailures st) |}.
Proof.
  intros Hst. unfold recordFailure. rewrite Hst. cbn.
  apply lookup_insert_eq.
Qed.

Lemma recordSuccess_lookup (s : t) (ty : AdapterType.t) (st : AdapterState) :
  adapters s !! ty = Some st ->
  adapters (recordSuccess ty s) !! ty =
    Some {| adapter := adapter st; healthy := true;
            lastHealthCheck := lastHealthCheck st; consecutiveFailures := 0 |}.
Proof.
  intros Hst. unfold recordSuccess. rewrite Hst. cbn.
  apply lookup_insert_eq.
Qed.

(** The handle after [n] failures in a row, counted from a handle whose
    counter is at 0. *)
Lemma failures_in_a_row (s : t) (ty : AdapterType.t) (st : AdapterState) (n : nat) :
  adapters s !! ty = Some st ->
  healthy st = true ->
  consecutiveFailures st = 0%nat ->
  exists st', adapters (Nat.iter n (recordFailure ty) s) !! ty = Some st'
              /\ consecutiveFailures st' = n
              /\ healthy st' = (n <? 3)%nat.
Proof.
  intros Hst Hh Hc. induction n as [|n IH].
  - exists st. cbn. auto.
  - destruct IH as (st' & Hl & Hn & Hh'). cbn [Nat.iter].
    eexists. split; [apply recordFailure_lookup, Hl|]. cbn.
    rewrite Hn, Hh'. split; [reflexivity|].
    destruct n as [|[|[|n]]]; reflexivity.
Qed.

(** C2. Health transition.  For a handle of the engine that is healthy with
    its counter at 0 (as the constructor and every success leave it): after
    [n] consecutive recorded failures the counter is [n] and the handle is
    healthy exactly when [n < 3], so the third failure is the one that flips
    it to unhealthy; and one recorded success, after any number of failures,
    puts the counter back to 0 and the handle back to healthy. *)
Theorem health_transition (s : t) (ty : AdapterType.t) (st : AdapterState) :
  adapters s !! ty = Some st ->
  healthy st = true ->
  consecutiveFailures st = 0%nat ->
  (forall n, exists st',
      adapters (Nat.iter n (recordFailure ty) s) !! ty = Some st'
      /\ consecutiveFailures st' = n
      /\ healthy st' = (n <? 3)%nat)
  /\ (exists st3,
      adapters (Nat.iter 3 (recordFailure ty) s) !! ty = Some st3
      /\ healthy st3 = false)
  /\ (forall n, exists st',
      adapters (recordSuccess ty (Nat.iter n (recordFailure ty) s)) !! ty = Some st'
      /\ consecutiveFailures st' = 0%nat
      /\ healthy st' = true).
Proof.
  intros Hst Hh Hc. split; [|split].
  - intros n. apply (failures_in_a_row s ty st n); assumption.
  - destruct (failures_in_a_row s ty st 3 Hst Hh Hc) as (st' & Hl & _ & Hh').
    exists st'. auto.
  - intros n.
    destruct (failures_in_a_row s ty st n Hst Hh Hc) as (st' & Hl & _ & _).
    eexists. split; [apply recordSuccess_lookup, Hl|]. cbn. auto.
Qed.

Lemma new_lookup_HTTP (cfg : StrategyConfig) :
  adapters (new cfg) !! AdapterType.HTTP =
    Some {| adapter := httpAdapter; healthy := true;
            lastHealthCheck := 0; consecutiveFailures := 0 |}.
Proof. reflexivity. Qed.

Lemma new_lookup_PLAYWRIGHT (cfg : StrategyConfig) :
  adapters (new cfg) !! AdapterType.PLAYWRIGHT =
    Some {| adapter := playwrightAdapter; healthy := true;
            lastHealthCheck := 0; consecutiveFailures := 0 |}.
Proof. reflexivity. Qed.

Lemma health_transition_witness :
  (forall n, exists st',
      adapters (Nat.iter n (recordFailure AdapterType.HTTP) (new defaultConfig))
        !! AdapterType.HTTP = Some st'
      /\ consecutiveFailures st' = n
      /\ healthy st' = (n <? 3)%nat)
  /\ (exists st3,
      adapters (Nat.iter 3 (recordFailure AdapterType.HTTP) (new defaultConfig))
        !! AdapterType.HTTP = Some st3
      /\ healthy st3 = false)
  /\ (forall n, exists st',
      adapters (recordSuccess AdapterType.HTTP
                  (Nat.iter n (recordFailure AdapterType.HTTP) (new defaultConfig)))
        !! AdapterType.HTTP = Some st'
      /\ consecutiveFailures st' = 0%nat
      /\ healthy st' = true).
Proof.
  apply (health_transition (new defaultConfig) AdapterType.HTTP
           {| adapter := httpAdapter; healthy := true;
              lastHealthCheck := 0; consecutiveFailures := 0 |});
    reflexivity.
Defined.

Section WithWorld.

Context {W E : Type}.
Variable healthCheck : IAdapter -> W -> HealthCheckResult.t * W.
Variable now : W -> Z.

Local Ltac run :=
  unfold forceAdapter, selectBestAdapter, checkAdapterHealth, attempt, call,
    recordCurrent, fallback, this, on_engine, emit, in_world, modify, bind, ret;
  cbn.

(** C9. A failure returned as a value is a success to the engine.  When the
    operation resolves on the current adapter, whatever it resolves with,
    [execute] records a success: the handle's counter is reset to 0, the
    handle is healthy, the operation has been called once (no fallback call,
    no probe, no failed attempt logged) and the caller gets the value back as
    the result.  This holds in particular for an [AdapterResult] whose
    [success] field is false. *)
Theorem value_failure_is_recorded_as_success {D : Type}
    (operation : IAdapter -> W -> (E + AdapterResult.t D) * W)
    (s : t) (w w' : W) (h : list (event E))
    (current : AdapterType.t) (state : AdapterState)
    (v : AdapterResult.t D) (fallbackToPlaywright retryOnFailure : bool) :
  currentAdapter s = Some current ->
  adapters s !! current = Some state ->
  operation (adapter state) w = (inr v, w') ->
  AdapterResult.success v = false ->
  (1 <= (if retryOnFailure then retryAttempts (config s) else 1))%Z ->
  execute healthCheck now operation fallbackToPlaywright retryOnFailure
    {| engine := s; world := w; history := h |}
  = (inr v, {| engine := recordSuccess current s; world := w';
               history := h ++ [Call (adapter state) None] |})
  /\ adapters (recordSuccess current s) !! current
     = Some {| adapter := adapter state; healthy := true;
               lastHealthCheck := lastHealthCheck state;
               consecutiveFailures := 0 |}.
Proof.
  intros Hcur Hst Hop _ Hmax. split; [|apply recordSuccess_lookup, Hst].
  unfold execute. run.
  destruct (Z.to_nat _) as [|fuel] eqn:Hfuel; [lia|].
  cbn [loop].
  destruct (Z.ltb_spec 0 (if retryOnFailure then retryAttempts (config s) else 1));
    [|lia].
  run. unfold getCurrentAdapter. rewrite Hcur, Hst. cbn. rewrite Hop. cbn.
  rewrite Hcur. reflexivity.
Qed.

(** C7 (as amended). What [forceAdapter] does, case by case: an identity
    that is not in the map is refused with [Unknown adapter type]; a handle
    whose cached [healthy] flag is true is made current at once, with no
    probe; a handle flagged unhealthy is probed exactly once, and then the
    switch happens if the probe reports healthy, and otherwise the call fails
    with [Adapter <type> is not healthy] and leaves [currentAdapter] as it
    was. *)
Theorem forceAdapter_cases (adapterType : AdapterType.t) (st : St W E) :
  match adapters (engine st) !! adapterType with
  | None =>
      forceAdapter healthCheck now adapterType st
      = (inl (Error ("Unknown adapter type: " ++ AdapterType.to_string adapterType)), st)
  | Some state =>
      if healthy state then
        forceAdapter healthCheck now adapterType st
        = (inr tt, {| engine := set_currentAdapter (Some adapterType) (engine st);
                      world := world st; history := history st |})
      else
        exists s',
          forceAdapter healthCheck now adapterType st
          = (if HealthCheckResult.healthy (fst (healthCheck (adapter state) (world st)))
             then inr tt
             else inl (Error ("Adapter " ++ AdapterType.to_string adapterType
                                ++ " is not healthy")),
             {| engine := s';
                world := snd (healthCheck (adapter state) (world st));
                history := history st ++
                  [Probe (adapter state)
                     (HealthCheckResult.healthy
                        (fst (healthCheck (adapter state) (world st))))] |})
          /\ currentAdapter s'
             = (if HealthCheckResult.healthy (fst (healthCheck (adapter state) (world st)))
                then Some adapterType
                else currentAdapter (engine st))
  end.
Proof.
  destruct st as [s w h]. cbn [engine world history].
  destruct (adapters s !! adapterType) as [state|] eqn:Hst.
  - destruct (healthy state) eqn:Hh.
    + run. rewrite Hst. cbn. rewrite Hh. reflexivity.
    + run. rewrite Hst. cbn. rewrite Hh. cbn. rewrite Hst. cbn.
      destruct (healthCheck (adapter state) w) as [result w'] eqn:Hhc. cbn.
      destruct (HealthCheckResult.healthy result) eqn:Hr;
        eexists; (split; [reflexivity|reflexivity]).
  - run. rewrite Hst. reflexivity.
Qed.

(** ** What the engine appends to the history *)

Lemma bind_inv {S A B : Type} (m : M (S:=S) A) (k : A -> M B) (s s' : S) (b : B) :
  bind m k s = (b, s') -> exists a s1, m s = (a, s1) /\ k a s1 = (b, s').
Proof. unfold bind. destruct (m s) as [a s1]. eauto. Qed.

Lemma failures_app (l1 l2 : list (event E)) :
  failures (l1 ++ l2) = failures l1 ++ failures l2.
Proof.
  induction l1 as [|[] l1 IH]; cbn; rewrite ?IH; reflexivity.
Qed.

(** A computation is quiet when all it does to the history is to append
    events that are not failed attempts. *)
Definition quiet {A} (m : M (S:=St W E) A) : Prop :=
  forall st, exists evs,
    history (snd (m st)) = history st ++ evs /\ failures evs = [].

Lemma quiet_ret {A} (a : A) : quiet (ret a).
Proof. intros st. exists []. cbn. rewrite app_nil_r. auto. Qed.

Lemma quiet_bind {A B} (m : M A) (k : A -> M B) :
  quiet m -> (forall a, quiet (k a)) -> quiet (bind m k).
Proof.
  intros Hm Hk st. unfold bind.
  destruct (Hm st) as (e1 & H1 & F1).
  destruct (m st) as [a st1]. cbn in H1.
  destruct (Hk a st1) as (e2 & H2 & F2).
  exists (e1 ++ e2). rewrite H2, H1, app_assoc, failures_app, F1, F2. auto.
Qed.

Lemma quiet_this : quiet this.
Proof. intros st. exists []. cbn. rewrite app_nil_r. auto. Qed.

Lemma quiet_on_engine (f : t -> t) : quiet (on_engine f).
Proof. intros st. exists []. cbn. rewrite app_nil_r. auto. Qed.

Lemma quiet_in_world {A} (f : W -> A * W) : quiet (in_world f).
Proof.
  intros st. exists []. unfold in_world. destruct (f (world st)). cbn.
  rewrite app_nil_r. auto.
Qed.

Lemma quiet_emit_call (a : IAdapter) (r : option E) : quiet (emit (Call a r)).
Proof. intros st. exists [Call a r]. cbn. auto. Qed.

Lemma quiet_emit_probe (a : IAdapter) (b : bool) : quiet (emit (Probe a b)).
Proof. intros st. exists [Probe a b]. cbn. auto. Qed.

Local Ltac quiet_step :=
  first [ apply quiet_ret | apply quiet_this | apply quiet_on_engine
        | apply quiet_in_world | apply quiet_emit_call | apply quiet_emit_probe
        | apply quiet_bind; [|intros ?] ].

Lemma quiet_checkAdapterHealth (ty : AdapterType.t) :
  quiet (checkAdapterHealth healthCheck now ty).
Proof.
  unfold checkAdapterHealth. apply quiet_bind; [apply quiet_this|]. intros s.
  destruct (adapters s !! ty); repeat quiet_step.
Qed.

Lemma quiet_recover (candidates : list AdapterType.t) :
  quiet (recover healthCheck now candidates).
Proof.
  induction candidates as [|ty rest IH]; cbn [recover]; [apply quiet_ret|].
  apply quiet_bind; [apply quiet_checkAdapterHealth|]. intros r.
  destruct (HealthCheckResult.healthy r); [apply quiet_ret|apply IH].
Qed.

Lemma quiet_selectBestAdapter : quiet (selectBestAdapter healthCheck now).
Proof.
  unfold selectBestAdapter. apply quiet_bind; [apply quiet_this|]. intros s.
  destruct (firstHealthy s _); [repeat quiet_step|].
  apply quiet_bind; [apply quiet_recover|]. intros [ty|]; repeat quiet_step.
Qed.

Section ExecuteFacts.

Context {T : Type}.
Variable operation : IAdapter -> W -> (E + T) * W.

Lemma quiet_call (a : IAdapter) : quiet (call operation a).
Proof.
  unfold call. apply quiet_bind; [apply quiet_in_world|]. intros r.
  repeat quiet_step.
Qed.

Lemma quiet_fallback (fb : bool) : quiet (fallback operation fb).
Proof.
  unfold fallback. apply quiet_bind; [apply quiet_this|]. intros s.
  destruct (fb && _); [|apply quiet_ret].
  destruct (adapters s !! AdapterType.PLAYWRIGHT) as [ps|]; [|apply quiet_ret].
  destruct (healthy ps); [|apply quiet_ret].
  apply quiet_bind; [apply quiet_call|]. intros [e|v]; repeat quiet_step.
Qed.

Lemma quiet_recordCurrent (record : AdapterType.t -> t -> t) :
  quiet (recordCurrent record).
Proof. apply quiet_on_engine. Qed.

(** What one [attempt] appends: nothing when no adapter can be resolved, and
    otherwise the single call it makes, whose rejection is the error it
    reports. *)
Lemma attempt_history (st : St W E) :
  match attempt operation st with
  | (inl (Rejected e), st') => exists a, history st' = history st ++ [Call a (Some e)]
  | (inl (Error _), st') => history st' = history st
  | (inr _, st') => exists a, history st' = history st ++ [Call a None]
  end.
Proof.
  unfold attempt. run. destruct (getCurrentAdapter (engine st)) as [err|a] eqn:Hg.
  - cbn. unfold getCurrentAdapter in Hg.
    destruct (currentAdapter (engine st)) as [c|]; [|injection Hg as <-; reflexivity].
    destruct (adapters (engine st) !! c); [discriminate|].
    injection Hg as <-. reflexivity.
  - destruct (operation a (world st)) as [[e|v] w']; cbn; eauto.
Qed.

(** The loop, seen from the history.  Whatever the operation does, the loop
    only appends; and when it throws, either the budget was already used up
    on entry and nothing happened, or the failed attempts it logged are
    numbered from [attempts + 1] to [max] and the error thrown is that of the
    last one. *)
Lemma loop_history (fuel : nat) (fb : bool) (attempts max : Z) (st : St W E) :
  fuel = Z.to_nat (max - attempts) ->
  exists evs,
    history (snd (loop healthCheck now operation fuel fb attempts max st))
    = history st ++ evs
    /\ match fst (loop healthCheck now operation fuel fb attempts max st) with
       | inr _ => True
       | inl err =>
           if (attempts <? max)%Z then
             map fst (failures evs) = seqZ (attempts + 1) (max - attempts)
             /\ surfaced evs max err
           else evs = [] /\ err = Error "Operation failed after retries"
       end.
Proof.
  revert attempts st. induction fuel as [|fuel IH]; intros attempts st Hfuel.
  - cbn [loop]. exists []. cbn. rewrite app_nil_r. split; [reflexivity|].
    destruct (Z.ltb_spec attempts max); [lia|auto].
  - destruct (loop healthCheck now operation (S fuel) fb attempts max st)
      as [r st'] eqn:Hloop.
    cbn [fst snd]. cbn [loop] in Hloop.
    destruct (Z.ltb_spec attempts max) as [Hlt|]; [|lia].
    apply bind_inv in Hloop as ([error|v] & st1 & Hatt & Hloop).
    + (* the attempt failed *)
      assert (Hpre : exists pre, history st1 = history st ++ pre
                /\ failures pre = []
                /\ match error with
                   | Rejected e => exists pre' a, pre = pre' ++ [Call a (Some e)]
                   | Error _ => True
                   end).
      { pose proof (attempt_history st) as Hh. rewrite Hatt in Hh.
        destruct error as [e|m].
        - destruct Hh as [a Ha]. exists [Call a (Some e)].
          repeat split; [exact Ha|]. exists [], a. reflexivity.
        - exists []. rewrite app_nil_r. auto. }
      destruct Hpre as (pre & Hpre & Fpre & Hcall).
      apply bind_inv in Hloop as ([] & st2 & Hemit & Hloop).
      apply bind_inv in Hloop as ([] & st3 & Hrec & Hloop).
      apply bind_inv in Hloop as (fbres & st4 & Hfb & Hloop).
      assert (H2 : history st2 = history st1 ++ [AttemptFailed (attempts + 1) max error]).
      { unfold emit, modify in Hemit. injection Hemit as <-. reflexivity. }
      assert (H3 : history st3 = history st2).
      { unfold recordCurrent, on_engine, modify in Hrec.
        injection Hrec as <-. reflexivity. }
      destruct (quiet_fallback fb st3) as (efb & H4 & Ffb).
      rewrite Hfb in H4. cbn [snd] in H4.
      destruct fbres as [v|].
      * injection Hloop as <- <-. eexists. split; [|exact I].
        rewrite H4, H3, H2, Hpre. rewrite <- !app_assoc. reflexivity.
      * apply bind_inv in Hloop as (ty & st5 & Hsel & Hloop).
        destruct (quiet_selectBestAdapter st4) as (esel & H5 & Fsel).
        rewrite Hsel in H5. cbn [snd] in H5.
        assert (Hh5 : history st5
                      = history st ++ pre ++ AttemptFailed (attempts + 1) max error
                                       :: (efb ++ esel)).
        { rewrite H5, H4, H3, H2, Hpre. rewrite <- !app_assoc. reflexivity. }
        destruct (Z.leb_spec max (attempts + 1)) as [Hlast|Hmore].
        -- (* the budget is used up: the error is rethrown *)
           assert (attempts + 1 = max)%Z as Hmax by lia.
           injection Hloop as <- <-.
           eexists. split; [exact Hh5|]. split.
           ++ rewrite failures_app. cbn. rewrite Fpre, failures_app, Ffb, Fsel. cbn.
              replace (max - attempts)%Z with 1%Z by lia. rewrite Hmax. reflexivity.
           ++ exists pre, (efb ++ esel). rewrite Hmax. repeat split; [|exact Hcall].
              rewrite failures_app, Ffb, Fsel. reflexivity.
        -- (* another iteration *)
           destruct (IH (attempts + 1)%Z st5 ltac:(lia)) as (evs & Hevs & Hres).
           rewrite Hloop in Hevs, Hres. cbn [fst snd] in Hevs, Hres.
           exists (pre ++ AttemptFailed (attempts + 1) max error :: (efb ++ esel) ++ evs).
           split.
           { rewrite Hevs, Hh5. rewrite <- !app_assoc. cbn. rewrite <- !app_assoc.
             reflexivity. }
           destruct r as [err|]; [|exact I].
           destruct (Z.ltb_spec (attempts + 1) max); [|lia].
           destruct Hres as (Hnum & Hsurf).
           split.
           ++ rewrite failures_app. cbn. rewrite Fpre, !failures_app, Ffb, Fsel. cbn.
              rewrite Hnum. rewrite (seqZ_cons (attempts + 1)) by lia.
              f_equal. f_equal; lia.
           ++ destruct Hsurf as (pre2 & post2 & -> & Fpost & Hcall2).
              exists (pre ++ AttemptFailed (attempts + 1) max error
                        :: (efb ++ esel) ++ pre2), post2.
              repeat split.
              ** rewrite <- !app_assoc. cbn. rewrite <- !app_assoc. reflexivity.
              ** exact Fpost.
              ** destruct err as [e|m]; [|exact I].
                 destruct Hcall2 as (pre' & a & ->).
                 exists (pre ++ AttemptFailed (attempts + 1) max error
                           :: (efb ++ esel) ++ pre'), a.
                 rewrite <- !app_assoc. cbn. rewrite <- !app_assoc. reflexivity.
    + (* the attempt resolved *)
      pose proof (attempt_history st) as Hh. rewrite Hatt in Hh.
      destruct Hh as [a Ha].
      apply bind_inv in Hloop as ([] & st2 & Hrec & Hloop).
      injection Hloop as <- <-.
      unfold recordCurrent, on_engine, modify in Hrec. injection Hrec as <-.
      exists [Call a None]. split; [exact Ha|exact I].
Qed.

(** With an operation that rejects on every adapter, in every world, no
    attempt and no fallback can resolve, so the loop can only throw. *)
Section AlwaysRejects.

Hypothesis always_rejects : forall a w, exists e, fst (operation a w) = inl e.

Lemma attempt_rejects (st : St W E) :
  exists err, fst (attempt operation st) = inl err.
Proof using always_rejects.
  unfold attempt. run. destruct (getCurrentAdapter (engine st)) as [err|a]; cbn; eauto.
  destruct (always_rejects a (world st)) as [e He].
  destruct (operation a (world st)) as [r w']. cbn in He. subst r. cbn. eauto.
Qed.

Lemma fallback_none (fb : bool) (st : St W E) :
  fst (fallback operation fb st) = None.
Proof using always_rejects.
  unfold fallback. run. destruct (fb && _); [|reflexivity].
  destruct (adapters (engine st) !! AdapterType.PLAYWRIGHT) as [ps|]; [|reflexivity].
  destruct (healthy ps); [|reflexivity].
  destruct (always_rejects (adapter ps) (world st)) as [e He].
  destruct (operation (adapter ps) (world st)) as [r w']. cbn in He. subst r.
  reflexivity.
Qed.

Lemma loop_rejects (fuel : nat) (fb : bool) (attempts max : Z) (st : St W E) :
  exists err, fst (loop healthCheck now operation fuel fb attempts max st) = inl err.
Proof using always_rejects.
  revert attempts st. induction fuel as [|fuel IH]; intros attempts st.
  - cbn. eauto.
  - cbn [loop]. destruct (attempts <? max)%Z; [|cbn; eauto].
    unfold bind at 1. destruct (attempt_rejects st) as [error Herr].
    destruct (attempt operation st) as [r st1]. cbn in Herr. subst r.
    unfold bind at 1. cbn [emit modify]. unfold bind at 1.
    destruct (recordCurrent recordFailure _) as [[] st3].
    unfold bind at 1. pose proof (fallback_none fb st3) as Hfb.
    destruct (fallback operation fb st3) as [fbres st4]. cbn in Hfb. subst fbres.
    unfold bind at 1. destruct (selectBestAdapter healthCheck now st4) as [ty st5].
    destruct (max <=? attempts + 1)%Z; [cbn; eauto|apply IH].
Qed.

End AlwaysRejects.

(** The first thing [execute] does when an adapter is selected and the
    budget allows one attempt is to call the operation on that adapter. *)
Lemma execute_first_call (fb retry : bool) (st : St W E) (a : IAdapter) :
  getCurrentAdapter (E:=E) (engine st) = inr a ->
  (1 <= maxAttempts (engine st) retry)%Z ->
  exists rest,
    history (snd (execute healthCheck now operation fb retry st))
    = history st ++ Call a (rejection (fst (operation a (world st)))) :: rest
    /\ (forall v, fst (operation a (world st)) = inr v ->
        fst (execute healthCheck now operation fb retry st) = inr v /\ rest = []).
Proof.
  intros Hcur Hmax. unfold maxAttempts in Hmax.
  destruct (execute healthCheck now operation fb retry st) as [r st'] eqn:Hloop.
  unfold execute in Hloop.
  apply bind_inv in Hloop as (s0 & st0 & Hthis & Hloop).
  unfold this in Hthis. injection Hthis as <- <-.
  set (max := if retry then retryAttempts (config (engine st)) else 1%Z) in *.
  destruct (Z.to_nat max) as [|fuel] eqn:Hfuel; [lia|].
  cbn [fst snd]. cbn [loop] in Hloop.
  destruct (Z.ltb_spec 0 max); [|lia].
  apply bind_inv in Hloop as (r1 & st1 & Hatt & Hloop).
  unfold attempt in Hatt. unfold bind at 1 in Hatt. cbn [this] in Hatt.
  rewrite Hcur in Hatt. unfold call, in_world, emit, modify, bind, ret in Hatt.
  destruct (operation a (world st)) as [[e|v] w'] eqn:Hop; cbn in Hatt;
    injection Hatt as <- <-; cbn [fst rejection].
  - apply bind_inv in Hloop as ([] & st2 & Hemit & Hloop).
    apply bind_inv in Hloop as ([] & st3 & Hrec & Hloop).
    apply bind_inv in Hloop as (fbres & st4 & Hfb & Hloop).
    unfold emit, modify in Hemit. injection Hemit as <-.
    unfold recordCurrent, on_engine, modify in Hrec. injection Hrec as <-.
    match type of Hfb with fallback _ _ ?st3 = _ =>
      destruct (quiet_fallback fb st3) as (efb & H4 & _) end.
    rewrite Hfb in H4. cbn [snd history] in H4.
    destruct fbres as [v|].
    + injection Hloop as <- <-. eexists. split; [|discriminate].
      rewrite H4, <- !app_assoc. reflexivity.
    + apply bind_inv in Hloop as (ty & st5 & Hsel & Hloop).
      destruct (quiet_selectBestAdapter st4) as (esel & H5 & _).
      rewrite Hsel in H5. cbn [snd] in H5.
      destruct (max <=? 0 + 1)%Z.
      * injection Hloop as <- <-. eexists. split; [|discriminate].
        rewrite H5, H4, <- !app_assoc. reflexivity.
      * destruct (loop_history fuel fb (0 + 1) max st5 ltac:(lia)) as (evs & H6 & _).
        rewrite Hloop in H6. cbn [snd] in H6.
        eexists. split; [|discriminate].
        rewrite H6, H5, H4, <- !app_assoc. reflexivity.
  - apply bind_inv in Hloop as ([] & st2 & Hrec & Hloop).
    injection Hloop as <- <-.
    unfold recordCurrent, on_engine, modify in Hrec. injection Hrec as <-.
    exists []. split; [reflexivity|]. intros v' [= <-]. auto.
Qed.

(** [execute], seen from the history: [loop_history] from [attempts = 0]. *)
Lemma execute_history (fb retry : bool) (st : St W E) :
  exists evs,
    history (snd (execute healthCheck now operation fb retry st)) = history st ++ evs
    /\ match fst (execute healthCheck now operation fb retry st) with
       | inr _ => True
       | inl err =>
           if (0 <? maxAttempts (engine st) retry)%Z then
             map fst (failures evs) = seqZ 1 (maxAttempts (engine st) retry)
             /\ surfaced evs (maxAttempts (engine st) retry) err
           else evs = [] /\ err = Error "Operation failed after retries"
       end.
Proof.
  unfold maxAttempts.
  destruct (execute healthCheck now operation fb retry st) as [r st'] eqn:Hex.
  unfold execute in Hex.
  apply bind_inv in Hex as (s0 & st0 & Hthis & Hloop).
  unfold this in Hthis. injection Hthis as <- <-.
  set (max := if retry then retryAttempts (config (engine st)) else 1%Z) in *.
  destruct (loop_history (Z.to_nat max) fb 0 max st) as (evs & Hevs & Hres).
  { f_equal. lia. }
  rewrite Hloop in Hevs, Hres. cbn [fst snd] in *.
  exists evs. split; [exact Hevs|].
  destruct r as [err|]; [|exact I].
  replace (max - 0)%Z with max in Hres by lia. exact Hres.
Qed.

End ExecuteFacts.


(** C4 (as amended). Auto-mode selection.  In mode Auto, with the HTTP handle
    flagged unhealthy and the Playwright handle flagged healthy,
    [selectBestAdapter] returns Playwright and makes it the current adapter,
    without probing.  An [execute] that runs after this selection calls the
    operation on the Playwright handle's adapter first, and returns its value
    at once when it resolves.  ([execute] itself does not select: it uses
    the current adapter, whatever the health flags say.) *)
Theorem auto_mode_selects_playwright {T : Type}
    (operation : IAdapter -> W -> (E + T) * W)
    (fallbackToPlaywright retryOnFailure : bool) (st : St W E)
    (httpState playwrightState : AdapterState) :
  mode (config (engine st)) = StrategyMode.AUTO ->
  adapters (engine st) !! AdapterType.HTTP = Some httpState ->
  healthy httpState = false ->
  adapters (engine st) !! AdapterType.PLAYWRIGHT = Some playwrightState ->
  healthy playwrightState = true ->
  (1 <= maxAttempts (engine st) retryOnFailure)%Z ->
  let selected := selectBestAdapter healthCheck now st in
  selected = (AdapterType.PLAYWRIGHT,
              {| engine := set_currentAdapter (Some AdapterType.PLAYWRIGHT) (engine st);
                 world := world st; history := history st |})
  /\ exists rest,
       history (snd (execute healthCheck now operation
                       fallbackToPlaywright retryOnFailure (snd selected)))
       = history st
           ++ Call (adapter playwrightState)
                (rejection (fst (operation (adapter playwrightState) (world st))))
           :: rest
       /\ (forall v, fst (operation (adapter playwrightState) (world st)) = inr v ->
           fst (execute healthCheck now operation
                  fallbackToPlaywright retryOnFailure (snd selected)) = inr v
           /\ rest = []).
Proof.
  intros Hmode Hhttp Hdown Hpw Hup Hmax selected.
  assert (Hsel : selected
                 = (AdapterType.PLAYWRIGHT,
                    {| engine := set_currentAdapter (Some AdapterType.PLAYWRIGHT) (engine st);
                       world := world st; history := history st |})).
  { subst selected. run. rewrite Hmode. cbn. rewrite Hhttp, Hdown, Hpw, Hup.
    reflexivity. }
  split; [exact Hsel|]. rewrite Hsel. cbn [snd].
  apply (execute_first_call operation fallbackToPlaywright retryOnFailure
           {| engine := set_currentAdapter (Some AdapterType.PLAYWRIGHT) (engine st);
              world := world st; history := history st |}
           (adapter playwrightState)).
  - unfold getCurrentAdapter. cbn. rewrite Hpw. reflexivity.
  - exact Hmax.
Qed.

End WithWorld.

End EngineFacts.

(** * Properties of the default batch publish *)

Module AdapterFacts.
Import BaseAdapter.

Section WithAdapter.

Context {W PublishOptions : Type}.
Variable publishResource :
  string -> option PublishOptions -> W -> AdapterResult.t PublishResult.t * W.

Lemma answers_length (ids : list string) (options : option PublishOptions) (w : W) :
  List.length (answers publishResource ids options w) = List.length ids.
Proof.
  revert w. induction ids as [|id ids IH]; intros w; cbn; [reflexivity|].
  destruct (publishResource id options w) as [r w']. cbn. rewrite IH. reflexivity.
Qed.

(** The loop, from any accumulators: every item adds its entry, and an error
    message exactly when its answer does not count as published. *)
Lemma publishEach_spec (ids : list string) (options : option PublishOptions)
    (results : list PublishResult.t) (errors : list string) (w : W) :
  exists errors' w',
    publishEach publishResource ids options results errors w
    = (results ++ zip_with entry ids (answers publishResource ids options w),
       errors ++ errors', w')
    /\ (List.length errors' =? 0)%nat
       = forallb (fun r => isSome (published r))
           (answers publishResource ids options w).
Proof.
  revert results errors w. induction ids as [|id ids IH]; intros results errors w.
  - exists [], w. cbn. rewrite !app_nil_r. auto.
  - cbn [publishEach answers].
    destruct (publishResource id options w) as [r w1]. cbn [zip_with forallb].
    destruct (published r) as [d|] eqn:Hp.
    + destruct (IH (results ++ [d]) errors w1) as (errors' & w' & Heq & Hlen).
      exists errors', w'. rewrite Heq. split.
      * rewrite <- app_assoc. cbn. unfold entry at 2. rewrite Hp. reflexivity.
      * rewrite Hlen. reflexivity.
    + destruct (IH (results ++ [entry id r])
                  (errors ++ [or_else (AdapterResult.error r)
                                ("Failed to publish resource " ++ id)]) w1)
        as (errors' & w' & Heq & Hlen).
      eexists (_ :: errors'), w'. rewrite Heq. split.
      * rewrite <- !app_assoc. reflexivity.
      * reflexivity.
Qed.

(** The batch result in terms of the per-item answers. *)
Lemma publishResources_spec (ids : list string) (options : option PublishOptions) (w : W) :
  AdapterResult.data (fst (publishResources publishResource ids options w))
  = Some (zip_with entry ids (answers publishResource ids options w))
  /\ AdapterResult.success (fst (publishResources publishResource ids options w))
     = forallb (fun r => isSome (published r))
         (answers publishResource ids options w).
Proof.
  unfold publishResources.
  destruct (publishEach_spec ids options [] [] w) as (errors' & w' & Heq & Hlen).
  rewrite Heq. cbn. auto.
Qed.


End WithAdapter.

End AdapterFacts.

(** * Properties of the encodings *)

Module BufferFacts.
Import Js Buffer.
Local Open Scope N_scope.

Local Ltac Zify.zify_post_hook ::= Z.to_euclidean_division_equations.

Lemma to_N_byte_of_N (n : N) : Byte.to_N (byte_of_N n) = n mod 256.
Proof.
  unfold byte_of_N. destruct (Byte.of_N (n mod 256)) as [b|] eqn:Hb.
  - apply Byte.to_of_N in Hb. exact Hb.
  - apply Byte.of_N_None_iff in Hb. lia.
Qed.

Lemma byte_of_N_to_N (b : byte) : byte_of_N (Byte.to_N b) = b.
Proof.
  unfold byte_of_N. pose proof (Byte.to_N_bounded b).
  rewrite N.mod_small by lia. rewrite Byte.of_to_N. reflexivity.
Qed.

Lemma map_to_N_byte_of_N (l : list N) :
  Forall (fun n => n < 256) l -> map Byte.to_N (map byte_of_N l) = l.
Proof.
  induction 1 as [|n l Hn _ IH]; cbn; [reflexivity|].
  rewrite to_N_byte_of_N, N.mod_small, IH by exact Hn. reflexivity.
Qed.

Lemma map_byte_of_N_to_N (buf : list byte) :
  map byte_of_N (map Byte.to_N buf) = buf.
Proof.
  induction buf as [|b buf IH]; cbn; [reflexivity|].
  rewrite byte_of_N_to_N, IH. reflexivity.
Qed.

Lemma map_to_N_bounded (buf : list byte) :
  Forall (fun n => n < 256) (map Byte.to_N buf).
Proof.
  induction buf as [|b buf IH]; cbn; constructor; [|exact IH].
  pose proof (Byte.to_N_bounded b). lia.
Qed.

(** ** Hexadecimal *)

Lemma hex_value_digit (n : N) : n < 16 -> hex_value (hex_digit n) = Some n.
Proof.
  intros Hn. unfold hex_value, hex_digit.
  destruct (N.ltb_spec n 10).
  - replace ((48 <=? 48 + n) && (48 + n <=? 57)) with true.
    + f_equal. lia.
    + symmetry. apply andb_true_intro. split; apply N.leb_le; lia.
  - replace ((48 <=? 87 + n) && (87 + n <=? 57)) with false.
    + replace ((97 <=? 87 + n) && (87 + n <=? 102)) with true.
      * f_equal. lia.
      * symmetry. apply andb_true_intro. split; apply N.leb_le; lia.
    + symmetry. apply andb_false_intro2. apply N.leb_gt. lia.
Qed.

(** [Buffer.from(buf.toString('hex'), 'hex')] gives [buf] back. *)
Lemma from_hex_toString_hex (buf : list byte) : from_hex (toString_hex buf) = buf.
Proof.
  induction buf as [|b buf IH]; [reflexivity|].
  cbn [toString_hex flat_map app from_hex]. fold (toString_hex buf).
  pose proof (Byte.to_N_bounded b) as Hb.
  rewrite !hex_value_digit by lia.
  rewrite IH. f_equal.
  replace (16 * (Byte.to_N b / 16) + Byte.to_N b mod 16) with (Byte.to_N b) by lia.
  apply byte_of_N_to_N.
Qed.

(** ** Base64 *)

(** A check of all the numbers below a bound, by enumeration. *)
Lemma forall_below (n : nat) (P : N -> bool) :
  forallb P (map N.of_nat (seq 0 n)) = true ->
  forall v, v < N.of_nat n -> P v = true.
Proof.
  intros Hall v Hv. rewrite forallb_forall in Hall. apply Hall.
  apply in_map_iff. exists (N.to_nat v). split; [lia|].
  apply in_seq. lia.
Qed.

Lemma base64_value_char (v : N) :
  v < 64 -> base64_value (base64_char v) = Some v /\ base64_char v <> 61.
Proof.
  intros Hv.
  pose proof (forall_below 64
    (fun v => match base64_value (base64_char v) with
              | Some w => (w =? v) && negb (base64_char v =? 61)
              | None => false
              end) eq_refl v Hv) as Hcheck.
  cbn beta in Hcheck.
  destruct (base64_value (base64_char v)) as [w|]; [|discriminate].
  apply andb_prop in Hcheck as [Hw Hc].
  apply N.eqb_eq in Hw. apply negb_true_iff, N.eqb_neq in Hc. subst w. auto.
Qed.

Lemma base64_values_chars (vs : list N) (pad : list N) :
  Forall (fun v => v < 64) vs ->
  (pad = [] \/ exists rest, pad = 61 :: rest) ->
  base64_values (map base64_char vs ++ pad) = vs.
Proof.
  intros Hvs Hpad. induction Hvs as [|v vs Hv _ IH]; cbn.
  - destruct Hpad as [->|[rest ->]]; reflexivity.
  - destruct (base64_value_char v Hv) as [Hval Hne].
    destruct (N.eqb_spec (base64_char v) 61); [contradiction|].
    rewrite Hval, IH. reflexivity.
Qed.

Lemma sextets_bounded (buf : list N) :
  Forall (fun n => n < 256) buf -> Forall (fun v => v < 64) (sextets buf).
Proof.
  revert buf. fix IH 1. intros [|b0 [|b1 [|b2 rest]]] Hb; cbn.
  - constructor.
  - inversion_clear Hb. repeat constructor; lia.
  - inversion_clear Hb as [|? ? H0 Hb']. inversion_clear Hb'.
    repeat constructor; lia.
  - inversion_clear Hb as [|? ? H0 Hb']. inversion_clear Hb' as [|? ? H1 Hb''].
    inversion_clear Hb'' as [|? ? H2 Hrest].
    repeat (constructor; [lia|]). apply IH, Hrest.
Qed.

Lemma octets_sextets (buf : list N) :
  Forall (fun n => n < 256) buf -> octets (sextets buf) = buf.
Proof.
  revert buf. fix IH 1. intros [|b0 [|b1 [|b2 rest]]] Hb; cbn.
  - reflexivity.
  - inversion_clear Hb. f_equal. lia.
  - inversion_clear Hb as [|? ? H0 Hb']. inversion_clear Hb'.
    f_equal; [lia|]. f_equal. lia.
  - inversion_clear Hb as [|? ? H0 Hb']. inversion_clear Hb' as [|? ? H1 Hb''].
    inversion_clear Hb'' as [|? ? H2 Hrest].
    rewrite (IH rest Hrest). f_equal; [lia|]. f_equal; [lia|]. f_equal. lia.
Qed.

Lemma padding_shape (n : nat) : padding n = [] \/ exists rest, padding n = 61 :: rest.
Proof.
  unfold padding. destruct (n mod 3)%nat as [|[|[|]]]; eauto.
Qed.

(** [Buffer.from(buf.toString('base64'), 'base64')] gives [buf] back. *)
Lemma from_base64_toString_base64 (buf : list byte) :
  from_base64 (toString_base64 buf) = buf.
Proof.
  unfold from_base64, toString_base64.
  rewrite base64_values_chars.
  - rewrite octets_sextets by apply map_to_N_bounded. apply map_byte_of_N_to_N.
  - apply sextets_bounded, map_to_N_bounded.
  - apply padding_shape.
Qed.

(** ** UTF-8 *)

(** The base-64 digits of a code point, as the encoder computes them. *)
Lemma digits2 (cp : N) :
  exists d1 d0, d0 < 64 /\ cp = d1 * 64 + d0 /\ cp / 64 = d1 /\ cp mod 64 = d0.
Proof. exists (cp / 64), (cp mod 64). lia. Qed.

Lemma digits3 (cp : N) :
  exists d2 d1 d0,
    d1 < 64 /\ d0 < 64 /\ cp = d2 * 4096 + d1 * 64 + d0
    /\ cp / 4096 = d2 /\ (cp / 64) mod 64 = d1 /\ cp mod 64 = d0.
Proof. exists (cp / 4096), ((cp / 64) mod 64), (cp mod 64). lia. Qed.

Lemma digits4 (cp : N) :
  exists d3 d2 d1 d0,
    d2 < 64 /\ d1 < 64 /\ d0 < 64 /\ cp = d3 * 262144 + d2 * 4096 + d1 * 64 + d0
    /\ cp / 262144 = d3 /\ (cp / 4096) mod 64 = d2
    /\ (cp / 64) mod 64 = d1 /\ cp mod 64 = d0.
Proof.
  exists (cp / 262144), ((cp / 4096) mod 64), ((cp / 64) mod 64), (cp mod 64). lia.
Qed.

(** What the decoder keeps of a lead byte and of a continuation byte. *)
Lemma payload (base m d : N) :
  m <> 0 -> base mod m = 0 -> d < m -> (base + d) mod m = d.
Proof.
  intros Hm Hbase Hd. rewrite N.Div0.add_mod by exact Hm.
  rewrite Hbase, N.add_0_l, N.Div0.mod_mod, N.mod_small by assumption. reflexivity.
Qed.

Lemma surrogates (h l : N) :
  0xD800 <= h < 0xDC00 -> 0xDC00 <= l < 0xE000 ->
  units (0x10000 + (h - 0xD800) * 0x400 + (l - 0xDC00)) = [h; l].
Proof.
  intros Hh Hl. unfold units.
  replace (_ <? 0x10000) with false by (symmetry; apply N.ltb_ge; lia).
  f_equal; [lia|]. f_equal. lia.
Qed.

Local Ltac test_true :=
  match goal with
  | |- context [?a <=? ?b] =>
      replace (a <=? b) with true by (symmetry; apply N.leb_le; lia)
  | |- context [?a <? ?b] =>
      replace (a <? b) with true by (symmetry; apply N.ltb_lt; lia)
  end.
Local Ltac test_false :=
  match goal with
  | |- context [?a <=? ?b] =>
      replace (a <=? b) with false by (symmetry; apply N.leb_gt; lia)
  | |- context [?a <? ?b] =>
      replace (a <? b) with false by (symmetry; apply N.ltb_ge; lia)
  end.
Local Ltac tests := repeat first [test_true | test_false]; cbn [andb orb negb].
Local Ltac split_eqb :=
  repeat match goal with
         | |- context [?a =? ?b] => destruct (N.eqb_spec a b)
         end.

Lemma decode_cons (d : decoder) (b : N) (rest : list N) :
  decode d (b :: rest) = (let (out, d') := step d b in out ++ decode d' rest).
Proof. reflexivity. Qed.

Local Ltac read_lead m :=
  rewrite decode_cons; unfold step at 1; cbn [needed start]; unfold lead; tests;
  rewrite (payload _ m) by (reflexivity || lia); cbn [app].
Local Ltac read_continuation :=
  rewrite decode_cons; unfold step at 1; cbn [needed lower upper code_point];
  split_eqb; tests; rewrite (payload 128 64) by (reflexivity || lia); cbn [app].

(** The bytes of a code point that is not a surrogate decode to its units. *)
Lemma decode_utf8_bytes (cp : N) (tail : list N) :
  cp < 0x110000 -> (cp < 0xD800 \/ 0xE000 <= cp) ->
  decode start (utf8_bytes cp ++ tail) = units cp ++ decode start tail.
Proof.
  intros Hmax Hscalar. unfold utf8_bytes.
  destruct (N.ltb_spec cp 0x80); [|destruct (N.ltb_spec cp 0x800);
    [|destruct (N.ltb_spec cp 0x10000)]]; cbn [app].
  - rewrite decode_cons; unfold step at 1; cbn [needed start]; unfold lead; tests.
    unfold units. tests. reflexivity.
  - destruct (digits2 cp) as (d1 & d0 & ? & Hcp & -> & ->).
    read_lead 32. read_continuation. unfold units. tests. cbn [app]. f_equal. lia.
  - destruct (digits3 cp) as (d2 & d1 & d0 & ? & ? & Hcp & -> & -> & ->).
    read_lead 16. read_continuation; read_continuation; unfold units; tests; cbn [app];
      f_equal; lia.
  - destruct (digits4 cp) as (d3 & d2 & d1 & d0 & ? & ? & ? & Hcp & -> & -> & -> & ->).
    read_lead 8. read_continuation; read_continuation; read_continuation.
    all: f_equal; f_equal; lia.
Qed.

Lemma utf8_bytes_bounded (cp : N) :
  cp < 0x110000 -> Forall (fun n => n < 256) (utf8_bytes cp).
Proof.
  intros Hmax. unfold utf8_bytes.
  destruct (N.ltb_spec cp 0x80); [|destruct (N.ltb_spec cp 0x800);
    [|destruct (N.ltb_spec cp 0x10000)]].
  - repeat constructor; lia.
  - destruct (digits2 cp) as (d1 & d0 & ? & Hcp & -> & ->). repeat constructor; lia.
  - destruct (digits3 cp) as (d2 & d1 & d0 & ? & ? & Hcp & -> & -> & ->).
    repeat constructor; lia.
  - destruct (digits4 cp) as (d3 & d2 & d1 & d0 & ? & ? & ? & Hcp & -> & -> & -> & ->).
    repeat constructor; lia.
Qed.

Lemma is_high_range (u : N) : is_high u = true -> 0xD800 <= u < 0xDC00.
Proof.
  unfold is_high. intros [H1 H2]%andb_prop.
  apply N.leb_le in H1. apply N.ltb_lt in H2. lia.
Qed.

Lemma is_low_range (u : N) : is_low u = true -> 0xDC00 <= u < 0xE000.
Proof.
  unfold is_low. intros [H1 H2]%andb_prop.
  apply N.leb_le in H1. apply N.ltb_lt in H2. lia.
Qed.

Lemma not_surrogate (u : N) :
  is_high u = false -> is_low u = false -> u < 0xD800 \/ 0xE000 <= u.
Proof.
  unfold is_high, is_low. intros H1 H2.
  destruct (N.leb_spec 0xD800 u); [|lia].
  destruct (N.ltb_spec u 0xDC00); [discriminate|].
  destruct (N.leb_spec 0xDC00 u); [|lia].
  destruct (N.ltb_spec u 0xE000); [discriminate|]. lia.
Qed.

(** The UTF-8 bytes of a well-formed string are bytes, and they decode to
    the string. *)
Lemma decode_utf8_values :
  forall s, isWellFormed s = true ->
    decode start (utf8_values s) = s /\ Forall (fun n => n < 256) (utf8_values s).
Proof.
  fix IH 1. intros [|u rest] Hwf; cbn [utf8_values isWellFormed] in *.
  - split; [reflexivity|constructor].
  - destruct (is_high u) eqn:Hhigh.
    + destruct rest as [|l rest']; [discriminate|].
      apply andb_prop in Hwf as [Hlow Hrest]. rewrite Hlow.
      apply is_high_range in Hhigh. apply is_low_range in Hlow.
      destruct (IH rest' Hrest) as [Hd Hb]. split.
      * rewrite decode_utf8_bytes by lia. rewrite surrogates, Hd by lia. reflexivity.
      * apply Forall_app. split; [apply utf8_bytes_bounded; lia|exact Hb].
    + apply andb_prop in Hwf as [Hwf Hrest]. apply andb_prop in Hwf as [Hlow Hbmp].
      apply negb_true_iff in Hlow. rewrite Hlow. apply N.ltb_lt in Hbmp.
      destruct (IH rest Hrest) as [Hd Hb]. split.
      * rewrite decode_utf8_bytes by (lia || (apply not_surrogate; assumption)).
        rewrite Hd. unfold units.
        replace (u <? 0x10000) with true by (symmetry; apply N.ltb_lt; lia).
        reflexivity.
      * apply Forall_app. split; [apply utf8_bytes_bounded; lia|exact Hb].
Qed.

(** [Buffer.from(s, 'utf8').toString('utf8')] gives a well-formed [s] back. *)
Lemma toString_utf8_from_utf8 (s : list N) :
  isWellFormed s = true -> toString_utf8 (from_utf8 s) = s.
Proof.
  intros Hwf. destruct (decode_utf8_values s Hwf) as [Hd Hb].
  unfold toString_utf8, from_utf8. rewrite map_to_N_byte_of_N by exact Hb.
  exact Hd.
Qed.

(** An unpaired surrogate does not survive: it is written as U+FFFD. *)
Example unpaired_surrogate_is_replaced :
  from_utf8 [0xD800] = [xef; xbf; xbd]
  /\ toString_utf8 (from_utf8 [0xD800]) = [0xFFFD].
Proof. split; reflexivity. Qed.

Example utf8_samples :
  from_utf8 [0x41; 0xE9; 0x20AC; 0xD83D; 0xDE00]
  = [x41; xc3; xa9; xe2; x82; xac; xf0; x9f; x98; x80]
  /\ toString_utf8 [xf0; x9f; x41; xc0; x80; xed; xa0; x80; xe2; x82]
     = [0xFFFD; 0x41; 0xFFFD; 0xFFFD; 0xFFFD; 0xFFFD; 0xFFFD; 0xFFFD].
Proof. split; reflexivity. Qed.

Example base64_samples :
  toString_base64 (from_utf8 (str "Man")) = str "TWFu"
  /\ toString_base64 (from_utf8 (str "Ma")) = str "TWE="
  /\ toString_base64 (from_utf8 (str "M")) = str "TQ=="
  /\ from_base64 (str "TW Fu
TQ==TWFu") = from_utf8 (str "ManM").
Proof. repeat split; reflexivity. Qed.

End BufferFacts.

(** * Properties of the login short-circuit *)

Module AuthFacts.
Import AuthManager.

Section WithFlows.

Context {W : Type}.
Variable loginByQRCode : Env W -> (string + bool) * Env W.
Variable loginByPhoneCode : Env W -> (string + bool) * Env W.
Variable saveSession : Env W -> Env W.

(** The short-circuit branch of [login], computed. *)
Lemma login_with_valid_session (method : LoginMethod.t) (st : St W) :
  SessionStorage.hasValidSession (sessionStorage (manager (env st))) (disk (env st)) = true ->
  login loginByQRCode loginByPhoneCode saveSession false method st
  = let this' :=
      match SessionStorage.loadUserInfo (sessionStorage (manager (env st))) (disk (env st)) with
      | Some saved => set_userInfo (Some saved) (manager (env st))
      | None => manager (env st)
      end in
    (succeeded this',
     {| env := {| manager := this'; disk := disk (env st); world := world (env st) |};
        started := started st |}).
Proof.
  intros Hvalid. unfold login, bind, get. rewrite Hvalid. cbn [negb andb].
  destruct (SessionStorage.loadUserInfo _ _) as [saved|]; cbn.
  - reflexivity.
  - destruct st as [[m d w] l]. reflexivity.
Qed.


End WithFlows.

End AuthFacts.

(** * Properties of the vault *)

Module CryptoFacts.
Import Js Crypto.
Local Open Scope N_scope.

Local Ltac Zify.zify_post_hook ::= Z.to_euclidean_division_equations.

(** ** Byte strings *)

Lemma to_bytes_length (n : nat) (x : N) : List.length (SHA256.to_bytes n x) = n.
Proof. induction n as [|n IH]; cbn [SHA256.to_bytes List.length]; congruence. Qed.

Lemma to_bytes_bounded (n : nat) (x : N) :
  Forall (fun b => b < 256) (SHA256.to_bytes n x).
Proof.
  induction n as [|n IH]; cbn [SHA256.to_bytes]; constructor; [|exact IH].
  apply N.mod_lt. discriminate.
Qed.

Lemma lxor_bounded (a b : N) : a < 256 -> b < 256 -> N.lxor a b < 256.
Proof.
  intros Ha Hb. destruct (N.eq_dec (N.lxor a b) 0) as [->|Hne]; [reflexivity|].
  change 256 with (2 ^ 8). apply N.log2_lt_pow2; [lia|].
  eapply N.le_lt_trans; [apply N.log2_lxor|].
  assert (forall c, c < 256 -> N.log2 c < 8) as Hlog.
  { intros c Hc. destruct (N.eq_dec c 0) as [->|]; [reflexivity|].
    apply N.log2_lt_pow2; [lia|exact Hc]. }
  apply N.max_lub_lt; apply Hlog; assumption.
Qed.

Lemma values_bounded (buf : list byte) : Forall (fun b => b < 256) (values buf).
Proof. apply BufferFacts.map_to_N_bounded. Qed.

Lemma values_bytes (vs : list N) :
  Forall (fun b => b < 256) vs -> values (bytes vs) = vs.
Proof. apply BufferFacts.map_to_N_byte_of_N. Qed.

Lemma bytes_values (buf : list byte) : bytes (values buf) = buf.
Proof. apply BufferFacts.map_byte_of_N_to_N. Qed.

Lemma zip_with_lxor_bounded (l k : list N) :
  Forall (fun b => b < 256) l -> Forall (fun b => b < 256) k ->
  Forall (fun b => b < 256) (zip_with N.lxor l k).
Proof.
  intros Hl. revert k. induction Hl as [|a l Ha _ IH]; intros k Hk; [constructor|].
  destruct Hk as [|b k Hb Hk]; cbn; constructor; [apply lxor_bounded; assumption|].
  apply IH, Hk.
Qed.

Lemma zip_with_lxor_involutive (l k : list N) :
  (List.length l <= List.length k)%nat ->
  zip_with N.lxor (zip_with N.lxor l k) k = l.
Proof.
  revert k. induction l as [|a l IH]; intros [|b k] Hlen; cbn in *; try reflexivity;
    [lia|].
  rewrite IH by lia. f_equal.
  rewrite N.lxor_assoc, N.lxor_nilpotent, N.lxor_0_r. reflexivity.
Qed.

(** ** Counter mode and the tag *)

Lemma keystream_length (keys : list (list N)) (counter : N) (count : nat) :
  List.length (GCM.keystream keys counter count) = (16 * count)%nat.
Proof.
  revert counter. induction count as [|count IH]; intros counter;
    cbn [GCM.keystream]; [reflexivity|].
  rewrite length_app, to_bytes_length, IH. lia.
Qed.

Lemma keystream_bounded (keys : list (list N)) (counter : N) (count : nat) :
  Forall (fun b => b < 256) (GCM.keystream keys counter count).
Proof.
  revert counter. induction count as [|count IH]; intros counter;
    cbn [GCM.keystream]; [constructor|].
  apply Forall_app. split; [apply to_bytes_bounded|apply IH].
Qed.

Lemma keystream_covers (keys : list (list N)) (j : N) (n : nat) :
  (n <= List.length (GCM.keystream keys (GCM.inc32 j) ((n + 15) / 16)))%nat.
Proof.
  rewrite keystream_length.
  pose proof (Nat.div_mod_eq (n + 15) 16) as Hdiv.
  pose proof (Nat.mod_upper_bound (n + 15) 16 ltac:(discriminate)) as Hmod.
  lia.
Qed.

Lemma gctr_length (keys : list (list N)) (j : N) (data : list N) :
  List.length (GCM.gctr keys j data) = List.length data.
Proof.
  unfold GCM.gctr. apply length_zip_with_l, keystream_covers.
Qed.

Lemma gctr_bounded (keys : list (list N)) (j : N) (data : list N) :
  Forall (fun b => b < 256) data -> Forall (fun b => b < 256) (GCM.gctr keys j data).
Proof.
  intros Hd. unfold GCM.gctr. apply zip_with_lxor_bounded; [exact Hd|].
  apply keystream_bounded.
Qed.

(** Counter mode is its own inverse. *)
Lemma gctr_involutive (keys : list (list N)) (j : N) (data : list N) :
  GCM.gctr keys j (GCM.gctr keys j data) = data.
Proof.
  unfold GCM.gctr at 1. rewrite gctr_length. unfold GCM.gctr.
  apply zip_with_lxor_involutive, keystream_covers.
Qed.

Lemma tag_length (keys : list (list N)) (h j : N) (ciphertext : list N) :
  List.length (GCM.tag keys h j ciphertext) = 16%nat.
Proof. apply to_bytes_length. Qed.

Lemma tag_bounded (keys : list (list N)) (h j : N) (ciphertext : list N) :
  Forall (fun b => b < 256) (GCM.tag keys h j ciphertext).
Proof. apply to_bytes_bounded. Qed.

(** What was sealed under a key and a vector opens under them. *)
Lemma open_seal (key iv plaintext : list N) :
  GCM.open key iv (snd (GCM.seal key iv plaintext)) (fst (GCM.seal key iv plaintext))
  = Some plaintext.
Proof.
  unfold GCM.open, GCM.verifies, GCM.seal. cbn [fst snd].
  rewrite firstn_all. rewrite bool_decide_true by reflexivity.
  rewrite gctr_involutive. reflexivity.
Qed.

(** ** The lengths of digests and derived keys *)

Lemma chunks_length {A} (size count : nat) (l : list A) :
  List.length (SHA256.chunks size count l) = count.
Proof.
  revert l. induction count as [|count IH]; intros l; cbn; [reflexivity|].
  rewrite IH. reflexivity.
Qed.

Lemma flat_map_length {A B} (f : A -> list B) (n : nat) (l : list A) :
  (forall x, List.length (f x) = n) ->
  List.length (flat_map f l) = (n * List.length l)%nat.
Proof.
  intros Hf. induction l as [|x l IH]; cbn; [lia|].
  rewrite length_app, Hf, IH. lia.
Qed.

(** A state of the compression: eight working words, and a window of
    sixteen schedule words. *)
Definition shaped (state : list N * list N) : Prop :=
  List.length (fst state) = 8%nat /\ List.length (snd state) = 16%nat.

Lemma round_shaped (state : list N * list N) (k : N) :
  shaped state -> shaped (SHA256.round state k).
Proof.
  destruct state as [working window]. intros [Hw Hs]. cbn [fst snd] in *.
  destruct working as [|a [|b [|c [|d [|e [|f [|g [|h [|]]]]]]]]]; try discriminate.
  destruct window as [|w0 window]; [discriminate|].
  unfold SHA256.round, shaped. cbn [fst snd List.length] in *.
  rewrite length_app. cbn [List.length]. lia.
Qed.

Lemma rounds_shaped (ks : list N) (state : list N * list N) :
  shaped state -> shaped (fold_left SHA256.round ks state).
Proof.
  revert state. induction ks as [|k ks IH]; intros state Hs; cbn [fold_left];
    [exact Hs|].
  apply IH, round_shaped, Hs.
Qed.

Lemma compress_length (hash block : list N) :
  List.length hash = 8%nat -> List.length (SHA256.compress hash block) = 8%nat.
Proof.
  intros Hh. unfold SHA256.compress.
  destruct (rounds_shaped SHA256.K (hash, map SHA256.of_bytes (SHA256.chunks 4 16 block)))
    as [Hw _].
  { split; cbn [fst snd]; [exact Hh|]. rewrite length_map. apply chunks_length. }
  rewrite length_zip_with, Hh, Hw. reflexivity.
Qed.

Lemma digest_length (message : list N) : List.length (SHA256.digest message) = 32%nat.
Proof.
  unfold SHA256.digest.
  rewrite (flat_map_length _ 4) by (intros; apply to_bytes_length).
  assert (forall blocks hash, List.length hash = 8%nat ->
            List.length (fold_left SHA256.compress blocks hash) = 8%nat) as Hfold.
  { induction blocks as [|block blocks IH]; intros hash Hh; cbn [fold_left];
      [exact Hh|]. apply IH, compress_length, Hh. }
  rewrite Hfold by reflexivity. reflexivity.
Qed.

Lemma hmac_length (block message : list N) :
  List.length (HMAC.of_block block message) = 32%nat.
Proof. apply digest_length. Qed.

Lemma F_length (block salt : list N) (iterations i : N) :
  List.length (PBKDF2.F block salt iterations i) = 32%nat.
Proof.
  unfold PBKDF2.F.
  set (P := fun ut : list N * list N =>
              List.length (fst ut) = 32%nat /\ List.length (snd ut) = 32%nat).
  assert (HP : P (N.iter (iterations - 1)
                    (fun '(u, t) =>
                       let u' := HMAC.of_block block u in (u', zip_with N.lxor t u'))
                    (HMAC.of_block block (salt ++ SHA256.to_bytes 4 i),
                     HMAC.of_block block (salt ++ SHA256.to_bytes 4 i)))).
  { apply N.iter_invariant.
    - intros [u t] [Hu Ht]. cbn [fst snd] in *. split; cbn [fst snd].
      + apply hmac_length.
      + rewrite length_zip_with, Ht, hmac_length. reflexivity.
    - split; apply hmac_length. }
  exact (proj2 HP).
Qed.

Lemma pbkdf2_length (block salt : list N) (iterations : N) :
  List.length (PBKDF2.of_block block salt iterations 32) = 32%nat.
Proof.
  unfold PBKDF2.of_block. change ((32 + 31) / 32)%nat with 1%nat.
  cbn [PBKDF2.blocks]. rewrite app_nil_r.
  rewrite firstn_all2 by (rewrite F_length; lia). apply F_length.
Qed.

Lemma deriveKey_length (password : list N) (salt : list byte) :
  List.length (CryptoUtil.deriveKey password salt) = 32%nat.
Proof.
  unfold CryptoUtil.deriveKey, pbkdf2Sync, bytes, PBKDF2.hmac_sha256.
  rewrite length_map. apply pbkdf2_length.
Qed.

(** ** A passphrase and the same passphrase followed by a zero byte *)

(** HMAC fills a short key up with zero bytes, so a zero byte at the end of
    a key of fewer than 64 bytes changes nothing. *)
Lemma key_block_zero (key : list N) :
  (List.length key < 64)%nat -> HMAC.key_block (key ++ [0]) = HMAC.key_block key.
Proof.
  intros Hlen. unfold HMAC.key_block. rewrite length_app. cbn [List.length].
  destruct (Nat.ltb_spec 64 (List.length key + 1)); [lia|].
  destruct (Nat.ltb_spec 64 (List.length key)); [lia|].
  rewrite length_app. cbn [List.length]. rewrite <- app_assoc. f_equal.
  replace (64 - List.length key)%nat with (S (64 - (List.length key + 1)))%nat by lia.
  reflexivity.
Qed.

(** ** [encrypt] and [decrypt] *)

Import CryptoUtil.

Lemma randomBytes_length (size : nat) (random : nat -> byte) :
  List.length (fst (randomBytes size random)) = size.
Proof. unfold randomBytes. cbn [fst]. rewrite length_map. apply length_seq. Qed.

Lemma verifies_seal (key iv plaintext : list N) :
  GCM.verifies key iv (snd (GCM.seal key iv plaintext)) (fst (GCM.seal key iv plaintext))
  = true.
Proof.
  unfold GCM.verifies, GCM.seal. cbn [fst snd].
  rewrite firstn_all. apply bool_decide_eq_true. reflexivity.
Qed.

Lemma gctr_seal (key iv plaintext : list N) :
  GCM.gctr (AES256.round_keys key)
    (GCM.j0 (AES256.cipher (AES256.round_keys key) 0) iv)
    (fst (GCM.seal key iv plaintext))
  = plaintext.
Proof. unfold GCM.seal. cbn [fst]. apply gctr_involutive. Qed.

(** [encrypt] does not throw, and this is the blob it returns. *)
Lemma encrypt_blob (data password : list N) (random : nat -> byte) :
  fst (CryptoUtil.encrypt data password random) = inr (blob_of data password random).
Proof.
  unfold blob_of, CryptoUtil.encrypt, sealed, salt_of, iv_of.
  destruct (randomBytes CryptoUtil.SALT_LENGTH random) as [salt random1] eqn:Hsalt.
  cbn [fst snd]. destruct (randomBytes CryptoUtil.IV_LENGTH random1) as [iv random2] eqn:Hiv.
  cbn [fst snd].
  assert (Hlen : List.length iv = 16%nat).
  { pose proof (randomBytes_length CryptoUtil.IV_LENGTH random1) as H.
    rewrite Hiv in H. exact H. }
  unfold cipher. rewrite deriveKey_length, Hlen.
  change (negb (32 =? 32)%nat) with false. change (16 =? 0)%nat with false.
  cbv iota.
  match goal with |- context [GCM.seal ?k ?i ?p] => generalize (GCM.seal k i p) end. intros [ciphertext tag]. cbn [fst snd].
  rewrite BufferFacts.from_hex_toString_hex. reflexivity.
Qed.
Lemma take_exact {A} (n : nat) (l k : list A) :
  List.length l = n -> firstn n (l ++ k) = l.
Proof. intros <-. apply take_app_length. Qed.

Lemma drop_exact {A} (n : nat) (l k : list A) :
  List.length l = n -> skipn n (l ++ k) = k.
Proof. intros <-. apply drop_app_length. Qed.

(** The four parts [decrypt] cuts a blob into. *)
Lemma blob_parts (salt iv tag ciphertext : list byte) :
  List.length salt = 64%nat -> List.length iv = 16%nat -> List.length tag = 16%nat ->
  CryptoUtil.subarray 0 CryptoUtil.SALT_LENGTH (salt ++ iv ++ tag ++ ciphertext) = salt
  /\ CryptoUtil.subarray CryptoUtil.SALT_LENGTH
       (CryptoUtil.SALT_LENGTH + CryptoUtil.IV_LENGTH) (salt ++ iv ++ tag ++ ciphertext)
     = iv
  /\ CryptoUtil.subarray (CryptoUtil.SALT_LENGTH + CryptoUtil.IV_LENGTH)
       (CryptoUtil.SALT_LENGTH + CryptoUtil.IV_LENGTH + CryptoUtil.TAG_LENGTH)
       (salt ++ iv ++ tag ++ ciphertext)
     = tag
  /\ skipn (CryptoUtil.SALT_LENGTH + CryptoUtil.IV_LENGTH + CryptoUtil.TAG_LENGTH)
       (salt ++ iv ++ tag ++ ciphertext)
     = ciphertext.
Proof.
  intros Hsalt Hiv Htag.
  unfold CryptoUtil.subarray, CryptoUtil.SALT_LENGTH, CryptoUtil.IV_LENGTH,
    CryptoUtil.TAG_LENGTH.
  change (64 - 0)%nat with 64%nat. change (64 + 16 - 64)%nat with 16%nat.
  change (64 + 16 + 16 - (64 + 16))%nat with 16%nat.
  change (skipn 0 (salt ++ iv ++ tag ++ ciphertext)) with (salt ++ iv ++ tag ++ ciphertext).
  assert (H1 : skipn 64 (salt ++ iv ++ tag ++ ciphertext) = iv ++ tag ++ ciphertext)
    by (apply drop_exact, Hsalt).
  assert (H2 : skipn (64 + 16) (salt ++ iv ++ tag ++ ciphertext) = tag ++ ciphertext).
  { rewrite <- (drop_drop (salt ++ iv ++ tag ++ ciphertext) 16 64), H1.
    apply drop_exact, Hiv. }
  assert (H3 : skipn (64 + 16 + 16) (salt ++ iv ++ tag ++ ciphertext) = ciphertext).
  { rewrite <- (drop_drop (salt ++ iv ++ tag ++ ciphertext) 16 (64 + 16)), H2.
    apply drop_exact, Htag. }
  rewrite H1, H2, H3.
  repeat split; apply take_exact; assumption.
Qed.

(** [decrypt] on a blob with a 64-byte salt, a 16-byte vector and a 16-byte
    tag: the tag decides. *)
Lemma decrypt_blob (salt iv tag ciphertext : list byte) (password : list N) :
  List.length salt = 64%nat -> List.length iv = 16%nat -> List.length tag = 16%nat ->
  CryptoUtil.decrypt (Buffer.toString_base64 (salt ++ iv ++ tag ++ ciphertext)) password
  = if GCM.verifies (values (CryptoUtil.deriveKey password salt)) (values iv)
         (values tag) (values ciphertext)
    then
      let keys := AES256.round_keys (values (CryptoUtil.deriveKey password salt)) in
      inr (Buffer.toString_utf8
             (bytes (GCM.gctr keys (GCM.j0 (AES256.cipher keys 0) (values iv))
                       (values ciphertext))))
    else inl "Failed to decrypt data - invalid password or corrupted data".
Proof.
  intros Hsalt Hiv Htag. unfold CryptoUtil.decrypt.
  rewrite BufferFacts.from_base64_toString_base64.
  destruct (blob_parts salt iv tag ciphertext Hsalt Hiv Htag) as (-> & -> & -> & ->).
  unfold decipher. rewrite deriveKey_length, Hiv, Htag.
  change (negb (32 =? 32)%nat) with false. change (16 =? 0)%nat with false.
  change (negb (valid_tag_length 16)) with false. cbv iota.
  unfold GCM.open.
  match goal with |- context [GCM.verifies ?k ?i ?t ?c] =>
    generalize (GCM.verifies k i t c) end.
  intros [|]; reflexivity.
Qed.

(** The blob of [encrypt], decrypted with a passphrase that derives the
    same key from its salt, gives the data as UTF-8 writes and reads them. *)
Lemma decrypt_encrypt (data password password' : list N) (random : nat -> byte) :
  CryptoUtil.deriveKey password' (salt_of random)
  = CryptoUtil.deriveKey password (salt_of random) ->
  CryptoUtil.decrypt (blob_of data password random) password'
  = inr (Buffer.toString_utf8 (Buffer.from_utf8 data)).
Proof.
  intros Hkey. unfold blob_of.
  rewrite (decrypt_blob (salt_of random) (iv_of random)
             (bytes (snd (sealed data password random)))
             (bytes (fst (sealed data password random))) password').
  - rewrite Hkey. unfold sealed.
    set (key := values (CryptoUtil.deriveKey password (salt_of random))).
    set (iv := values (iv_of random)).
    set (plaintext := values (Buffer.from_utf8 data)).
    assert (Hct : values (bytes (fst (GCM.seal key iv plaintext)))
                  = fst (GCM.seal key iv plaintext)).
    { apply values_bytes. unfold GCM.seal. cbn [fst].
      apply gctr_bounded, values_bounded. }
    assert (Htag : values (bytes (snd (GCM.seal key iv plaintext)))
                   = snd (GCM.seal key iv plaintext)).
    { apply values_bytes. unfold GCM.seal. cbn [snd]. apply tag_bounded. }
    rewrite Hct, Htag.
    clearbody key iv.
    rewrite verifies_seal. cbv zeta. rewrite gctr_seal.
    subst plaintext. rewrite bytes_values. reflexivity.
  - apply randomBytes_length.
  - apply randomBytes_length.
  - unfold bytes. rewrite length_map. unfold sealed, GCM.seal. cbn [snd].
    apply tag_length.
Qed.

(** The blob of [encrypt] decodes to 96 bytes and the ciphertext, which is
    as long as the UTF-8 bytes of the data. *)
Lemma blob_length (data password : list N) (random : nat -> byte) :
  List.length (Buffer.from_base64 (blob_of data password random))
  = (96 + List.length (Buffer.from_utf8 data))%nat.
Proof.
  unfold blob_of.
  rewrite BufferFacts.from_base64_toString_base64.
  rewrite !length_app. unfold salt_of, iv_of. rewrite !randomBytes_length.
  unfold bytes. rewrite !length_map. unfold sealed, GCM.seal. cbn [fst snd].
  rewrite tag_length, gctr_length. unfold values. rewrite length_map.
  reflexivity.
Qed.

End CryptoFacts.

(** * The engine and the batch publish on concrete worlds *)

Module ScenarioFacts.
Import StrategyEngine Scenario.

Example started_on_http : currentAdapter (engine started) = Some AdapterType.HTTP.
Proof. reflexivity. Qed.

Example http_found_down_state :
  mode (config (engine http_found_down)) = StrategyMode.AUTO
  /\ currentAdapter (engine http_found_down) = Some AdapterType.HTTP
  /\ adapters (engine http_found_down) !! AdapterType.HTTP
     = Some {| adapter := httpAdapter; healthy := false;
               lastHealthCheck := 0; consecutiveFailures := 3 |}
  /\ adapters (engine http_found_down) !! AdapterType.PLAYWRIGHT
     = Some {| adapter := playwrightAdapter; healthy := true;
               lastHealthCheck := 0; consecutiveFailures := 0 |}.
Proof. vm_compute. auto. Qed.


Example retry_exhaustion_history :
  history (snd (execute (probe all_up) clock rejects true true started))
  = [ Call httpAdapter (Some "http"); AttemptFailed 1 3 (Rejected "http");
      Call playwrightAdapter (Some "playwright");
      Call httpAdapter (Some "http"); AttemptFailed 2 3 (Rejected "http");
      Call playwrightAdapter (Some "playwright");
      Call httpAdapter (Some "http"); AttemptFailed 3 3 (Rejected "http");
      Call playwrightAdapter (Some "playwright") ].
Proof. vm_compute. reflexivity. Qed.


(** C4, the claim as stated fails.  The engine was initialised (HTTP
    selected), then three health checks found HTTP down: the mode is Auto,
    the HTTP handle is unhealthy, the Playwright handle is healthy.  The next
    [execute] runs the operation on the HTTP adapter, which is still the
    current one, and returns what it resolved with; Playwright is not
    called. *)
Lemma execute_does_not_route_to_playwright :
  mode (config (engine http_found_down)) = StrategyMode.AUTO
  /\ (healthy <$> adapters (engine http_found_down) !! AdapterType.HTTP) = Some false
  /\ (healthy <$> adapters (engine http_found_down) !! AdapterType.PLAYWRIGHT) = Some true
  /\ fst (execute (probe http_down) clock resolves true true http_found_down)
     = inr "http"
  /\ history (snd (execute (probe http_down) clock resolves true true http_found_down))
     = history http_found_down ++ [Call httpAdapter None].
Proof. vm_compute. auto 6. Qed.

Lemma auto_mode_selects_playwright_witness :
  let selected := selectBestAdapter (probe http_down) clock http_found_down in
  selected = (AdapterType.PLAYWRIGHT,
              {| engine := set_currentAdapter (Some AdapterType.PLAYWRIGHT)
                             (engine http_found_down);
                 world := world http_found_down; history := history http_found_down |})
  /\ exists rest,
       history (snd (execute (probe http_down) clock resolves true true (snd selected)))
       = history http_found_down
           ++ Call playwrightAdapter (rejection (fst (resolves playwrightAdapter tt)))
           :: rest
       /\ (forall v, fst (resolves playwrightAdapter tt) = inr v ->
           fst (execute (probe http_down) clock resolves true true (snd selected)) = inr v
           /\ rest = []).
Proof.
  apply (EngineFacts.auto_mode_selects_playwright (probe http_down) clock resolves
           true true http_found_down
           {| adapter := httpAdapter; healthy := false;
              lastHealthCheck := 0; consecutiveFailures := 3 |}
           {| adapter := playwrightAdapter; healthy := true;
              lastHealthCheck := 0; consecutiveFailures := 0 |});
    vm_compute; congruence.
Defined.

(** C7, the claim as stated fails.  On a fresh engine the HTTP handle is
    flagged healthy; a probe of the HTTP adapter would report it unhealthy.
    [forceAdapter(HTTP)] does not probe, does not fail, and makes HTTP the
    current adapter. *)
Lemma forceAdapter_switches_without_probing :
  HealthCheckResult.healthy (fst (probe all_down httpAdapter tt)) = false
  /\ currentAdapter (engine fresh) = None
  /\ fst (forceAdapter (probe all_down) clock AdapterType.HTTP fresh) = inr tt
  /\ history (snd (forceAdapter (probe all_down) clock AdapterType.HTTP fresh)) = []
  /\ currentAdapter (engine (snd (forceAdapter (probe all_down) clock AdapterType.HTTP fresh)))
     = Some AdapterType.HTTP.
Proof. vm_compute. auto 6. Qed.

(** The other side of C7: once the handle is flagged unhealthy, the probe
    decides. *)
Example forceAdapter_refuses_after_probe :
  fst (forceAdapter (probe http_down) clock AdapterType.HTTP http_found_down)
  = inl (Error "Adapter http is not healthy")
  /\ history (snd (forceAdapter (probe http_down) clock AdapterType.HTTP http_found_down))
     = history http_found_down ++ [Probe httpAdapter false].
Proof. vm_compute. auto. Qed.

Lemma value_failure_is_recorded_as_success_witness :
  execute (probe all_up) clock resolves_with_failure true true
    {| engine := engine http_found_down; world := tt; history := [] |}
  = (inr (BaseAdapter.failure "Publish button not found" None),
     {| engine := recordSuccess AdapterType.HTTP (engine http_found_down); world := tt;
        history := [] ++ [Call httpAdapter None] |})
  /\ adapters (recordSuccess AdapterType.HTTP (engine http_found_down)) !! AdapterType.HTTP
     = Some {| adapter := httpAdapter; healthy := true;
               lastHealthCheck := 0; consecutiveFailures := 0 |}.
Proof.
  apply (EngineFacts.value_failure_is_recorded_as_success (probe all_up) clock
           resolves_with_failure (engine http_found_down) tt tt []
           AdapterType.HTTP
           {| adapter := httpAdapter; healthy := false;
              lastHealthCheck := 0; consecutiveFailures := 3 |}
           (BaseAdapter.failure "Publish button not found" None) true true);
    vm_compute; congruence.
Defined.


Example batch_publish_error_message :
  AdapterResult.error (fst (BaseAdapter.publishResources publish_all_but_b ["a"; "b"; "c"] None tt))
  = Some "Publish button not found".
Proof. reflexivity. Qed.

Example user_info_is_read :
  SessionStorage.loadUserInfo store disk_with_session
  = Some {| SessionStorage.userId := JSON.JString (Js.str "u-42");
            SessionStorage.userName := JSON.JString (Js.str "Ann") |}.
Proof. vm_compute. reflexivity. Qed.



(** Without a saved session the flow is started. *)
Example login_without_session_starts_the_flow :
  AuthManager.started
    (snd (AuthManager.login flow_times_out flow_times_out save_nothing
            false LoginMethod.QR_CODE (at_login ∅)))
  = [LoginMethod.QR_CODE].
Proof. vm_compute. reflexivity. Qed.

End ScenarioFacts.
(** ** The vault: [encrypt], [decrypt], [verifyIntegrity] and
    [TokenStorage.load] *)

Module VaultFacts.
Import Js Crypto CryptoUtil CryptoFacts VaultScenario.
Local Open Scope N_scope.

(** PBKDF2 sees a passphrase through the key block of HMAC only: a
    passphrase whose UTF-8 bytes are those of another, shorter than 64, with
    a zero byte added derives the same key from every salt. *)
Lemma deriveKey_zero (password password' : list N) (salt : list byte) :
  values (Buffer.from_utf8 password') = values (Buffer.from_utf8 password) ++ [0] ->
  (List.length (Buffer.from_utf8 password) < 64)%nat ->
  deriveKey password' salt = deriveKey password salt.
Proof.
  intros Hbytes Hlen. unfold deriveKey, pbkdf2Sync, PBKDF2.hmac_sha256.
  rewrite Hbytes, key_block_zero; [reflexivity|].
  unfold values. rewrite length_map. exact Hlen.
Qed.

Lemma passphrase_nul_key (salt : list byte) :
  deriveKey passphrase_nul salt = deriveKey passphrase salt.
Proof. apply deriveKey_zero; [reflexivity | vm_compute; lia]. Qed.


(** *** What [decrypt] does with a blob of [encrypt] *)

Lemma sealed_values (data password : list N) (random : nat -> byte) :
  values (bytes (fst (sealed data password random))) = fst (sealed data password random)
  /\ values (bytes (snd (sealed data password random))) = snd (sealed data password random)
  /\ List.length (snd (sealed data password random)) = 16%nat.
Proof.
  unfold sealed, GCM.seal. cbn [fst snd]. split; [|split].
  - apply values_bytes, gctr_bounded, values_bounded.
  - apply values_bytes, tag_bounded.
  - apply tag_length.
Qed.

Lemma decrypt_rejects (data password password' : list N) (random : nat -> byte) :
  tag_verifies data password password' random = false ->
  decrypt (blob_of data password random) password' = inl "Failed to decrypt data - invalid password or corrupted data".
Proof.
  intros Htag. destruct (sealed_values data password random) as (Hct & Ht & Hlen).
  unfold blob_of.
  rewrite (decrypt_blob (salt_of random) (iv_of random)
             (bytes (snd (sealed data password random)))
             (bytes (fst (sealed data password random))) password').
  - rewrite Hct, Ht. unfold tag_verifies in Htag. rewrite Htag. reflexivity.
  - apply randomBytes_length.
  - apply randomBytes_length.
  - unfold bytes. rewrite length_map. exact Hlen.
Qed.


(** *** A corrupted tag *)

Lemma lxor_1_differs (n : N) : N.lxor 1 n <> n.
Proof.
  intros H. assert (H0 : N.lxor (N.lxor 1 n) n = 0) by (rewrite H; apply N.lxor_nilpotent).
  rewrite N.lxor_assoc, N.lxor_nilpotent in H0. discriminate H0.
Qed.

(** Turning a bit of the first byte of a tag over gives another tag of the
    same length. *)
Lemma corrupt_tag (t : list N) :
  Forall (fun b => b < 256) t -> t <> [] ->
  values (corrupt 0 (bytes t)) <> t
  /\ List.length (values (corrupt 0 (bytes t))) = List.length t.
Proof.
  intros Hb Hne. destruct t as [|t0 rest]; [congruence|].
  inversion Hb as [|? ? Ht0 Hrest]; subst.
  assert (Hv : values (corrupt 0 (bytes (t0 :: rest))) = N.lxor 1 t0 :: rest).
  { unfold corrupt, bytes. cbn [map alter list_alter]. unfold values. cbn [map].
    unfold flip. rewrite !BufferFacts.to_N_byte_of_N.
    rewrite (N.mod_small t0) by exact Ht0.
    rewrite N.mod_small by (apply lxor_bounded; [lia | exact Ht0]).
    f_equal. apply (values_bytes rest Hrest). }
  rewrite Hv. split; [|reflexivity].
  intros H. injection H as H. exact (lxor_1_differs t0 H).
Qed.

Lemma verifies_corrupt (key iv ciphertext : list N) :
  GCM.verifies key iv
    (values (corrupt 0 (bytes (snd (GCM.seal key iv ciphertext)))))
    (fst (GCM.seal key iv ciphertext)) = false.
Proof.
  unfold GCM.verifies, GCM.seal. cbn [fst snd]. cbv zeta.
  match goal with |- context [GCM.tag ?k ?h ?j ?c] =>
    pose proof (tag_length k h j c) as Hlen;
    pose proof (tag_bounded k h j c) as Hb;
    generalize dependent (GCM.tag k h j c)
  end.
  intros t Hlen Hb.
  destruct (corrupt_tag t Hb) as [Hne Hl].
  { intros ->. discriminate Hlen. }
  rewrite Hl, firstn_all. apply bool_decide_eq_false. congruence.
Qed.

(** The byte at offset 80 of a blob is the first of its tag. *)
Lemma corrupt_blob (salt iv tag ciphertext : list byte) :
  List.length salt = 64%nat -> List.length iv = 16%nat ->
  List.length tag = 16%nat ->
  corrupt 80 (salt ++ iv ++ tag ++ ciphertext)
  = salt ++ iv ++ corrupt 0 tag ++ ciphertext.
Proof.
  intros Hsalt Hiv Htag. unfold corrupt.
  change 80%nat with (64 + (16 + 0))%nat.
  rewrite <- Hsalt at 1. rewrite alter_app_r.
  rewrite <- Hiv at 1. rewrite alter_app_r.
  destruct tag as [|t0 tag]; [discriminate Htag | reflexivity].
Qed.


(** [decrypt] refuses a blob of [encrypt] whose tag was corrupted, under the
    passphrase it was made with. *)
Lemma decrypt_tampered (data password : list N) (random : nat -> byte) :
  decrypt (tampered 80 data password random) password = inl "Failed to decrypt data - invalid password or corrupted data".
Proof.
  destruct (sealed_values data password random) as (Hct & Ht & Hlen).
  assert (Htag : List.length (bytes (snd (sealed data password random))) = 16%nat).
  { unfold bytes. rewrite length_map. exact Hlen. }
  unfold tampered, blob_of. rewrite BufferFacts.from_base64_toString_base64.
  rewrite corrupt_blob by (apply randomBytes_length || exact Htag).
  rewrite (decrypt_blob (salt_of random) (iv_of random)
             (corrupt 0 (bytes (snd (sealed data password random))))
             (bytes (fst (sealed data password random))) password).
  - rewrite Hct. unfold sealed. rewrite verifies_corrupt. reflexivity.
  - apply randomBytes_length.
  - apply randomBytes_length.
  - unfold corrupt. rewrite length_alter. exact Htag.
Qed.

(** *** The length check *)

Lemma verifyIntegrity_length (encryptedData : list N) :
  verifyIntegrity encryptedData = true
  <-> (96 <= List.length (Buffer.from_base64 encryptedData))%nat.
Proof.
  unfold verifyIntegrity. cbv zeta.
  change (SALT_LENGTH + IV_LENGTH + TAG_LENGTH)%nat with 96%nat.
  destruct (Nat.ltb_spec (List.length (Buffer.from_base64 encryptedData)) 96);
    split; intros; (lia || congruence).
Qed.

Lemma verifyIntegrity_tampered (i : nat) (data password : list N) (random : nat -> byte) :
  verifyIntegrity (tampered i data password random) = true.
Proof.
  apply verifyIntegrity_length. unfold tampered.
  rewrite BufferFacts.from_base64_toString_base64. unfold corrupt.
  rewrite length_alter, blob_length. lia.
Qed.

(** *** Base64 text is well formed *)

Lemma ascii_isWellFormed (s : list N) :
  Forall (fun c => c < 0x80) s -> isWellFormed s = true.
Proof.
  induction 1 as [|c s Hc _ IH]; [reflexivity|].
  cbn [isWellFormed]. unfold is_high, is_low.
  destruct (N.leb_spec 0xD800 c); [lia|].
  destruct (N.leb_spec 0xDC00 c); [lia|].
  destruct (N.ltb_spec c 0x10000); [|lia].
  exact IH.
Qed.

Lemma base64_char_ascii (v : N) : Buffer.base64_char v < 0x80.
Proof.
  unfold Buffer.base64_char.
  destruct (N.ltb_spec v 26); [lia|].
  destruct (N.ltb_spec v 52); [lia|].
  destruct (N.ltb_spec v 62); [lia|].
  destruct (v =? 62); lia.
Qed.

Lemma toString_base64_isWellFormed (buf : list byte) :
  isWellFormed (Buffer.toString_base64 buf) = true.
Proof.
  apply ascii_isWellFormed. unfold Buffer.toString_base64.
  apply Forall_app. split.
  - apply Forall_map, Forall_forall. intros v _. apply base64_char_ascii.
  - unfold Buffer.padding.
    destruct (List.length buf mod 3)%nat as [|[|[|?]]]; repeat constructor.
Qed.


(** *** The round trip *)





(** *** [TokenStorage.load] *)

Import TokenStorage.

Lemma readFileSync_exists (path : string) (disk : gmap string Fs.node) (text : list N) :
  Fs.readFileSync path disk = inr text -> Fs.existsSync path disk = true.
Proof.
  unfold Fs.readFileSync, Fs.existsSync.
  destruct (disk !! path) as [[content|]|]; [reflexivity | discriminate..].
Qed.

(** C6, as the code has it. When the text of the token file passes the
    length check, [load] leaves the file where it is, whatever [decrypt]
    does with it; and it returns [null] when [decrypt] throws. *)
Theorem load_keeps_the_file_that_passes_the_length_check
    (this : TokenStorage.t) (disk : gmap string Fs.node) (encrypted : list N) :
  Fs.readFileSync (tokenFile this) disk = inr encrypted ->
  verifyIntegrity encrypted = true ->
  snd (load this disk) = disk
  /\ exists_ this (snd (load this disk)) = true
  /\ forall message,
       decrypt encrypted (password this) = inl message -> fst (load this disk) = None.
Proof.
  intros Hread Hcheck.
  pose proof (readFileSync_exists _ _ _ Hread) as Hexists.
  assert (Hload : load this disk
                  = match decrypt encrypted (password this)
                          return option JSON.value * gmap string Fs.node with
                    | inl _ => (None, disk)
                    | inr decrypted =>
                        match JSON.parse decrypted with
                        | None => (None, disk)
                        | Some tokenData =>
                            match JSON.get tokenData (str "userId") with
                            | None => (None, disk)
                            | Some _ => (Some tokenData, disk)
                            end
                        end
                    end).
  { unfold load, exists_. rewrite Hexists, Hread, Hcheck. reflexivity. }
  assert (Hdisk : snd (load this disk) = disk).
  { rewrite Hload. destruct (decrypt encrypted (password this)) as [|decrypted];
      [reflexivity|].
    destruct (JSON.parse decrypted) as [tokenData|]; [|reflexivity].
    destruct (JSON.get tokenData (str "userId")); reflexivity. }
  split; [exact Hdisk|]. split.
  - rewrite Hdisk. exact Hexists.
  - intros message Hdecrypt. rewrite Hload, Hdecrypt. reflexivity.
Qed.

(** The file of the scenario reads as the tampered blob. *)
Lemma tampered_token_is_read :
  Fs.readFileSync (tokenFile storage) disk_with_tampered_token
  = inr (tampered 98 secret passphrase counting).
Proof.
  unfold Fs.readFileSync, disk_with_tampered_token. rewrite lookup_singleton_eq.
  rewrite BufferFacts.toString_utf8_from_utf8; [reflexivity|].
  apply toString_base64_isWellFormed.
Qed.

Lemma load_keeps_the_file_that_passes_the_length_check_witness :
  snd (load storage disk_with_tampered_token) = disk_with_tampered_token
  /\ exists_ storage (snd (load storage disk_with_tampered_token)) = true.
Proof.
  pose proof (load_keeps_the_file_that_passes_the_length_check
                storage disk_with_tampered_token
                (tampered 98 secret passphrase counting)
                tampered_token_is_read
                (verifyIntegrity_tampered 98 secret passphrase counting)) as H.
  exact (conj (proj1 H) (proj1 (proj2 H))).
Defined.

(** The other way out of [load]: a file that fails the length check is
    removed. *)
Lemma load_clears_the_file_that_is_too_short
    (this : TokenStorage.t) (disk : gmap string Fs.node) (encrypted : list N) :
  Fs.readFileSync (tokenFile this) disk = inr encrypted ->
  verifyIntegrity encrypted = false ->
  load this disk = (None, delete (tokenFile this) disk)
  /\ exists_ this (delete (tokenFile this) disk) = false.
Proof.
  intros Hread Hcheck.
  pose proof (readFileSync_exists _ _ _ Hread) as Hexists.
  split.
  - unfold load, clear, exists_. rewrite Hexists, Hread, Hcheck. cbn [negb].
    unfold Fs.unlinkSync. unfold Fs.readFileSync in Hread.
    destruct (disk !! tokenFile this) as [[content|]|]; [reflexivity | discriminate..].
  - unfold exists_, Fs.existsSync. rewrite lookup_delete_eq. reflexivity.
Qed.

End VaultFacts.
(** ** The primitives against published vectors *)

Module CryptoVectors.
Import Js.
Local Open Scope N_scope.

Definition hex (vs : list N) : list N := Buffer.toString_hex (Crypto.bytes vs).
Definition unhex (s : string) : list N := Crypto.values (Buffer.from_hex (str s)).

(** FIPS 180-4: the digests of [abc] and of the empty message. *)
Example sha256_abc :
  hex (SHA256.digest (str "abc"))
  = str "ba7816bf8f01cfea414140de5dae2223b00361a396177a9cb410ff61f20015ad".
Proof. vm_compute. reflexivity. Qed.

Example sha256_empty :
  hex (SHA256.digest [])
  = str "e3b0c44298fc1c149afbf4c8996fb92427ae41e4649b934ca495991b7852b855".
Proof. vm_compute. reflexivity. Qed.

Example hmac_sha256_fox :
  hex (HMAC.sha256 (str "key") (str "The quick brown fox jumps over the lazy dog"))
  = str "f7bc83f430538424b13298e6aa6fb143ef4d59a14946175997479dbc2d1a3cd8".
Proof. vm_compute. reflexivity. Qed.

(** PBKDF2 with HMAC-SHA-256, one and two iterations. *)
Example pbkdf2_one_iteration :
  hex (PBKDF2.hmac_sha256 (str "password") (str "salt") 1 32)
  = str "120fb6cffcf8b32c43e7225256c4f837a86548c92ccc35480805987cb70be17b".
Proof. vm_compute. reflexivity. Qed.

Example pbkdf2_two_iterations :
  hex (PBKDF2.hmac_sha256 (str "password") (str "salt") 2 32)
  = str "ae4d0c95af6b46d32d0adff928f06dd02a303f8ef3c251dfd6e2d85a95474c43".
Proof. vm_compute. reflexivity. Qed.

(** FIPS 197, appendix C.3. *)
Example aes256_block :
  hex (SHA256.to_bytes 16
         (AES256.encrypt_block
            (unhex "000102030405060708090a0b0c0d0e0f101112131415161718191a1b1c1d1e1f")
            (SHA256.of_bytes (unhex "00112233445566778899aabbccddeeff"))))
  = str "8ea2b7ca516745bfeafc49904b496089".
Proof. vm_compute. reflexivity. Qed.

(** The GCM specification, test cases 13 and 14. *)
Example gcm_empty :
  GCM.seal (repeat 0 32) (repeat 0 12) []
  = ([], unhex "530f8afbc74536b9a963b4f1c4cb738b").
Proof. vm_compute. reflexivity. Qed.

Example gcm_one_block :
  GCM.seal (repeat 0 32) (repeat 0 12) (repeat 0 16)
  = (unhex "cea7403d4d606b6e074ec5d3baf39d18",
     unhex "d0d1c8a799996bf0265b98b5d48ab919").
Proof. vm_compute. reflexivity. Qed.

(** A vector of 16 bytes, as [encrypt] draws it, goes through GHASH. *)
Example gcm_long_vector :
  snd (GCM.seal
         (unhex "000102030405060708090a0b0c0d0e0f101112131415161718191a1b1c1d1e1f")
         (unhex "101112131415161718191a1b1c1d1e1f")
         (str "hello world, this is a test of gcm"))
  = unhex "0007ec911e5b717eabd64060a3e4bab2".
Proof. vm_compute. reflexivity. Qed.

End CryptoVectors.
(** * More of the strategy engine *)

Module EngineMore.
Import StrategyEngine EngineFacts.

Section WithWorld.

Context {W E : Type}.
Variable healthCheck : IAdapter -> W -> HealthCheckResult.t * W.
Variable now : W -> Z.

Local Ltac run :=
  unfold forceAdapter, selectBestAdapter, checkAdapterHealth, attempt, call,
    recordCurrent, fallback, this, on_engine, emit, in_world, modify, bind, ret;
  cbn.

(** ** Health checks *)

(** What a probe leaves of the engine: the configuration and the current
    adapter as they were, and the same keys in the map, each with the
    adapter object it had. *)
Definition same_shape (s s' : t) : Prop :=
  config s' = config s
  /\ currentAdapter s' = currentAdapter s
  /\ forall ty, option_map adapter (adapters s' !! ty) = option_map adapter (adapters s !! ty).

Lemma same_shape_refl (s : t) : same_shape s s.
Proof. repeat split. Qed.

Lemma same_shape_trans (s1 s2 s3 : t) :
  same_shape s1 s2 -> same_shape s2 s3 -> same_shape s1 s3.
Proof.
  intros (C1 & A1 & M1) (C2 & A2 & M2).
  split; [congruence | split; [congruence | intros ty; rewrite M2; apply M1]].
Qed.

Lemma checkAdapterHealth_shape (ty : AdapterType.t) (st : St W E) :
  same_shape (engine st) (engine (snd (checkAdapterHealth healthCheck now ty st))).
Proof.
  run. destruct (adapters (engine st) !! ty) as [state|] eqn:Hst; cbn.
  - destruct (healthCheck (adapter state) (world st)) as [result w']. cbn.
    repeat split. intros ty'. unfold set_adapters. cbn [adapters].
    destruct (decide (ty = ty')) as [<-|Hne].
    + rewrite lookup_insert_eq, Hst. destruct (HealthCheckResult.healthy result); reflexivity.
    + rewrite lookup_insert_ne by exact Hne. reflexivity.
  - apply same_shape_refl.
Qed.

Lemma healthCheckTick_shape (st : St W E) :
  same_shape (engine st) (engine (snd (healthCheckTick healthCheck now st))).
Proof.
  unfold healthCheckTick, bind, ret.
  pose proof (checkAdapterHealth_shape AdapterType.PLAYWRIGHT st) as H1.
  destruct (checkAdapterHealth healthCheck now AdapterType.PLAYWRIGHT st) as [r1 st1].
  pose proof (checkAdapterHealth_shape AdapterType.HTTP st1) as H2.
  destruct (checkAdapterHealth healthCheck now AdapterType.HTTP st1) as [r2 st2].
  cbn [snd] in *. exact (same_shape_trans _ _ _ H1 H2).
Qed.

(** X4. The periodic health check and every single probe leave the current
    adapter where it is: whatever the probes report, they change health
    flags and counters only.  The configuration is untouched as well, and
    the map keeps its keys, each with its adapter object. *)
Theorem health_checks_keep_the_current_adapter (st : St W E) :
  (forall ty,
     let s' := engine (snd (checkAdapterHealth healthCheck now ty st)) in
     currentAdapter s' = currentAdapter (engine st)
     /\ config s' = config (engine st)
     /\ forall ty', option_map adapter (adapters s' !! ty')
                    = option_map adapter (adapters (engine st) !! ty'))
  /\ let s' := engine (snd (healthCheckTick healthCheck now st)) in
     currentAdapter s' = currentAdapter (engine st)
     /\ config s' = config (engine st)
     /\ forall ty', option_map adapter (adapters s' !! ty')
                    = option_map adapter (adapters (engine st) !! ty').
Proof.
  split.
  - intros ty s'. destruct (checkAdapterHealth_shape ty st) as (C & A & M). auto.
  - intros s'. destruct (healthCheckTick_shape st) as (C & A & M). auto.
Qed.

(** ** Selection *)

(** Events that are probes only. *)
Definition only_probes (evs : list (event E)) : Prop :=
  calls evs = [] /\ failures evs = [].

Lemma only_probes_app (l k : list (event E)) :
  only_probes l -> only_probes k -> only_probes (l ++ k).
Proof.
  unfold only_probes. intros [C1 F1] [C2 F2]. split.
  - clear F1 F2. induction l as [|[] l IH]; cbn in *; try discriminate; auto.
  - rewrite failures_app, F1, F2. reflexivity.
Qed.

Lemma checkAdapterHealth_events (ty : AdapterType.t) (st : St W E) :
  exists evs, history (snd (checkAdapterHealth healthCheck now ty st)) = history st ++ evs
              /\ only_probes evs.
Proof.
  run. destruct (adapters (engine st) !! ty) as [state|]; cbn.
  - destruct (healthCheck (adapter state) (world st)) as [result w']. cbn.
    eexists. split; [reflexivity|]. split; reflexivity.
  - exists []. rewrite app_nil_r. split; [reflexivity|]. split; reflexivity.
Qed.

Lemma recover_spec (candidates : list AdapterType.t) (st : St W E) :
  same_shape (engine st) (engine (snd (recover healthCheck now candidates st)))
  /\ (forall ty, fst (recover healthCheck now candidates st) = Some ty -> In ty candidates)
  /\ exists evs,
       history (snd (recover healthCheck now candidates st)) = history st ++ evs
       /\ only_probes evs.
Proof.
  revert st. induction candidates as [|c rest IH]; intros st.
  - cbn. split; [apply same_shape_refl|]. split; [discriminate|].
    exists []. rewrite app_nil_r. split; [reflexivity|]. split; reflexivity.
  - cbn [recover]. unfold bind.
    pose proof (checkAdapterHealth_shape c st) as Hs.
    destruct (checkAdapterHealth_events c st) as (e1 & He1 & Hp1).
    destruct (checkAdapterHealth healthCheck now c st) as [result st1].
    cbn [snd] in Hs, He1.
    destruct (HealthCheckResult.healthy result).
    + cbn. split; [exact Hs|]. split; [intros ty [= <-]; left; reflexivity|].
      exists e1. auto.
    + destruct (IH st1) as (Hs2 & Hin & e2 & He2 & Hp2).
      split; [exact (same_shape_trans _ _ _ Hs Hs2)|].
      split; [intros ty Hty; right; apply Hin, Hty|].
      exists (e1 ++ e2). rewrite He2, He1, app_assoc. split; [reflexivity|].
      apply only_probes_app; assumption.
Qed.

Lemma firstHealthy_spec (s : t) (candidates : list AdapterType.t) (c : AdapterType.t) :
  firstHealthy s candidates = Some c <->
  exists pre post,
    candidates = pre ++ c :: post
    /\ Forall (fun x => flaggedHealthy s x = false) pre
    /\ flaggedHealthy s c = true.
Proof.
  unfold flaggedHealthy. induction candidates as [|x rest IH]; cbn.
  - split; [discriminate|]. intros (pre & post & Heq & _). destruct pre; discriminate.
  - destruct (adapters s !! x) as [state|] eqn:Hx; [destruct (healthy state) eqn:Hh|].
    + split.
      * intros [= <-]. exists [], rest. rewrite Hx. auto.
      * intros (pre & post & Heq & Hpre & Hc). destruct pre as [|y pre]; cbn in Heq.
        -- congruence.
        -- injection Heq as <- ->. inversion Hpre as [|? ? Hy _]; subst.
           rewrite Hx in Hy. congruence.
    + rewrite IH. split.
      * intros (pre & post & -> & Hpre & Hc). exists (x :: pre), post.
        split; [reflexivity|]. split; [|exact Hc]. constructor; [|exact Hpre].
        rewrite Hx. exact Hh.
      * intros (pre & post & Heq & Hpre & Hc). destruct pre as [|y pre]; cbn in Heq.
        -- injection Heq as <- ->. rewrite Hx in Hc. congruence.
        -- injection Heq as <- ->. inversion Hpre; subst. eauto.
    + rewrite IH. split.
      * intros (pre & post & -> & Hpre & Hc). exists (x :: pre), post.
        split; [reflexivity|]. split; [|exact Hc]. constructor; [|exact Hpre].
        rewrite Hx. reflexivity.
      * intros (pre & post & Heq & Hpre & Hc). destruct pre as [|y pre]; cbn in Heq.
        -- injection Heq as <- ->. rewrite Hx in Hc. discriminate.
        -- injection Heq as <- ->. inversion Hpre; subst. eauto.
Qed.

Lemma candidateTypes_hd (m : StrategyMode.t) :
  In (hd AdapterType.HTTP (candidateTypes m)) (candidateTypes m).
Proof. destruct m; cbn; auto. Qed.

Lemma selectBestAdapter_spec (st : St W E) :
  In (fst (selectBestAdapter healthCheck now st)) (candidateTypes (mode (config (engine st))))
  /\ currentAdapter (engine (snd (selectBestAdapter healthCheck now st)))
     = Some (fst (selectBestAdapter healthCheck now st))
  /\ config (engine (snd (selectBestAdapter healthCheck now st))) = config (engine st)
  /\ exists evs,
       history (snd (selectBestAdapter healthCheck now st)) = history st ++ evs
       /\ only_probes evs.
Proof.
  unfold selectBestAdapter, bind, this. cbn zeta.
  destruct (firstHealthy (engine st) (candidateTypes (mode (config (engine st)))))
    as [c|] eqn:Hfirst.
  - cbn. apply firstHealthy_spec in Hfirst as (pre & post & Heq & _ & _).
    split; [rewrite Heq; apply in_elt|]. split; [reflexivity|]. split; [reflexivity|].
    exists []. rewrite app_nil_r. repeat split.
  - destruct (recover_spec (candidateTypes (mode (config (engine st)))) st)
      as ((C & A & M) & Hin & evs & Hevs & Hp).
    destruct (recover healthCheck now _ st) as [[c|] st1]; cbn in *.
    + split; [apply Hin; reflexivity|]. rewrite C. eauto 10.
    + split; [apply candidateTypes_hd|]. rewrite C. eauto 10.
Qed.

(** X1. Whatever the health flags and the probes say, [selectBestAdapter]
    returns one of the candidates of the mode and makes it the current
    adapter; it leaves the configuration alone and never calls the
    operation: the only events it adds are probes.  So in the modes
    [playwright-only] and [http-only] the other adapter is never selected. *)
Theorem selectBestAdapter_selects_a_candidate (st : St W E) :
  let out := selectBestAdapter healthCheck now st in
  In (fst out) (candidateTypes (mode (config (engine st))))
  /\ currentAdapter (engine (snd out)) = Some (fst out)
  /\ config (engine (snd out)) = config (engine st)
  /\ exists evs,
       history (snd out) = history st ++ evs /\ calls evs = [] /\ failures evs = [].
Proof. exact (selectBestAdapter_spec st). Qed.

(** X2. The first candidate of the mode whose handle is flagged healthy is
    selected at once: no probe is made and nothing but [currentAdapter]
    changes. *)
Theorem selectBestAdapter_takes_the_first_flagged_healthy
    (st : St W E) (pre post : list AdapterType.t) (c : AdapterType.t) :
  candidateTypes (mode (config (engine st))) = pre ++ c :: post ->
  Forall (fun x => flaggedHealthy (engine st) x = false) pre ->
  flaggedHealthy (engine st) c = true ->
  selectBestAdapter healthCheck now st
  = (c, {| engine := set_currentAdapter (Some c) (engine st);
           world := world st; history := history st |}).
Proof.
  intros Heq Hpre Hc. unfold selectBestAdapter, bind, this. cbn zeta.
  assert (Hfirst : firstHealthy (engine st) (candidateTypes (mode (config (engine st))))
                   = Some c).
  { apply firstHealthy_spec. eauto. }
  rewrite Hfirst. reflexivity.
Qed.

Lemma probes_app (l k : list (event E)) : probes (l ++ k) = probes l ++ probes k.
Proof. induction l as [|[] l IH]; cbn; rewrite ?IH; reflexivity. Qed.

Lemma handles_shape (s s' : t) (types : list AdapterType.t) :
  same_shape s s' -> handles s' types = handles s types.
Proof.
  intros (_ & _ & Hm). induction types as [|ty rest IH]; cbn; [reflexivity|].
  specialize (Hm ty).
  destruct (adapters s' !! ty), (adapters s !! ty); cbn in Hm; congruence.
Qed.

Section AllDown.

Hypothesis all_down : forall a w, HealthCheckResult.healthy (fst (healthCheck a w)) = false.

Lemma checkAdapterHealth_down (ty : AdapterType.t) (st : St W E) :
  HealthCheckResult.healthy (fst (checkAdapterHealth healthCheck now ty st)) = false
  /\ exists evs,
       history (snd (checkAdapterHealth healthCheck now ty st)) = history st ++ evs
       /\ probes evs = handles (engine st) [ty] /\ only_probes evs.
Proof using all_down.
  run. destruct (adapters (engine st) !! ty) as [state|]; cbn.
  - pose proof (all_down (adapter state) (world st)) as Hd.
    destruct (healthCheck (adapter state) (world st)) as [result w']. cbn in *.
    split; [exact Hd|]. eexists. split; [reflexivity|]. repeat split.
  - split; [reflexivity|]. exists []. rewrite app_nil_r. repeat split.
Qed.

Lemma recover_all_down (candidates : list AdapterType.t) (st : St W E) :
  fst (recover healthCheck now candidates st) = None
  /\ exists evs,
       history (snd (recover healthCheck now candidates st)) = history st ++ evs
       /\ probes evs = handles (engine st) candidates /\ only_probes evs.
Proof using all_down.
  revert st. induction candidates as [|c rest IH]; intros st.
  - cbn. split; [reflexivity|]. exists []. rewrite app_nil_r. repeat split.
  - cbn [recover]. unfold bind.
    pose proof (checkAdapterHealth_shape c st) as Hs.
    destruct (checkAdapterHealth_down c st) as (Hd & e1 & He1 & Hp1 & Ho1).
    destruct (checkAdapterHealth healthCheck now c st) as [result st1].
    cbn [fst snd] in Hs, Hd, He1. rewrite Hd.
    destruct (IH st1) as (Hnone & e2 & He2 & Hp2 & Ho2).
    split; [exact Hnone|]. exists (e1 ++ e2).
    rewrite He2, He1, app_assoc. split; [reflexivity|].
    split; [|apply only_probes_app; assumption].
    rewrite probes_app, Hp1, Hp2, (handles_shape _ _ rest Hs). cbn.
    destruct (adapters (engine st) !! c); reflexivity.
Qed.

(** X3. When no candidate of the mode is flagged healthy and every probe
    reports unhealthy, [selectBestAdapter] probes each candidate once, in
    the order of the mode, and then selects the first candidate anyway: an
    adapter known to be down becomes the current one. *)
Theorem selectBestAdapter_falls_back_on_the_first_candidate (st : St W E) :
  Forall (fun x => flaggedHealthy (engine st) x = false)
    (candidateTypes (mode (config (engine st)))) ->
  let out := selectBestAdapter healthCheck now st in
  fst out = hd AdapterType.HTTP (candidateTypes (mode (config (engine st))))
  /\ currentAdapter (engine (snd out)) = Some (fst out)
  /\ exists evs,
       history (snd out) = history st ++ evs
       /\ probes evs = handles (engine st) (candidateTypes (mode (config (engine st))))
       /\ calls evs = [] /\ failures evs = [].
Proof using all_down.
  intros Hflags. unfold selectBestAdapter, bind, this. cbn zeta.
  destruct (firstHealthy (engine st) (candidateTypes (mode (config (engine st)))))
    as [c|] eqn:Hfirst.
  - apply firstHealthy_spec in Hfirst as (pre & post & Heq & _ & Hc).
    rewrite Heq in Hflags. apply Forall_app in Hflags as [_ Hflags].
    inversion Hflags; subst. congruence.
  - destruct (recover_all_down (candidateTypes (mode (config (engine st)))) st)
      as (Hnone & evs & Hevs & Hp & Hcalls & Hfail).
    destruct (recover healthCheck now _ st) as [r st1]. cbn in Hnone, Hevs. subst r.
    cbn. split; [reflexivity|]. split; [reflexivity|]. eauto 10.
Qed.

End AllDown.

(** ** [setMode] *)

(** X5. When a candidate of the new mode is flagged healthy, [setMode] has
    selected the first such candidate by the time it returns: the mode is
    the new one, the rest of the configuration and the handles are as they
    were, and no probe was made. *)
Theorem setMode_selects_for_the_new_mode
    (m : StrategyMode.t) (st : St W E) (pre post : list AdapterType.t) (c : AdapterType.t) :
  candidateTypes m = pre ++ c :: post ->
  Forall (fun x => flaggedHealthy (engine st) x = false) pre ->
  flaggedHealthy (engine st) c = true ->
  setMode healthCheck now m st
  = (tt, {| engine := set_currentAdapter (Some c) (set_mode m (engine st));
            world := world st; history := history st |}).
Proof.
  intros Heq Hpre Hc. unfold setMode, bind, on_engine, modify, ret.
  assert (Hfirst : firstHealthy (set_mode m (engine st)) (candidateTypes m) = Some c).
  { apply firstHealthy_spec. exists pre, post. auto. }
  unfold selectBestAdapter, bind, this. cbn. rewrite Hfirst. reflexivity.
Qed.

Section ExecuteMore.

Context {T : Type}.
Variable operation : IAdapter -> W -> (E + T) * W.

(** ** What one [execute] can do *)

Lemma calls_app (l k : list (event E)) : calls (l ++ k) = calls l ++ calls k.
Proof. induction l as [|[] l IH]; cbn; rewrite ?IH; reflexivity. Qed.

Lemma attempt_events (st : St W E) :
  exists evs,
    history (snd (attempt operation st)) = history st ++ evs
    /\ failures evs = []
    /\ (List.length (calls evs) <= 1)%nat
    /\ forall v, fst (attempt operation st) = inr v ->
                 exists a, fst (operation a (world st)) = inr v /\ evs = [Call a None].
Proof.
  unfold attempt. run. destruct (getCurrentAdapter (engine st)) as [err|a]; cbn.
  - exists []. rewrite app_nil_r. repeat split; [cbn; lia|discriminate].
  - destruct (operation a (world st)) as [[e|v'] w'] eqn:Hop; cbn.
    + eexists. split; [reflexivity|]. repeat split; [cbn; lia|discriminate].
    + eexists. split; [reflexivity|]. repeat split; [cbn; lia|].
      intros v [= <-]. exists a. rewrite Hop. auto.
Qed.

Lemma fallback_events (fb : bool) (st : St W E) :
  exists evs,
    history (snd (fallback operation fb st)) = history st ++ evs
    /\ failures evs = []
    /\ (List.length (calls evs) <= 1)%nat
    /\ (fb = false -> evs = [])
    /\ forall v, fst (fallback operation fb st) = Some v ->
                 exists a, fst (operation a (world st)) = inr v /\ evs = [Call a None].
Proof.
  assert (Hnil : forall st0 : St W E, exists evs : list (event E),
             history st0 = history st0 ++ evs /\ failures evs = []
             /\ (List.length (calls evs) <= 1)%nat /\ (fb = false -> evs = [])
             /\ forall v : T, @None T = Some v ->
                   exists a, fst (operation a (world st0)) = inr v /\ evs = [Call a None]).
  { intros st0. exists []. rewrite app_nil_r. repeat split; [cbn; lia|discriminate]. }
  unfold fallback. run. destruct fb; cbn; [|apply Hnil].
  destruct (bool_decide _); [|apply Hnil].
  destruct (adapters (engine st) !! AdapterType.PLAYWRIGHT) as [ps|]; [|apply Hnil].
  destruct (healthy ps); [|apply Hnil].
  destruct (operation (adapter ps) (world st)) as [[e|v'] w'] eqn:Hop; cbn.
  - eexists. split; [reflexivity|]. repeat split; [cbn; lia|discriminate|discriminate].
  - eexists. split; [reflexivity|]. repeat split; [cbn; lia|discriminate|].
    intros v [= <-]. exists (adapter ps). rewrite Hop. auto.
Qed.

Lemma loop_summary (fuel : nat) (fb : bool) (attempts max : Z) (st : St W E) :
  exists evs,
    history (snd (loop healthCheck now operation fuel fb attempts max st)) = history st ++ evs
    /\ (List.length (calls evs) <= 2 * fuel)%nat
    /\ (fb = false -> List.length (calls evs) <= fuel)%nat
    /\ (List.length (failures evs) <= fuel)%nat
    /\ forall v, fst (loop healthCheck now operation fuel fb attempts max st) = inr v ->
                 exists a w pre, fst (operation a w) = inr v /\ evs = pre ++ [Call a None].
Proof.
  revert attempts st. induction fuel as [|fuel IH]; intros attempts st.
  - cbn. exists []. rewrite app_nil_r. repeat split; cbn; try lia. discriminate.
  - destruct (loop healthCheck now operation (S fuel) fb attempts max st)
      as [r st'] eqn:Hloop.
    cbn [fst snd]. cbn [loop] in Hloop. destruct (attempts <? max)%Z.
    2:{ injection Hloop as <- <-. exists []. rewrite app_nil_r.
        repeat split; cbn; try lia. discriminate. }
    apply bind_inv in Hloop as (r1 & st1 & Hatt & Hloop).
    destruct (attempt_events st) as (e1 & H1 & F1 & C1 & V1).
    rewrite Hatt in H1, V1. cbn [fst snd] in H1, V1.
    destruct r1 as [error|v].
    + apply bind_inv in Hloop as ([] & st2 & Hemit & Hloop).
      apply bind_inv in Hloop as ([] & st3 & Hrec & Hloop).
      apply bind_inv in Hloop as (fbres & st4 & Hfb & Hloop).
      assert (H3 : history st3 = history st1 ++ [AttemptFailed (attempts + 1) max error]
                   /\ world st3 = world st1).
      { unfold emit, modify in Hemit. injection Hemit as <-.
        unfold recordCurrent, on_engine, modify in Hrec. injection Hrec as <-. auto. }
      destruct H3 as [H3 W3].
      destruct (fallback_events fb st3) as (e2 & H2 & F2 & C2 & N2 & V2).
      rewrite Hfb in H2, V2. cbn [fst snd] in H2, V2.
      destruct fbres as [v|].
      * injection Hloop as <- <-.
        exists (e1 ++ AttemptFailed (attempts + 1) max error :: e2).
        split; [rewrite H2, H3, H1, <- !app_assoc; reflexivity|].
        destruct (V2 v eq_refl) as (a & Ha & ->).
        rewrite calls_app, failures_app, F1, !length_app. cbn.
        split; [lia|]. split; [|split; [lia|]].
        -- intros Hfb'. specialize (N2 Hfb'). discriminate.
        -- intros v' [= <-]. exists a. eexists.
           exists (e1 ++ [AttemptFailed (attempts + 1) max error]).
           split; [exact Ha|]. rewrite <- app_assoc. reflexivity.
      * apply bind_inv in Hloop as (ty & st5 & Hsel & Hloop).
        destruct (selectBestAdapter_spec st4) as (_ & _ & _ & e3 & H4 & C3 & F3).
        rewrite Hsel in H4. cbn [snd] in H4.
        assert (H5 : history st5
                     = history st ++ e1 ++ AttemptFailed (attempts + 1) max error :: e2 ++ e3).
        { rewrite H4, H2, H3, H1, <- !app_assoc. reflexivity. }
        assert (Hc : (List.length (calls (e1 ++ AttemptFailed (attempts + 1) max error
                                            :: e2 ++ e3)) <= 2)%nat
                     /\ (fb = false ->
                         List.length (calls (e1 ++ AttemptFailed (attempts + 1) max error
                                               :: e2 ++ e3)) <= 1)%nat
                     /\ List.length (failures (e1 ++ AttemptFailed (attempts + 1) max error
                                                 :: e2 ++ e3)) = 1%nat).
        { rewrite calls_app, failures_app, F1. cbn.
          rewrite calls_app, failures_app, F2, F3, C3, !length_app. cbn.
          split; [lia|]. split; [|lia]. intros Hfb'. rewrite (N2 Hfb'). cbn. lia. }
        destruct Hc as (Hc2 & Hc1 & Hf).
        destruct (max <=? attempts + 1)%Z.
        -- injection Hloop as <- <-. eexists. split; [exact H5|].
           split; [lia|]. split; [|split; [lia|discriminate]].
           intros Hfb'. specialize (Hc1 Hfb'). lia.
        -- destruct (IH (attempts + 1)%Z st5) as (e4 & H6 & C4 & N4 & F4 & V4).
           rewrite Hloop in H6, V4. cbn [fst snd] in H6, V4.
           exists ((e1 ++ AttemptFailed (attempts + 1) max error :: e2 ++ e3) ++ e4).
           split; [rewrite H6, H5, <- !app_assoc; reflexivity|].
           rewrite calls_app, failures_app, !length_app.
           split; [lia|]. split; [|split; [lia|]].
           ++ intros Hfb'. specialize (Hc1 Hfb'). specialize (N4 Hfb'). lia.
           ++ intros v Hv. destruct (V4 v Hv) as (a & w & pre & Ha & ->).
              exists a, w. eexists. split; [exact Ha|]. rewrite app_assoc. reflexivity.
    + destruct (V1 v eq_refl) as (a & Ha & ->).
      apply bind_inv in Hloop as ([] & st2 & Hrec & Hloop).
      injection Hloop as <- <-.
      unfold recordCurrent, on_engine, modify in Hrec. injection Hrec as <-.
      exists [Call a None]. split; [exact H1|]. cbn.
      split; [lia|]. split; [lia|]. split; [lia|].
      intros v' [= <-]. exists a, (world st), []. split; [exact Ha | reflexivity].
Qed.

(** X6. [execute] calls the operation at most twice per attempt of its budget,
    and at most once per attempt when the fallback is turned off; it logs at
    most as many failed attempts as the budget allows; and a value it
    returns is a value the operation resolved with, in the call that is the
    last event of the run.  The budget is [retryAttempts], or 1 when
    [retryOnFailure] is off. *)
Theorem execute_stays_within_its_budget (fb retry : bool) (st : St W E) :
  let out := execute healthCheck now operation fb retry st in
  let budget := Z.to_nat (maxAttempts (engine st) retry) in
  exists evs,
    history (snd out) = history st ++ evs
    /\ (List.length (calls evs) <= 2 * budget)%nat
    /\ (fb = false -> List.length (calls evs) <= budget)%nat
    /\ (List.length (failures evs) <= budget)%nat
    /\ forall v, fst out = inr v ->
                 exists a w pre, fst (operation a w) = inr v /\ evs = pre ++ [Call a None].
Proof.
  cbn zeta. unfold execute, bind, this, maxAttempts. apply loop_summary.
Qed.

(** ** The fallback inside an attempt *)

(** X7. With HTTP current and the Playwright handle flagged healthy, a rejection
    on HTTP is answered within the same attempt by a call on Playwright; when
    that call resolves, [execute] returns its value.  HTTP is charged one
    failure, the Playwright handle is reset, and HTTP stays the current
    adapter: nothing is re-selected.  The mode plays no part, so this
    happens in [http-only] mode too. *)
Theorem execute_falls_back_to_playwright
    (retry : bool) (st : St W E) (hs ps : AdapterState) (e : E) (v : T) (w1 w2 : W) :
  currentAdapter (engine st) = Some AdapterType.HTTP ->
  adapters (engine st) !! AdapterType.HTTP = Some hs ->
  adapters (engine st) !! AdapterType.PLAYWRIGHT = Some ps ->
  healthy ps = true ->
  (1 <= maxAttempts (engine st) retry)%Z ->
  operation (adapter hs) (world st) = (inl e, w1) ->
  operation (adapter ps) w1 = (inr v, w2) ->
  execute healthCheck now operation true retry st
  = (inr v,
     {| engine := recordSuccess AdapterType.PLAYWRIGHT
                    (recordFailure AdapterType.HTTP (engine st));
        world := w2;
        history := history st
                     ++ [Call (adapter hs) (Some e);
                         AttemptFailed 1 (maxAttempts (engine st) retry) (Rejected e);
                         Call (adapter ps) None] |})
  /\ currentAdapter (recordSuccess AdapterType.PLAYWRIGHT
                       (recordFailure AdapterType.HTTP (engine st)))
     = Some AdapterType.HTTP.
Proof.
  intros Hcur Hhttp Hpw Hup Hmax Hop1 Hop2.
  assert (Hpw' : adapters (recordFailure AdapterType.HTTP (engine st)) !! AdapterType.PLAYWRIGHT
                 = Some ps).
  { unfold recordFailure. rewrite Hhttp. cbn.
    rewrite lookup_insert_ne by discriminate. exact Hpw. }
  assert (Hcur' : currentAdapter (recordFailure AdapterType.HTTP (engine st))
                  = Some AdapterType.HTTP).
  { unfold recordFailure. rewrite Hhttp. exact Hcur. }
  split.
  - unfold maxAttempts in *. unfold execute, bind at 1, this.
    destruct (Z.to_nat _) as [|fuel] eqn:Hfuel; [lia|].
    cbn [loop].
    destruct (Z.ltb_spec 0 (if retry then retryAttempts (config (engine st)) else 1));
      [|lia].
    run. unfold getCurrentAdapter. rewrite Hcur, Hhttp. cbn. rewrite Hop1. cbn.
    rewrite Hcur. cbn. rewrite Hcur'. rewrite bool_decide_true by reflexivity.
    rewrite Hpw'. cbn. rewrite Hup. run. rewrite Hop2. cbn.
    rewrite <- !app_assoc. reflexivity.
  - unfold recordSuccess. rewrite Hpw'. exact Hcur'.
Qed.

(** ** Before a selection *)


End ExecuteMore.

End WithWorld.
End EngineMore.
(** * The engine on the concrete worlds, continued *)

Module EngineMoreFacts.
Import StrategyEngine Scenario EngineScenario.

Lemma selectBestAdapter_takes_the_first_flagged_healthy_witness :
  selectBestAdapter (E:=string) (probe http_down) clock http_found_down
  = (AdapterType.PLAYWRIGHT,
     {| engine := set_currentAdapter (Some AdapterType.PLAYWRIGHT) (engine http_found_down);
        world := world http_found_down; history := history http_found_down |}).
Proof.
  apply (EngineMore.selectBestAdapter_takes_the_first_flagged_healthy
           (probe http_down) clock http_found_down [AdapterType.HTTP] [] AdapterType.PLAYWRIGHT).
  - reflexivity.
  - repeat constructor.
  - reflexivity.
Defined.

Lemma selectBestAdapter_falls_back_on_the_first_candidate_witness :
  fst (selectBestAdapter (E:=string) (probe all_down) clock all_found_down)
  = AdapterType.HTTP
  /\ exists evs,
       history (snd (selectBestAdapter (probe all_down) clock all_found_down))
       = history all_found_down ++ evs
       /\ probes evs = [httpAdapter; playwrightAdapter].
Proof.
  destruct (EngineMore.selectBestAdapter_falls_back_on_the_first_candidate
              (probe all_down) clock (fun a w => eq_refl) all_found_down)
    as (Hfst & _ & evs & Hh & Hp & _).
  - repeat constructor.
  - split; [exact Hfst|]. exists evs. split; [exact Hh|exact Hp].
Defined.

Lemma setMode_selects_for_the_new_mode_witness :
  setMode (E:=string) (probe http_down) clock StrategyMode.HTTP http_found_down
  = (tt, {| engine := set_currentAdapter (Some AdapterType.PLAYWRIGHT)
                        (set_mode StrategyMode.HTTP (engine http_found_down));
            world := world http_found_down; history := history http_found_down |}).
Proof.
  apply (EngineMore.setMode_selects_for_the_new_mode
           (probe http_down) clock StrategyMode.HTTP http_found_down
           [AdapterType.HTTP] [] AdapterType.PLAYWRIGHT).
  - reflexivity.
  - repeat constructor.
  - reflexivity.
Defined.

Lemma execute_falls_back_to_playwright_witness :
  fst (execute (probe all_up) clock http_rejects true true started) = inr "published"
  /\ history (snd (execute (probe all_up) clock http_rejects true true started))
     = [Call httpAdapter (Some "HTTP 503");
        AttemptFailed 1 3 (Rejected "HTTP 503");
        Call playwrightAdapter None]
  /\ currentAdapter (engine (snd (execute (probe all_up) clock http_rejects true true started)))
     = Some AdapterType.HTTP.
Proof.
  destruct (EngineMore.execute_falls_back_to_playwright
              (probe all_up) clock http_rejects true started
              {| adapter := httpAdapter; healthy := true;
                 lastHealthCheck := 0; consecutiveFailures := 0 |}
              {| adapter := playwrightAdapter; healthy := true;
                 lastHealthCheck := 0; consecutiveFailures := 0 |}
              "HTTP 503" "published" tt tt
              eq_refl eq_refl eq_refl eq_refl) as [Hex Hcur].
  - vm_compute. discriminate.
  - reflexivity.
  - reflexivity.
  - rewrite Hex. cbn [fst snd engine history]. split; [reflexivity|].
    split; [reflexivity|exact Hcur].
Defined.


End EngineMoreFacts.
(** * More of the vault *)

Module VaultMore.
Import Js Crypto CryptoUtil CryptoFacts.
Local Open Scope N_scope.
Local Ltac Zify.zify_post_hook ::= Z.to_euclidean_division_equations.

(** ** Passwords, tokens and hashes *)

(** A lowercase hexadecimal digit. *)
Definition lower_hex (c : N) : Prop := (48 <= c <= 57) \/ (97 <= c <= 102).

Lemma hex_digit_lower (n : N) : n < 16 -> lower_hex (Buffer.hex_digit n).
Proof.
  intros Hn. unfold lower_hex, Buffer.hex_digit.
  destruct (N.ltb_spec n 10); lia.
Qed.

Lemma toString_hex_length (buf : list byte) :
  List.length (Buffer.toString_hex buf) = (2 * List.length buf)%nat.
Proof.
  unfold Buffer.toString_hex. induction buf as [|b buf IH]; cbn; [reflexivity|].
  cbn in IH. rewrite IH. lia.
Qed.

Lemma toString_hex_lower (buf : list byte) : Forall lower_hex (Buffer.toString_hex buf).
Proof.
  unfold Buffer.toString_hex. induction buf as [|b buf IH]; cbn; [constructor|].
  pose proof (Byte.to_N_bounded b) as Hb.
  constructor; [|constructor; [|exact IH]]; apply hex_digit_lower.
  - lia.
  - lia.
Qed.

Lemma slice_prefix (n : Z) (s : list N) :
  (0 <= n <= Z.of_nat (List.length s))%Z -> slice 0 n s = firstn (Z.to_nat n) s.
Proof.
  intros Hn. unfold slice. cbn zeta.
  destruct (Z.ltb_spec 0 0); [lia|]. destruct (Z.ltb_spec n 0); [lia|].
  rewrite (Z.min_l 0) by lia. rewrite (Z.min_l n) by lia.
  rewrite Z.sub_0_r. reflexivity.
Qed.

(** X9. What [generatePassword(length)] returns for an integer length.  From 0
    up to the longest string there is, it is a string of exactly [length]
    lowercase hexadecimal digits, for an odd length too, and
    [Math.ceil(length / 2)] random bytes are used up.  For -1 it is the
    empty string.  Below -1, [randomBytes] refuses the size and
    [generatePassword] throws. *)
Theorem generatePassword_cases (length : Z) (random : nat -> byte) :
  ((0 <= length <= MAX_STRING_LENGTH)%Z ->
   exists password,
     generatePassword length random
     = (inr password, fun i => random (Z.to_nat ((length + 1) / 2) + i)%nat)
     /\ List.length password = Z.to_nat length
     /\ Forall lower_hex password)
  /\ (length = (-1)%Z -> fst (generatePassword length random) = inr [])
  /\ ((length < -1)%Z ->
      generatePassword length random = (inl "The value of size is out of range", random)).
Proof.
  unfold generatePassword, randomBytesOf, toHex, MAX_STRING_LENGTH. split; [|split].
  - intros Hlen.
    assert (Hsize : (0 <= (length + 1) / 2 <= 268435444)%Z).
    { lia. }
    destruct (Z.ltb_spec ((length + 1) / 2) 0); [lia|].
    destruct (Z.ltb_spec 2147483647 ((length + 1) / 2)); [lia|]. cbn [orb].
    unfold randomBytes.
    set (buf := map random (seq 0 (Z.to_nat ((length + 1) / 2)))).
    assert (Hbuf : List.length buf = Z.to_nat ((length + 1) / 2)).
    { subst buf. rewrite length_map. apply length_seq. }
    rewrite Hbuf, Z2Nat.id by lia.
    assert (Hdiv : (length <= 2 * ((length + 1) / 2) <= length + 1)%Z) by lia.
    destruct (Z.ltb_spec 536870888 (2 * ((length + 1) / 2))); [lia|].
    eexists. split; [reflexivity|].
    rewrite slice_prefix by (rewrite toString_hex_length, Hbuf; lia).
    split.
    + rewrite length_firstn, toString_hex_length, Hbuf. lia.
    + apply Forall_take, toString_hex_lower.
  - intros ->. reflexivity.
  - intros Hneg.
    assert ((length + 1) / 2 < 0)%Z by lia.
    destruct (Z.ltb_spec ((length + 1) / 2) 0); [reflexivity|lia].
Qed.

(** X10. [hash] returns 64 lowercase hexadecimal digits for every string, and
    [generateToken] the 64 digits of the next 32 random bytes, from which
    these bytes can be read back. *)
Theorem hashes_and_tokens_are_64_hex_digits :
  (forall data, List.length (hash data) = 64%nat /\ Forall lower_hex (hash data))
  /\ (forall random,
        List.length (fst (generateToken random)) = 64%nat
        /\ Forall lower_hex (fst (generateToken random))
        /\ Buffer.from_hex (fst (generateToken random)) = map random (seq 0 32)
        /\ snd (generateToken random) = fun i => random (32 + i)%nat).
Proof.
  split.
  - intros data. unfold hash. split; [|apply toString_hex_lower].
    rewrite toString_hex_length. unfold sha256, bytes. rewrite length_map, digest_length.
    reflexivity.
  - intros random. unfold generateToken, randomBytes. cbn [fst snd].
    split; [|split; [apply toString_hex_lower|split; [|reflexivity]]].
    + rewrite toString_hex_length, length_map, length_seq. reflexivity.
    + apply BufferFacts.from_hex_toString_hex.
Qed.

(** ** What [decrypt] refuses *)

Lemma verifies_is_equality (key iv plaintext received : list N) :
  List.length received = 16%nat ->
  GCM.verifies key iv received (fst (GCM.seal key iv plaintext))
  = bool_decide (received = snd (GCM.seal key iv plaintext)).
Proof.
  intros Hlen. unfold GCM.verifies, GCM.seal. cbn [fst snd]. cbv zeta.
  match goal with |- context [GCM.tag ?k ?h ?j ?c] =>
    pose proof (tag_length k h j c) as Ht; generalize dependent (GCM.tag k h j c) end.
  intros t Ht. rewrite Hlen, <- Ht, firstn_all.
  apply bool_decide_ext. split; congruence.
Qed.

Lemma bytes_eq_values (buf : list byte) (vs : list N) :
  Forall (fun b => b < 256) vs -> (values buf = vs <-> buf = bytes vs).
Proof.
  intros Hb. split.
  - intros <-. symmetry. apply bytes_values.
  - intros ->. apply values_bytes, Hb.
Qed.

(** X11. [decrypt] checks all 16 bytes of the tag: of the texts that carry the
    salt, the vector and the ciphertext of a blob of [encrypt], with any 16
    bytes in the place of the tag, it accepts the one with the tag of the
    blob and no other. *)
Theorem decrypt_checks_the_whole_tag
    (data password : list N) (random : nat -> byte) (tag : list byte) :
  List.length tag = 16%nat ->
  let text := Buffer.toString_base64
                (salt_of random ++ iv_of random ++ tag
                   ++ bytes (fst (sealed data password random))) in
  (tag = bytes (snd (sealed data password random)) ->
   decrypt text password = inr (Buffer.toString_utf8 (Buffer.from_utf8 data)))
  /\ (tag <> bytes (snd (sealed data password random)) ->
      decrypt text password
      = inl "Failed to decrypt data - invalid password or corrupted data").
Proof.
  intros Hlen text. subst text.
  rewrite (decrypt_blob (salt_of random) (iv_of random) tag
             (bytes (fst (sealed data password random))) password)
    by (apply randomBytes_length || exact Hlen).
  assert (Hct : values (bytes (fst (sealed data password random)))
                = fst (sealed data password random)).
  { apply values_bytes. unfold sealed, GCM.seal. cbn [fst].
    apply gctr_bounded, values_bounded. }
  assert (Hb : Forall (fun b => b < 256) (snd (sealed data password random))).
  { unfold sealed, GCM.seal. cbn [snd]. apply tag_bounded. }
  rewrite Hct. cbv zeta. unfold sealed in *.
  rewrite verifies_is_equality by (unfold values; rewrite length_map; exact Hlen).
  rewrite gctr_seal, bytes_values.
  split.
  - intros Heq. rewrite bool_decide_true; [reflexivity|].
    apply (bytes_eq_values tag _ Hb), Heq.
  - intros Hne. rewrite bool_decide_false; [reflexivity|].
    intros Heq. apply Hne, (bytes_eq_values tag _ Hb), Heq.
Qed.

(** X12. [decrypt] throws for every text that decodes to fewer than 84 bytes:
    there is no vector, or no tag of a length [setAuthTag] takes.  The empty
    string is such a text. *)
Theorem decrypt_refuses_a_short_text (encryptedData password : list N) :
  (List.length (Buffer.from_base64 encryptedData) < 84)%nat ->
  decrypt encryptedData password
  = inl "Failed to decrypt data - invalid password or corrupted data".
Proof.
  intros Hshort. unfold decrypt. cbv zeta. unfold decipher.
  rewrite deriveKey_length. change (negb (32 =? 32)%nat) with false. cbv iota.
  set (combined := Buffer.from_base64 encryptedData) in *.
  assert (Hiv : List.length (subarray SALT_LENGTH (SALT_LENGTH + IV_LENGTH) combined)
                = Nat.min 16 (List.length combined - 64)).
  { unfold subarray. rewrite length_firstn, length_skipn. reflexivity. }
  assert (Htag : List.length (subarray (SALT_LENGTH + IV_LENGTH)
                                (SALT_LENGTH + IV_LENGTH + TAG_LENGTH) combined)
                 = Nat.min 16 (List.length combined - 80)).
  { unfold subarray. rewrite length_firstn, length_skipn. reflexivity. }
  rewrite Hiv, Htag.
  destruct (Nat.eqb_spec (Nat.min 16 (List.length combined - 64)) 0) as [|Hne];
    [reflexivity|].
  assert (Hinvalid : valid_tag_length (Nat.min 16 (List.length combined - 80)) = false).
  { unfold valid_tag_length.
    destruct (Nat.min 16 (List.length combined - 80)) as [|[|[|[|n]]]] eqn:Hn;
      try reflexivity. lia. }
  rewrite Hinvalid. reflexivity.
Qed.

(** ** [TokenStorage.load] and the disk *)

Import TokenStorage.

Lemma clear_lookup (this : TokenStorage.t) (disk : gmap string Fs.node) (path : string) :
  path <> tokenFile this -> clear this disk !! path = disk !! path.
Proof.
  intros Hne. unfold clear, exists_, Fs.existsSync, Fs.unlinkSync.
  destruct (disk !! tokenFile this) as [[content|]|]; try reflexivity.
  apply lookup_delete_ne. congruence.
Qed.


End VaultMore.
(** * The vault on the concrete inputs, continued *)

Module VaultMoreFacts.
Import Js Crypto CryptoUtil VaultScenario.

Lemma decrypt_checks_the_whole_tag_witness :
  decrypt (blob_of secret passphrase counting) passphrase
  = inr (Buffer.toString_utf8 (Buffer.from_utf8 secret)).
Proof.
  assert (Hlen : List.length (bytes (snd (sealed secret passphrase counting))) = 16%nat).
  { unfold bytes. rewrite length_map.
    apply (VaultFacts.sealed_values secret passphrase counting). }
  exact (proj1 (VaultMore.decrypt_checks_the_whole_tag secret passphrase counting
                  (bytes (snd (sealed secret passphrase counting))) Hlen) eq_refl).
Defined.

Lemma decrypt_refuses_a_short_text_witness :
  decrypt [] passphrase
  = inl "Failed to decrypt data - invalid password or corrupted data".
Proof.
  apply VaultMore.decrypt_refuses_a_short_text. cbn. lia.
Defined.

End VaultMoreFacts.
(** * More of the default batch publish *)

Module AdapterMore.
Import BaseAdapter.

Section WithAdapter.

Context {W PublishOptions : Type}.
Variable publishResource :
  string -> option PublishOptions -> W -> AdapterResult.t PublishResult.t * W.

(** The messages of the items that do not count as published, in order. *)
Definition complaints (ids : list string) (rs : list (AdapterResult.t PublishResult.t))
  : list string :=
  omap (fun x => x) (zip_with complaint ids rs).

Lemma publishEach_errors (ids : list string) (options : option PublishOptions)
    (results : list PublishResult.t) (errors : list string) (w : W) :
  publishEach publishResource ids options results errors w
  = (results ++ zip_with entry ids (answers publishResource ids options w),
     errors ++ complaints ids (answers publishResource ids options w),
     afterwards publishResource ids options w).
Proof.
  revert results errors w. induction ids as [|id ids IH]; intros results errors w.
  - cbn. rewrite !app_nil_r. reflexivity.
  - cbn [publishEach answers afterwards].
    destruct (publishResource id options w) as [r w1]. cbn [snd zip_with].
    unfold complaints. cbn [zip_with omap]. unfold complaint at 1.
    destruct (published r) as [d|] eqn:Hp; rewrite IH; rewrite <- !app_assoc; cbn;
      unfold entry; rewrite ?Hp; reflexivity.
Qed.

Lemma complaints_nil (ids : list string) (rs : list (AdapterResult.t PublishResult.t)) :
  List.length rs = List.length ids ->
  (complaints ids rs = [] <-> Forall (fun r => is_Some (published r)) rs).
Proof.
  revert rs. induction ids as [|id ids IH]; intros [|r rs] Hlen; try discriminate.
  - split; constructor.
  - injection Hlen as Hlen. unfold complaints. cbn [zip_with omap]. unfold complaint at 1.
    destruct (published r) as [d|] eqn:Hp.
    + fold (complaints ids rs). rewrite (IH rs Hlen). split.
      * intros H. constructor; [eauto|exact H].
      * intros H. inversion H; assumption.
    + cbn. split; [discriminate|]. intros H. inversion H as [|? ? [d Hd] _]; subst.
      congruence.
Qed.

(** X15. The error of a batch.  [publishResources] reports, joined by [; ] and in
    the order of the items, one message for each item whose answer does not
    count as published: the error of the answer, or
    [Failed to publish resource <id>] when the answer carries none or an
    empty one.  It reports no error exactly when it reports success, that
    is, when every item counts as published.  The items are published one
    after the other, each in the world the one before left, all of them. *)
Theorem batch_publish_joins_the_complaints
    (ids : list string) (options : option PublishOptions) (w : W) :
  let batch := publishResources publishResource ids options w in
  let messages := complaints ids (answers publishResource ids options w) in
  AdapterResult.error (fst batch)
  = (if (0 <? List.length messages)%nat then Some (String.concat "; " messages) else None)
  /\ (AdapterResult.error (fst batch) = None <-> AdapterResult.success (fst batch) = true)
  /\ (AdapterResult.success (fst batch) = true
      <-> Forall (fun r => is_Some (published r)) (answers publishResource ids options w))
  /\ snd batch = afterwards publishResource ids options w.
Proof.
  cbn zeta. unfold publishResources. rewrite publishEach_errors. cbn.
  set (messages := complaints ids (answers publishResource ids options w)).
  pose proof (complaints_nil ids (answers publishResource ids options w)
                (AdapterFacts.answers_length publishResource ids options w)) as Hnil.
  fold messages in Hnil.
  split; [reflexivity|]. split; [|split; [|reflexivity]].
  - destruct messages; cbn; split; (reflexivity || discriminate).
  - rewrite <- Hnil. destruct messages; cbn; split; (reflexivity || discriminate).
Qed.

End WithAdapter.
End AdapterMore.
(** * Signing out *)

Module SessionMore.
Import SessionStorage.

Lemma lookup_delete_absent (disk : gmap string Fs.node) (path path' : string) :
  disk !! path' = None -> delete path disk !! path' = None.
Proof.
  intros Hnone. destruct (decide (path = path')) as [->|Hne].
  - apply lookup_delete_eq.
  - rewrite lookup_delete_ne by exact Hne. exact Hnone.
Qed.

(** What [unlinkIfExists] does, by what the path holds. *)
Lemma unlinkIfExists_cases (path : string) (disk : gmap string Fs.node) :
  match disk !! path with
  | Some (Fs.File _) => unlinkIfExists path disk = inr (delete path disk)
  | Some Fs.Directory => exists code, unlinkIfExists path disk = inl code
  | None => unlinkIfExists path disk = inr disk
  end.
Proof.
  unfold unlinkIfExists, Fs.existsSync, Fs.unlinkSync.
  destruct (disk !! path) as [[content|]|]; eauto.
Qed.

Lemma clearBrowserSession_lookup (this : t) (disk : gmap string Fs.node) (path : string) :
  clearBrowserSession this disk !! path = disk !! path
  \/ clearBrowserSession this disk !! path = None.
Proof.
  unfold clearBrowserSession.
  pose proof (unlinkIfExists_cases (browserStateFile this) disk) as H1.
  destruct (disk !! browserStateFile this) as [[c|]|] eqn:Hbs.
  - rewrite H1.
    pose proof (unlinkIfExists_cases (userInfoFile this)
                  (delete (browserStateFile this) disk)) as H2.
    assert (Hstep : forall p, delete (browserStateFile this) disk !! p = disk !! p
                              \/ delete (browserStateFile this) disk !! p = None).
    { intros p. destruct (decide (browserStateFile this = p)) as [->|Hne].
      - right. apply lookup_delete_eq.
      - left. apply lookup_delete_ne, Hne. }
    destruct (delete (browserStateFile this) disk !! userInfoFile this) as [[c'|]|].
    + rewrite H2. destruct (decide (userInfoFile this = path)) as [->|Hne].
      * right. apply lookup_delete_eq.
      * rewrite lookup_delete_ne by exact Hne. apply Hstep.
    + destruct H2 as [code ->]. apply Hstep.
    + rewrite H2. apply Hstep.
  - destruct H1 as [code ->]. left. reflexivity.
  - rewrite H1.
    pose proof (unlinkIfExists_cases (userInfoFile this) disk) as H2.
    destruct (disk !! userInfoFile this) as [[c'|]|].
    + rewrite H2. destruct (decide (userInfoFile this = path)) as [->|Hne].
      * right. apply lookup_delete_eq.
      * left. apply lookup_delete_ne, Hne.
    + destruct H2 as [code ->]. left. reflexivity.
    + rewrite H2. left. reflexivity.
Qed.

Lemma clearBrowserSession_spec (this : t) (disk : gmap string Fs.node) :
  (hasValidSession this (clearBrowserSession this disk) = true
   <-> disk !! browserStateFile this = Some Fs.Directory
       /\ Fs.existsSync (userInfoFile this) disk = true)
  /\ (disk !! browserStateFile this = Some Fs.Directory ->
      clearBrowserSession this disk = disk)
  /\ (forall path,
        path <> browserStateFile this -> path <> userInfoFile this ->
        clearBrowserSession this disk !! path = disk !! path)
  /\ (forall path, disk !! path = None -> clearBrowserSession this disk !! path = None).
Proof.
  assert (Hdir : disk !! browserStateFile this = Some Fs.Directory ->
                 clearBrowserSession this disk = disk).
  { intros Hbs. unfold clearBrowserSession.
    pose proof (unlinkIfExists_cases (browserStateFile this) disk) as H1.
    rewrite Hbs in H1. destruct H1 as [code ->]. reflexivity. }
  assert (Hgone : disk !! browserStateFile this <> Some Fs.Directory ->
                  clearBrowserSession this disk !! browserStateFile this = None).
  { intros Hbs. unfold clearBrowserSession.
    pose proof (unlinkIfExists_cases (browserStateFile this) disk) as H1.
    destruct (disk !! browserStateFile this) as [[c|]|] eqn:Hl; [|congruence|].
    - rewrite H1.
      assert (Hd : delete (browserStateFile this) disk !! browserStateFile this = None)
        by apply lookup_delete_eq.
      destruct (unlinkIfExists (userInfoFile this) (delete (browserStateFile this) disk))
        as [code|disk2] eqn:H2; [exact Hd|].
      unfold unlinkIfExists, Fs.unlinkSync in H2.
      destruct (Fs.existsSync _ _); [|injection H2 as <-; exact Hd].
      destruct (delete (browserStateFile this) disk !! userInfoFile this) as [[c'|]|];
        try discriminate. injection H2 as <-. apply lookup_delete_absent, Hd.
    - rewrite H1.
      destruct (unlinkIfExists (userInfoFile this) disk) as [code|disk2] eqn:H2; [exact Hl|].
      unfold unlinkIfExists, Fs.unlinkSync in H2.
      destruct (Fs.existsSync _ _); [|injection H2 as <-; exact Hl].
      destruct (disk !! userInfoFile this) as [[c'|]|]; try discriminate.
      injection H2 as <-. apply lookup_delete_absent, Hl. }
  split; [|split; [exact Hdir|split]].
  - split.
    + intros Hvalid.
      assert (Hcases : disk !! browserStateFile this = Some Fs.Directory
                       \/ disk !! browserStateFile this <> Some Fs.Directory).
      { destruct (disk !! browserStateFile this) as [[c|]|]; auto; right; discriminate. }
      destruct Hcases as [Hbs|Hbs].
      * rewrite (Hdir Hbs) in Hvalid. unfold hasValidSession in Hvalid.
        apply andb_true_iff in Hvalid as [_ Hui]. auto.
      * unfold hasValidSession, Fs.existsSync in Hvalid. rewrite (Hgone Hbs) in Hvalid.
        discriminate.
    + intros [Hbs Hui]. rewrite (Hdir Hbs). unfold hasValidSession, Fs.existsSync at 1.
      rewrite Hbs, Hui. reflexivity.
  - intros path Hbs Hui. unfold clearBrowserSession.
    assert (Hstep : forall d p, p <> path ->
              match unlinkIfExists p d with inl _ => True | inr d' => d' !! path = d !! path end).
    { intros d p Hp. unfold unlinkIfExists, Fs.unlinkSync.
      destruct (Fs.existsSync p d); [|reflexivity].
      destruct (d !! p) as [[c|]|]; try exact I. apply lookup_delete_ne, Hp. }
    pose proof (Hstep disk (browserStateFile this) ltac:(congruence)) as H1.
    destruct (unlinkIfExists (browserStateFile this) disk) as [code|disk1]; [reflexivity|].
    pose proof (Hstep disk1 (userInfoFile this) ltac:(congruence)) as H2.
    destruct (unlinkIfExists (userInfoFile this) disk1) as [code|disk2]; congruence.
  - intros path Hnone. destruct (clearBrowserSession_lookup this disk path) as [H|H];
      congruence.
Qed.


End SessionMore.

Module AuthMore.
Import AuthManager.

Section WithFlows.

Context {W : Type}.
Variable loginByQRCode : Env W -> (string + bool) * Env W.
Variable loginByPhoneCode : Env W -> (string + bool) * Env W.
Variable saveSession : Env W -> Env W.
Variable close : BrowserObject -> W -> bool * W.

(** [closeBrowser] keeps the store, the cached user info and the disk; and
    when every close resolves, no browser object is left. *)
Lemma closeBrowser_spec (e : Env W) :
  sessionStorage (manager (closeBrowser close e)) = sessionStorage (manager e)
  /\ userInfo (manager (closeBrowser close e)) = userInfo (manager e)
  /\ disk (closeBrowser close e) = disk e
  /\ ((forall o w, fst (close o w) = true) ->
      browser (manager (closeBrowser close e)) = false
      /\ context (manager (closeBrowser close e)) = false
      /\ page (manager (closeBrowser close e)) = false).
Proof.
  unfold closeBrowser. cbn zeta.
  destruct (if page (manager e) then close ThePage (world e) else (true, world e))
    as [ok1 w1] eqn:H1.
  destruct ok1; cbn [negb].
  2:{ do 3 (split; [reflexivity|]). intros Hok. destruct (page (manager e)); [|discriminate].
      specialize (Hok ThePage (world e)). rewrite H1 in Hok. discriminate. }
  cbn [context browser].
  destruct (if context (manager e) then close TheContext w1 else (true, w1))
    as [ok2 w2] eqn:H2.
  destruct ok2; cbn [negb].
  2:{ do 3 (split; [reflexivity|]). intros Hok. destruct (context (manager e)); [|discriminate].
      specialize (Hok TheContext w1). rewrite H2 in Hok. discriminate. }
  destruct (if browser (manager e) then close TheBrowser w2 else (true, w2))
    as [ok3 w3] eqn:H3.
  destruct ok3; cbn [negb].
  2:{ do 3 (split; [reflexivity|]). intros Hok. destruct (browser (manager e)); [|discriminate].
      specialize (Hok TheBrowser w2). rewrite H3 in Hok. discriminate. }
  do 3 (split; [reflexivity|]). intros _. repeat split.
Qed.



End WithFlows.
End AuthMore.
(** * Signing out, on the concrete disk *)

Module AuthMoreFacts.
Import AuthManager Scenario AuthScenario.

Example signed_in_is_authenticated :
  isAuthenticated (manager after_login) (disk after_login) = true.
Proof. reflexivity. Qed.



End AuthMoreFacts.
(** * [JSON.parse] reads what [JSON.stringify] writes *)

Module JSONFacts.
Import Js JSON.
Local Open Scope N_scope.
Local Ltac Zify.zify_post_hook ::= Z.to_euclidean_division_equations.

(** ** Numbers *)

Lemma decimal_digits_acc (fuel : nat) (n : N) (acc : list N) :
  decimal_digits fuel n acc = decimal_digits fuel n [] ++ acc.
Proof.
  revert n acc. induction fuel as [|fuel IH]; intros n acc; cbn; [reflexivity|].
  destruct (n <? 10); [reflexivity|].
  rewrite (IH _ (_ :: acc)), (IH _ [_]), <- app_assoc. reflexivity.
Qed.

Lemma decimal_digits_digits (fuel : nat) (n : N) :
  Forall (fun c => is_digit c = true) (decimal_digits fuel n []).
Proof.
  revert n. induction fuel as [|fuel IH]; intros n; cbn; [constructor|].
  assert (Hd : forall d, d < 10 -> is_digit (48 + d) = true).
  { intros d Hd. unfold is_digit.
    destruct (N.leb_spec 48 (48 + d)); [|lia].
    destruct (N.leb_spec (48 + d) 57); [reflexivity|lia]. }
  destruct (N.ltb_spec n 10).
  - constructor; [apply Hd; assumption|constructor].
  - rewrite decimal_digits_acc. apply Forall_app. split; [apply IH|].
    constructor; [apply Hd; lia|constructor].
Qed.

Lemma decimal_digits_S (fuel : nat) (n : N) (acc : list N) :
  decimal_digits (S fuel) n acc
  = if n <? 10 then (48 + n) :: acc
    else decimal_digits fuel (n / 10) ((48 + n mod 10) :: acc).
Proof. reflexivity. Qed.

(** With enough fuel there is a first digit, and it is 0 for 0 only. *)
Lemma decimal_digits_head (fuel : nat) (n : N) :
  n < 2 ^ N.of_nat (S fuel) ->
  exists d more, decimal_digits (S fuel) n [] = d :: more
                 /\ (d = 48 -> n = 0 /\ more = []).
Proof.
  revert n. induction fuel as [|fuel IH]; intros n Hn.
  - change (2 ^ N.of_nat 1) with 2 in Hn. cbn [decimal_digits].
    destruct (N.ltb_spec n 10); [|lia].
    exists (48 + n), []. split; [reflexivity|]. intros H0. split; [lia|reflexivity].
  - rewrite decimal_digits_S. destruct (N.ltb_spec n 10) as [Hsmall|Hbig].
    + exists (48 + n), []. split; [reflexivity|]. intros H0. split; [lia|reflexivity].
    + rewrite decimal_digits_acc.
      assert (Hpow : 2 ^ N.of_nat (S (S fuel)) = 2 * 2 ^ N.of_nat (S fuel)).
      { rewrite (Nat2N.inj_succ (S fuel)), N.pow_succ_r'. reflexivity. }
      destruct (IH (n / 10)) as (d & more & Heq & Hzero); [lia|].
      rewrite Heq. exists d, (more ++ [48 + n mod 10]). split; [reflexivity|].
      intros Hd. destruct (Hzero Hd) as [H0 _]. lia.
Qed.

Lemma decimal_head (n : N) :
  exists d more, decimal n = d :: more
                 /\ is_digit d = true
                 /\ Forall (fun c => is_digit c = true) more
                 /\ (d = 48 -> more = []).
Proof.
  unfold decimal.
  destruct (decimal_digits_head (N.to_nat (N.log2 n)) n) as (d & more & Heq & Hzero).
  { rewrite Nat2N.inj_succ, N2Nat.id. destruct n as [|p]; [reflexivity|].
    apply N.log2_spec. reflexivity. }
  pose proof (decimal_digits_digits (S (N.to_nat (N.log2 n))) n) as Hall.
  rewrite Heq in Hall. inversion Hall; subst.
  exists d, more. repeat split; try assumption. intros Hd. apply Hzero, Hd.
Qed.

(** [digits] stops where the digits stop. *)
Lemma digits_prefix (ds rest : list N) :
  Forall (fun c => is_digit c = true) ds ->
  match rest with [] => True | c :: _ => is_digit c = false end ->
  digits (ds ++ rest) = (ds, rest).
Proof.
  intros Hds Hrest. induction Hds as [|d ds Hd _ IH]; cbn.
  - destruct rest as [|c rest]; [reflexivity|]. cbn. rewrite Hrest. reflexivity.
  - rewrite Hd, IH. reflexivity.
Qed.

Lemma digit_cases (c : N) :
  is_digit c = true ->
  c = 48 \/ c = 49 \/ c = 50 \/ c = 51 \/ c = 52 \/ c = 53 \/ c = 54 \/ c = 55
  \/ c = 56 \/ c = 57.
Proof.
  unfold is_digit. intros H. apply andb_true_iff in H as [H1 H2].
  apply N.leb_le in H1, H2. lia.
Qed.

(** A separator that ends a member: [,] or a line feed. *)
Definition separator (c : N) : Prop := c = 44 \/ c = 10.

Lemma parse_number_natural (d : N) (more rest : list N) (sep : N) :
  is_digit d = true -> Forall (fun c => is_digit c = true) more ->
  (d = 48 -> more = []) -> separator sep ->
  parse_number (d :: more ++ sep :: rest) = Some (d :: more, sep :: rest).
Proof.
  intros Hd Hmore Hzero Hsep.
  assert (Hdigits : digits (more ++ sep :: rest) = (more, sep :: rest)).
  { apply digits_prefix; [exact Hmore|]. destruct Hsep as [-> | ->]; reflexivity. }
  unfold parse_number.
  destruct (digit_cases d Hd) as [->|[->|[->|[->|[->|[->|[->|[->|[->| ->]]]]]]]]];
    cbn [digits is_digit N.leb N.compare Pos.compare Pos.compare_cont andb];
    rewrite Hdigits;
    try (rewrite (Hzero eq_refl));
    destruct Hsep as [-> | ->]; cbn; rewrite ?app_nil_r; reflexivity.
Qed.

Lemma parse_number_negative (d : N) (more rest : list N) (sep : N) :
  is_digit d = true -> Forall (fun c => is_digit c = true) more ->
  (d = 48 -> more = []) -> separator sep ->
  parse_number (45 :: d :: more ++ sep :: rest) = Some (45 :: d :: more, sep :: rest).
Proof.
  intros Hd Hmore Hzero Hsep.
  assert (Hdigits : digits (more ++ sep :: rest) = (more, sep :: rest)).
  { apply digits_prefix; [exact Hmore|]. destruct Hsep as [-> | ->]; reflexivity. }
  unfold parse_number.
  destruct (digit_cases d Hd) as [->|[->|[->|[->|[->|[->|[->|[->|[->| ->]]]]]]]]];
    cbn [digits is_digit N.leb N.compare Pos.compare Pos.compare_cont andb];
    rewrite Hdigits;
    try (rewrite (Hzero eq_refl));
    destruct Hsep as [-> | ->]; cbn; rewrite ?app_nil_r; reflexivity.
Qed.

(** [JSON.parse] reads an integer as [String] writes it. *)
Lemma parse_number_integer (z : Z) (rest : list N) (sep : N) :
  separator sep ->
  parse_number (integer z ++ sep :: rest) = Some (integer z, sep :: rest).
Proof.
  intros Hsep. unfold integer. destruct z as [|p|p].
  - destruct (decimal_head (Z.to_N 0)) as (d & more & -> & Hd & Hmore & Hzero).
    apply parse_number_natural; assumption.
  - destruct (decimal_head (Z.to_N (Z.pos p))) as (d & more & -> & Hd & Hmore & Hzero).
    apply parse_number_natural; assumption.
  - destruct (decimal_head (N.pos p)) as (d & more & -> & Hd & Hmore & Hzero).
    apply parse_number_negative; assumption.
Qed.

(** ** Strings *)

(** A character that stands for itself in a string literal. *)
Lemma parse_chars_plain (u : N) (rest acc : list N) :
  u <> 34 -> u <> 92 -> 32 <= u ->
  parse_chars (u :: rest) acc = parse_chars rest (acc ++ [u]).
Proof.
  intros H34 H92 H32.
  assert (Heq : parse_chars (u :: rest) acc
                = if u <? 32 then None else parse_chars rest (acc ++ [u])).
  { destruct u as [|p]; [reflexivity|].
    do 7 (try destruct p as [p|p|]); try reflexivity; congruence. }
  rewrite Heq. destruct (N.ltb_spec u 32); [lia|reflexivity].
Qed.

Lemma parse_chars_unicode_escape (u : N) (rest acc : list N) :
  u < 0x10000 ->
  parse_chars (unicode_escape u ++ rest) acc = parse_chars rest (acc ++ [u]).
Proof.
  intros Hu. unfold unicode_escape. cbn [app parse_chars].
  rewrite !BufferFacts.hex_value_digit by lia.
  do 2 f_equal. f_equal. lia.
Qed.

Lemma parse_chars_quote_unit (u : N) (rest acc : list N) :
  u < 0x10000 ->
  parse_chars (quote_unit u ++ rest) acc = parse_chars rest (acc ++ [u]).
Proof.
  intros Hu. unfold quote_unit.
  destruct (N.eqb_spec u 8) as [->|]; [reflexivity|].
  destruct (N.eqb_spec u 9) as [->|]; [reflexivity|].
  destruct (N.eqb_spec u 10) as [->|]; [reflexivity|].
  destruct (N.eqb_spec u 12) as [->|]; [reflexivity|].
  destruct (N.eqb_spec u 13) as [->|]; [reflexivity|].
  destruct (N.eqb_spec u 34) as [->|]; [reflexivity|].
  destruct (N.eqb_spec u 92) as [->|]; [reflexivity|].
  destruct (N.ltb_spec u 32).
  - apply parse_chars_unicode_escape, Hu.
  - apply parse_chars_plain; assumption.
Qed.

Lemma high_is_plain (u : N) : is_high u = true -> u <> 34 /\ u <> 92 /\ 32 <= u.
Proof.
  unfold is_high. intros H. apply andb_true_iff in H as [H1 _]. apply N.leb_le in H1. lia.
Qed.

Lemma low_is_plain (u : N) : is_low u = true -> u <> 34 /\ u <> 92 /\ 32 <= u.
Proof.
  unfold is_low. intros H. apply andb_true_iff in H as [H1 _]. apply N.leb_le in H1. lia.
Qed.

(** [JSON.parse] reads the body of a string literal back, whatever the
    string: quotes, backslashes, control characters and unpaired surrogates
    included. *)
Lemma parse_chars_quote_body (s rest acc : list N) :
  is_string s ->
  parse_chars (quote_body s ++ 34 :: rest) acc = Some (acc ++ s, rest).
Proof.
  intros Hs. remember (List.length s) as n eqn:Hn.
  assert (Hle : (List.length s <= n)%nat) by lia. clear Hn.
  revert s acc Hs Hle. induction n as [|n IH]; intros s acc Hs Hle.
  - destruct s; [|cbn in Hle; lia]. cbn. rewrite app_nil_r. reflexivity.
  - destruct s as [|u s]; [cbn; rewrite app_nil_r; reflexivity|].
    inversion Hs as [|? ? Hu Hs']; subst. cbn in Hle. cbn [quote_body].
    destruct (is_high u) eqn:Hhigh.
    + destruct s as [|l s'].
      * rewrite parse_chars_unicode_escape by exact Hu. cbn. reflexivity.
      * inversion Hs' as [|? ? Hl Hs'']; subst. cbn in Hle.
        destruct (is_low l) eqn:Hlow.
        -- destruct (high_is_plain u Hhigh) as (? & ? & ?).
           destruct (low_is_plain l Hlow) as (? & ? & ?).
           cbn [app]. rewrite !parse_chars_plain by assumption.
           rewrite IH by (assumption || lia). rewrite <- !app_assoc. reflexivity.
        -- rewrite <- app_assoc, parse_chars_unicode_escape by exact Hu.
           rewrite IH by (assumption || cbn; lia). rewrite <- app_assoc. reflexivity.
    + destruct (is_low u) eqn:Hlow.
      * rewrite <- app_assoc, parse_chars_unicode_escape by exact Hu.
        rewrite IH by (assumption || lia). rewrite <- app_assoc. reflexivity.
      * rewrite <- app_assoc, parse_chars_quote_unit by exact Hu.
        rewrite IH by (assumption || lia). rewrite <- app_assoc. reflexivity.
Qed.

(** ** Records *)

(** A primitive whose strings are strings. *)
Definition well_typed (p : primitive) : Prop :=
  match p with PString s => is_string s | _ => True end.

Lemma parse_value_number (fuel : nat) (z : Z) (rest : list N) (sep : N) :
  separator sep ->
  parse_value (S fuel) (32 :: integer z ++ sep :: rest)
  = Some (JNumber (integer z), sep :: rest).
Proof.
  intros Hsep. pose proof (parse_number_integer z rest sep Hsep) as Hnum.
  assert (Hdispatch : forall d more,
            is_digit d = true \/ d = 45 ->
            parse_value (S fuel) (32 :: d :: more)
            = match parse_number (d :: more) with
              | Some (lexeme, rest') => Some (JNumber lexeme, rest')
              | None => None
              end).
  { intros d more [Hd | ->]; [|reflexivity].
    destruct (digit_cases d Hd) as [->|[->|[->|[->|[->|[->|[->|[->|[->| ->]]]]]]]]];
      reflexivity. }
  unfold integer in *. destruct z as [|p|p].
  - destruct (decimal_head (Z.to_N 0)) as (d & more & Heq & Hd & _).
    rewrite Heq in *. cbn [app]. rewrite Hdispatch by auto. cbn [app] in Hnum.
    rewrite Hnum. reflexivity.
  - destruct (decimal_head (Z.to_N (Z.pos p))) as (d & more & Heq & Hd & _).
    rewrite Heq in *. cbn [app]. rewrite Hdispatch by auto. cbn [app] in Hnum.
    rewrite Hnum. reflexivity.
  - cbn [app]. rewrite Hdispatch by auto. cbn [app] in Hnum. rewrite Hnum. reflexivity.
Qed.

Lemma parse_value_string (fuel : nat) (s rest : list N) :
  is_string s ->
  parse_value (S fuel) (32 :: quote s ++ rest) = Some (JString s, rest).
Proof.
  intros Hs. unfold quote. cbn [app parse_value skip_ws is_ws N.eqb Pos.eqb orb].
  rewrite <- app_assoc. cbn [app]. rewrite parse_chars_quote_body by exact Hs.
  reflexivity.
Qed.

Lemma parse_value_primitive (fuel : nat) (p : primitive) (rest : list N) (sep : N) :
  well_typed p -> separator sep ->
  parse_value (S fuel) (32 :: stringify_primitive p ++ sep :: rest)
  = Some (value_of p, sep :: rest).
Proof.
  intros Hp Hsep. destruct p as [s|z|[|]|]; cbn [stringify_primitive value_of].
  - apply parse_value_string, Hp.
  - apply parse_value_number, Hsep.
  - reflexivity.
  - reflexivity.
  - reflexivity.
Qed.

(** The members as [JSON.parse] holds them. *)
Definition parsed (members : list (list N * primitive)) : list (list N * value) :=
  map (fun m => (fst m, value_of (snd m))) members.

Definition well_typed_members (members : list (list N * primitive)) : Prop :=
  Forall (fun m => is_string (fst m) /\ well_typed (snd m)) members.

Lemma parse_members_S (fuel : nat) (s : list N) (acc : list (list N * value)) :
  parse_members (S fuel) s acc
  = match skip_ws s with
    | 34 :: rest =>
        match parse_chars rest [] with
        | Some (key, rest1) =>
            match skip_ws rest1 with
            | 58 :: rest2 =>
                match parse_value fuel rest2 with
                | Some (v, rest3) =>
                    match skip_ws rest3 with
                    | 44 :: rest4 => parse_members fuel rest4 (acc ++ [(key, v)])
                    | 125 :: rest4 => Some (acc ++ [(key, v)], rest4)
                    | _ => None
                    end
                | None => None
                end
            | _ => None
            end
        | None => None
        end
    | _ => None
    end.
Proof. reflexivity. Qed.

Lemma parse_members_stringify (members : list (list N * primitive)) :
  well_typed_members members -> members <> [] ->
  forall (fuel : nat) (acc : list (list N * value)) (rest : list N),
    (List.length members < fuel)%nat ->
    parse_members fuel (10 :: stringify_members members ++ 10 :: 125 :: rest) acc
    = Some (acc ++ parsed members, rest).
Proof.
  intros Hwt. induction Hwt as [|[key p] more [Hkey Hp] Hmore IH]; [congruence|].
  intros _ fuel acc rest Hfuel. cbn [fst snd] in *.
  destruct fuel as [|[|fuel]]; cbn [List.length] in Hfuel; try lia.
  rewrite parse_members_S.
  cbn [stringify_members]. unfold quote. rewrite <- !app_assoc.
  cbn [app skip_ws is_ws N.eqb Pos.eqb orb].
  rewrite parse_chars_quote_body by exact Hkey.
  cbn [app skip_ws is_ws N.eqb Pos.eqb orb].
  destruct more as [|m more'].
  - cbn [app]. rewrite (parse_value_primitive fuel p) by (exact Hp || right; reflexivity).
    cbn [skip_ws is_ws N.eqb Pos.eqb orb]. reflexivity.
  - rewrite <- ?app_assoc. cbn [app].
    rewrite (parse_value_primitive fuel p) by (exact Hp || left; reflexivity).
    cbn [skip_ws is_ws N.eqb Pos.eqb orb].
    rewrite (IH ltac:(discriminate) (S fuel)) by (cbn [List.length] in *; lia).
    rewrite <- app_assoc. reflexivity.
Qed.

Lemma stringify_members_length (members : list (list N * primitive)) :
  (List.length members <= List.length (stringify_members members))%nat.
Proof.
  induction members as [|[key p] more IH]; cbn [stringify_members List.length]; [lia|].
  rewrite !length_app. cbn [List.length].
  destruct more as [|m more']; [cbn; lia|].
  rewrite length_app. cbn [List.length] in *. lia.
Qed.

Lemma parse_value_object (fuel : nat) (rest : list N) :
  parse_value (S fuel) (123 :: rest)
  = match skip_ws rest with
    | 125 :: rest' => Some (JObject [], rest')
    | _ =>
        match parse_members fuel rest [] with
        | Some (ms, rest') => Some (JObject ms, rest')
        | None => None
        end
    end.
Proof. reflexivity. Qed.

(** [JSON.parse(JSON.stringify(record, null, 2))] is the record again, for
    every record of strings, integers, booleans and nulls: the members come
    back in their order, each string as it was. *)
Lemma parse_stringify_record (members : list (list N * primitive)) :
  well_typed_members members ->
  parse (stringify_record members) = Some (JObject (parsed members)).
Proof.
  intros Hwt. destruct members as [|m more]; [reflexivity|].
  unfold parse, stringify_record.
  set (text := [123; 10] ++ stringify_members (m :: more) ++ [10; 125]).
  assert (Hlen : (List.length (m :: more) + 4 <= List.length text)%nat).
  { subst text. rewrite !length_app. cbn [List.length].
    pose proof (stringify_members_length (m :: more)). cbn [List.length] in *. lia. }
  destruct (2 * List.length text + 2)%nat as [|fuel] eqn:Hfuel; [lia|].
  subst text. cbn [app]. rewrite parse_value_object.
  assert (Hskip : exists c tail, skip_ws (10 :: stringify_members (m :: more) ++ [10; 125])
                                 = c :: tail /\ c = 34).
  { destruct m as [key p]. cbn. eauto. }
  destruct Hskip as (c & tail & -> & ->).
  rewrite (parse_members_stringify (m :: more) Hwt ltac:(discriminate) fuel [] [])
    by (cbn [List.length] in *; lia).
  reflexivity.
Qed.

(** ** The text is well formed *)

Lemma isWellFormed_app (a b : list N) :
  isWellFormed a = true -> isWellFormed (a ++ b) = isWellFormed b.
Proof.
  remember (List.length a) as n eqn:Hn.
  assert (Hle : (List.length a <= n)%nat) by lia. clear Hn.
  revert a Hle. induction n as [|n IH]; intros a Hle Ha.
  - destruct a; [reflexivity|cbn in Hle; lia].
  - destruct a as [|u a]; [reflexivity|]. cbn in Hle. cbn [app isWellFormed] in *.
    destruct (is_high u).
    + destruct a as [|l a]; [discriminate|]. cbn in Hle. cbn [app].
      apply andb_true_iff in Ha as [Hl Ha]. rewrite Hl. cbn [andb].
      apply IH; [lia|exact Ha].
    + apply andb_true_iff in Ha as [Hu Ha]. rewrite Hu. cbn [andb].
      apply IH; [lia|exact Ha].
Qed.

Lemma isWellFormed_apps (a b : list N) :
  isWellFormed a = true -> isWellFormed b = true -> isWellFormed (a ++ b) = true.
Proof. intros Ha Hb. rewrite isWellFormed_app; assumption. Qed.

Lemma hex_digit_ascii (n : N) : n < 16 -> Buffer.hex_digit n < 0x80.
Proof. intros Hn. unfold Buffer.hex_digit. destruct (n <? 10); lia. Qed.

Lemma unicode_escape_isWellFormed (u : N) :
  u < 0x10000 -> isWellFormed (unicode_escape u) = true.
Proof.
  intros Hu. apply VaultFacts.ascii_isWellFormed. unfold unicode_escape.
  repeat constructor; try lia; apply hex_digit_ascii; lia.
Qed.

Lemma quote_unit_isWellFormed (u : N) :
  u < 0x10000 -> is_high u = false -> is_low u = false ->
  isWellFormed (quote_unit u) = true.
Proof.
  intros Hu Hhigh Hlow. unfold quote_unit.
  repeat (match goal with |- context [if ?c then _ else _] => destruct c eqn:? end;
          [reflexivity|]).
  destruct (u <? 32); [apply unicode_escape_isWellFormed, Hu|].
  cbn. rewrite Hhigh, Hlow. apply N.ltb_lt in Hu. rewrite Hu. reflexivity.
Qed.

Lemma quote_body_isWellFormed (s : list N) :
  is_string s -> isWellFormed (quote_body s) = true.
Proof.
  intros Hs. remember (List.length s) as n eqn:Hn.
  assert (Hle : (List.length s <= n)%nat) by lia. clear Hn.
  revert s Hs Hle. induction n as [|n IH]; intros s Hs Hle.
  - destruct s; [reflexivity|cbn in Hle; lia].
  - destruct s as [|u s]; [reflexivity|].
    inversion Hs as [|? ? Hu Hs']; subst. cbn in Hle. cbn [quote_body].
    destruct (is_high u) eqn:Hhigh.
    + destruct s as [|l s'].
      * apply unicode_escape_isWellFormed, Hu.
      * inversion Hs' as [|? ? Hl Hs'']; subst. cbn in Hle.
        destruct (is_low l) eqn:Hlow.
        -- cbn [isWellFormed]. rewrite Hhigh, Hlow. cbn [andb]. apply IH; [assumption|lia].
        -- apply isWellFormed_apps; [apply unicode_escape_isWellFormed, Hu|].
           apply IH; [assumption|cbn; lia].
    + destruct (is_low u) eqn:Hlow.
      * apply isWellFormed_apps; [apply unicode_escape_isWellFormed, Hu|].
        apply IH; [assumption|lia].
      * apply isWellFormed_apps; [apply quote_unit_isWellFormed; assumption|].
        apply IH; [assumption|lia].
Qed.

Lemma quote_isWellFormed (s : list N) : is_string s -> isWellFormed (quote s) = true.
Proof.
  intros Hs. unfold quote. apply (isWellFormed_apps [34]); [reflexivity|].
  apply isWellFormed_apps; [apply quote_body_isWellFormed, Hs|reflexivity].
Qed.

Lemma integer_isWellFormed (z : Z) : isWellFormed (integer z) = true.
Proof.
  apply VaultFacts.ascii_isWellFormed.
  assert (Hdec : forall n, Forall (fun c => c < 0x80) (decimal n)).
  { intros n. unfold decimal.
    eapply Forall_impl; [apply decimal_digits_digits|].
    intros c Hc. cbn in Hc. unfold is_digit in Hc.
    apply andb_true_iff in Hc as [_ Hc]. apply N.leb_le in Hc. lia. }
  unfold integer. destruct z; [apply Hdec|apply Hdec|].
  constructor; [lia|apply Hdec].
Qed.

Lemma stringify_primitive_isWellFormed (p : primitive) :
  well_typed p -> isWellFormed (stringify_primitive p) = true.
Proof.
  intros Hp. destruct p as [s|z|[|]|]; cbn [stringify_primitive]; try reflexivity.
  - apply quote_isWellFormed, Hp.
  - apply integer_isWellFormed.
Qed.

Lemma stringify_members_isWellFormed (members : list (list N * primitive)) :
  well_typed_members members -> isWellFormed (stringify_members members) = true.
Proof.
  intros Hwt. induction Hwt as [|[key p] more [Hkey Hp] Hmore IH]; [reflexivity|].
  cbn [fst snd stringify_members] in *.
  apply (isWellFormed_apps [32; 32]); [reflexivity|].
  apply isWellFormed_apps; [apply quote_isWellFormed, Hkey|].
  apply (isWellFormed_apps [58; 32]); [reflexivity|].
  apply isWellFormed_apps; [apply stringify_primitive_isWellFormed, Hp|].
  destruct more; [reflexivity|].
  apply (isWellFormed_apps [44; 10]); [reflexivity|exact IH].
Qed.

(** The text [JSON.stringify] writes for a record has no unpaired
    surrogate, whatever the strings of the record: it goes through UTF-8
    unchanged. *)
Lemma stringify_record_isWellFormed (members : list (list N * primitive)) :
  well_typed_members members -> isWellFormed (stringify_record members) = true.
Proof.
  intros Hwt. unfold stringify_record. destruct members as [|m more]; [reflexivity|].
  apply (isWellFormed_apps [123; 10]); [reflexivity|].
  apply isWellFormed_apps; [apply stringify_members_isWellFormed, Hwt|reflexivity].
Qed.

End JSONFacts.
(** * What is saved can be loaded *)

Module StorageFacts.
Import Js JSON.
Local Open Scope N_scope.

(** ** The user info of the browser session *)

Section UserInfo.
Import SessionStorage.

Lemma written_is_read (path : string) (text : list N) (disk : gmap string Fs.node) :
  isWellFormed text = true ->
  disk !! path <> Some Fs.Directory ->
  exists disk1,
    Fs.writeFileSync path text disk = inr disk1
    /\ disk1 = <[path := Fs.File (Buffer.from_utf8 text)]> disk
    /\ Fs.existsSync path disk1 = true
    /\ Fs.readFileSync path disk1 = inr text.
Proof.
  intros Hwf Hdir. eexists. split; [|split; [reflexivity|]].
  - unfold Fs.writeFileSync. destruct (disk !! path) as [[c|]|]; congruence.
  - unfold Fs.existsSync, Fs.readFileSync. rewrite lookup_insert_eq.
    rewrite BufferFacts.toString_utf8_from_utf8 by exact Hwf. auto.
Qed.

Lemma storedUserInfo_well_typed (userId userName : list N) (createdAt updatedAt : Z) :
  is_string userId -> is_string userName ->
  JSONFacts.well_typed_members (storedUserInfo userId userName createdAt updatedAt).
Proof.
  intros Hid Hname. unfold storedUserInfo.
  assert (Hkey : forall k : string, is_string (Js.str k)).
  { intros k. unfold is_string, Js.str. apply Forall_map, Forall_forall. intros a _.
    pose proof (N_ascii_bounded a). lia. }
  repeat constructor; cbn; auto.
Qed.

Lemma saveUserInfo_loadUserInfo_eq
    (this : t) (userId userName : list N) (createdAt updatedAt : Z)
    (disk : gmap string Fs.node) :
  is_string userId -> is_string userName ->
  disk !! userInfoFile this <> Some Fs.Directory ->
  saveUserInfo this userId userName createdAt updatedAt disk
  = <[userInfoFile this
      := Fs.File (Buffer.from_utf8
                    (stringify_record (storedUserInfo userId userName createdAt updatedAt)))]>
    disk
  /\ loadUserInfo this (saveUserInfo this userId userName createdAt updatedAt disk)
     = Some {| SessionStorage.userId := JString userId;
               SessionStorage.userName := JString userName |}.
Proof.
  intros Hid Hname Hdir.
  pose proof (storedUserInfo_well_typed userId userName createdAt updatedAt Hid Hname) as Hwt.
  destruct (written_is_read (userInfoFile this)
              (stringify_record (storedUserInfo userId userName createdAt updatedAt)) disk
              (JSONFacts.stringify_record_isWellFormed _ Hwt) Hdir)
    as (disk1 & Hwrite & Hdisk1 & Hexists & Hread).
  unfold saveUserInfo. rewrite Hwrite. split; [exact Hdisk1|].
  unfold loadUserInfo. rewrite Hexists, Hread. cbn [negb].
  rewrite (JSONFacts.parse_stringify_record _ Hwt). reflexivity.
Qed.


End UserInfo.

(** ** A saved session and the next login *)

Section NextLogin.
Import AuthManager.

Context {W : Type}.
Variable loginByQRCode : Env W -> (string + bool) * Env W.
Variable loginByPhoneCode : Env W -> (string + bool) * Env W.
Variable saveSession : Env W -> Env W.


End NextLogin.

(** ** The token vault *)

Section Token.
Import TokenStorage CryptoUtil.

Lemma str_is_string (k : string) : is_string (Js.str k).
Proof.
  unfold is_string, Js.str. apply Forall_map, Forall_forall. intros a _.
  pose proof (N_ascii_bounded a). lia.
Qed.

Lemma properties_well_typed (tokenData : StoredToken) :
  is_string (token tokenData) -> is_string (userId tokenData) ->
  is_string (userName tokenData) ->
  JSONFacts.well_typed_members (properties tokenData).
Proof.
  intros Ht Hid Hname. unfold properties.
  repeat constructor; cbn [fst snd JSONFacts.well_typed]; auto using str_is_string.
Qed.


End Token.
End StorageFacts.
(** * The stores on concrete inputs *)

Module StorageMoreFacts.
Import Js JSON Scenario VaultScenario StorageScenario.

Lemma awkward_name_is_a_string : is_string awkward_name.
Proof. unfold is_string, awkward_name. repeat (constructor; [reflexivity|]). constructor. Qed.




(** The text [saveUserInfo] writes, as [JSON.stringify] lays it out. *)
Example stored_user_info_text :
  stringify_record (SessionStorage.storedUserInfo (str "u-42") (str "Ann") 1700000000000 1700000000001)
  = str "{" ++ [10%N] ++ str "  " ++ quoted "userId" ++ str ": " ++ quoted "u-42" ++ str ","
      ++ [10%N] ++ str "  " ++ quoted "userName" ++ str ": " ++ quoted "Ann" ++ str ","
      ++ [10%N] ++ str "  " ++ quoted "createdAt" ++ str ": 1700000000000,"
      ++ [10%N] ++ str "  " ++ quoted "updatedAt" ++ str ": 1700000000001"
      ++ [10%N] ++ str "}".
Proof. vm_compute. reflexivity. Qed.

End StorageMoreFacts.
(** * The HTTP adapter: requests, retries and the health check *)

Module HttpFacts.
Import HttpAdapter.

Section WithWorld.

Context {W D J : Type}.
Variable fetch : Request D -> W -> (JsError + Response J) * W.
Variable now : W -> Z.

Definition authenticationFailed : JsError :=
  new_Error "Authentication failed - token may be expired".

(** The state after a fetch. *)
Definition fetched (st : St W D) (request : Request D) (w : W) : St W D :=
  {| this := this st; world := w; history := history st ++ [Fetched request] |}.

(** The [try] block, case by case. *)
Lemma tryBlock_cases (method url : string) (data : option D) (headers : gmap string string)
    (retryDelay attempt : Z) (st : St W D) :
  let request := requestOf (this st) method url data headers in
  let w := snd (fetch request (world st)) in
  tryBlock fetch method url data headers retryDelay attempt st
  = match fst (fetch request (world st)) with
    | inl error => (Thrown error, fetched st request w)
    | inr response =>
        if ok response then
          (match json response with
           | inr v => Returned v
           | inl error => Thrown error
           end, fetched st request w)
        else if (status response =? 401)%Z then
          (Thrown authenticationFailed,
           {| this := set_authToken None (this st); world := w;
              history := history st ++ [Fetched request] |})
        else if (status response =? 429)%Z then
          (Continued,
           {| this := this st; world := w;
              history := (history st ++ [Fetched request])
                         ++ [Slept (rateLimitDelay response retryDelay attempt)] |})
        else
          (Thrown (new_Error
                     (String.append "HTTP "
                        (String.append (decimal (status response))
                           (String.append ": " (default "Unknown error" (text response)))))),
           fetched st request w)
    end.
Proof.
  unfold tryBlock, fetchWithTimeout, fetched, bind, StateM.get. cbn.
  destruct (fetch _ (world st)) as [[error|response] w]; cbn; [reflexivity|].
  destruct (ok response); cbn.
  - destruct (json response); reflexivity.
  - destruct (status response =? 401)%Z; [reflexivity|].
    destruct (status response =? 429)%Z; reflexivity.
Qed.

Lemma fetches_app (l k : list (event D)) : fetches (l ++ k) = fetches l ++ fetches k.
Proof. induction l as [|[] l IH]; cbn; rewrite ?IH; reflexivity. Qed.

Lemma sleeps_app (l k : list (event D)) : sleeps (l ++ k) = sleeps l ++ sleeps k.
Proof. induction l as [|[] l IH]; cbn; rewrite ?IH; reflexivity. Qed.

(** What one run of the [try] block does, whatever the answer. *)
Lemma tryBlock_summary (method url : string) (data : option D) (headers : gmap string string)
    (retryDelay attempt : Z) (st : St W D) :
  let request := requestOf (this st) method url data headers in
  let out := tryBlock fetch method url data headers retryDelay attempt st in
  exists evs,
    history (snd out) = history st ++ Fetched request :: evs
    /\ fetches evs = []
    /\ world (snd out) = snd (fetch request (world st))
    /\ match fst out with
       | Returned v =>
           evs = [] /\ this (snd out) = this st
           /\ exists response, fst (fetch request (world st)) = inr response
                /\ ok response = true /\ json response = inr v
       | Continued =>
           this (snd out) = this st
           /\ exists response, fst (fetch request (world st)) = inr response
                /\ status response = 429%Z
                /\ evs = [Slept (rateLimitDelay response retryDelay attempt)]
       | Thrown error =>
           evs = []
           /\ (this (snd out) = this st
               \/ this (snd out) = set_authToken None (this st)
                  /\ error = authenticationFailed)
       end.
Proof.
  intros request out. subst out. rewrite tryBlock_cases. fold request.
  destruct (fst (fetch request (world st))) as [error|response] eqn:Hf; cbn.
  - exists []. auto 10.
  - destruct (ok response) eqn:Hok.
    + destruct (json response) as [error|v] eqn:Hj; cbn; exists []; eauto 10.
    + destruct (status response =? 401)%Z eqn:H401; cbn.
      * exists []. auto 10.
      * destruct (Z.eqb_spec (status response) 429) as [H429|H429]; cbn.
        -- exists [Slept (rateLimitDelay response retryDelay attempt)].
           rewrite <- app_assoc. cbn. eauto 10.
        -- exists []. auto 10.
Qed.

(** The loop of [request]: every fetch sends the same request, at most one
    fetch and one sleep per iteration, a token is only ever dropped, and a
    value returned is the JSON of the 2xx answer to the last fetch. *)
Lemma attempts_summary (fuel : nat) (method url : string) (data : option D)
    (headers : gmap string string) (retryAttempts retryDelay attempt : Z)
    (lastError : option JsError) (st : St W D) :
  let request := requestOf (this st) method url data headers in
  let out := attempts fetch fuel method url data headers retryAttempts retryDelay
               attempt lastError st in
  exists evs,
    history (snd out) = history st ++ evs
    /\ Forall (eq request) (fetches evs)
    /\ (List.length (fetches evs) <= fuel)%nat
    /\ (List.length (sleeps evs) <= fuel)%nat
    /\ (this (snd out) = this st
        \/ this (snd out) = set_authToken None (this st)
           /\ fst out = inl authenticationFailed)
    /\ forall v, fst out = inr v ->
         exists pre w response,
           evs = pre ++ [Fetched request]
           /\ fetch request w = (inr response, world (snd out))
           /\ ok response = true /\ json response = inr v.
Proof.
  revert attempt lastError st. induction fuel as [|fuel IH]; intros attempt lastError st.
  { cbn. exists []. rewrite app_nil_r. repeat split; cbn; auto. discriminate. }
  cbn zeta.
  destruct (attempts fetch (S fuel) method url data headers retryAttempts retryDelay
              attempt lastError st) as [r st'] eqn:Hloop.
  cbn [fst snd]. cbn [attempts] in Hloop.
  destruct (attempt <? retryAttempts)%Z.
  2:{ injection Hloop as <- <-. exists []. rewrite app_nil_r.
      repeat split; cbn; auto; try lia. discriminate. }
  apply EngineFacts.bind_inv in Hloop as (c & st1 & Htry & Hloop).
  destruct (tryBlock_summary method url data headers retryDelay attempt st)
    as (e1 & H1 & F1 & W1 & C1).
  rewrite Htry in H1, W1, C1. cbn [fst snd] in H1, W1, C1.
  set (request := requestOf (this st) method url data headers) in *.
  destruct c as [v| |error].
  - (* the answer is returned *)
    injection Hloop as <- <-. destruct C1 as (-> & Hthis & response & Hf & Hok & Hj).
    exists [Fetched request]. split; [exact H1|]. cbn.
    split; [repeat constructor|]. split; [lia|]. split; [lia|]. split; [auto|].
    intros v' [= <-]. exists [], (world st), response. split; [reflexivity|].
    split; [|auto]. rewrite W1. rewrite <- Hf. apply surjective_pairing.
  - (* rate limited: on to the next attempt *)
    destruct C1 as (Hthis & response & Hf & H429 & ->).
    specialize (IH (attempt + 1)%Z lastError st1). cbn zeta in IH.
    rewrite Hloop in IH. cbn [fst snd] in IH. rewrite Hthis in IH. fold request in IH.
    destruct IH as (evs & H2 & Fa & Lf & Ls & Ht & Hv).
    exists (Fetched request :: Slept (rateLimitDelay response retryDelay attempt) :: evs).
    split; [rewrite H2, H1, <- app_assoc; reflexivity|]. cbn.
    split; [constructor; auto|]. split; [lia|]. split; [lia|]. split; [exact Ht|].
    intros v Hr. destruct (Hv v Hr) as (pre & w & resp & -> & Hrest).
    exists (Fetched request :: Slept (rateLimitDelay response retryDelay attempt) :: pre), w, resp.
    split; [reflexivity|exact Hrest].
  - (* an error reached the catch block *)
    destruct C1 as (-> & Hthis).
    destruct (isTypeError error && includes "abort" (message error)) eqn:Habort.
    { injection Hloop as <- <-. exists [Fetched request]. split; [exact H1|]. cbn.
      split; [repeat constructor|]. split; [lia|]. split; [lia|].
      split; [|discriminate].
      destruct Hthis as [Hthis|[Hthis ->]]; [auto|]. discriminate Habort. }
    destruct (includes "Authentication failed" (message error)) eqn:Hauth.
    { injection Hloop as <- <-. exists [Fetched request]. split; [exact H1|]. cbn.
      split; [repeat constructor|]. split; [lia|]. split; [lia|].
      split; [|discriminate].
      destruct Hthis as [Hthis|[Hthis ->]]; auto. }
    assert (Hkept : this st1 = this st).
    { destruct Hthis as [Hthis|[_ ->]]; [exact Hthis|]. discriminate. }
    apply EngineFacts.bind_inv in Hloop as ([] & st2 & Hsleep & Hloop).
    assert (H2 : exists e2, history st2 = history st1 ++ e2 /\ fetches e2 = []
                            /\ (List.length (sleeps e2) <= 1)%nat
                            /\ this st2 = this st1 /\ world st2 = world st1).
    { destruct (attempt <? retryAttempts - 1)%Z.
      - unfold sleep, emit, modify in Hsleep. injection Hsleep as <-.
        exists [Slept (Ms (retryDelay * (attempt + 1)))]. cbn. auto.
      - injection Hsleep as <-. exists []. rewrite app_nil_r. cbn. auto. }
    destruct H2 as (e2 & H2 & F2 & S2 & T2 & _).
    specialize (IH (attempt + 1)%Z (Some error) st2). cbn zeta in IH.
    rewrite Hloop in IH. cbn [fst snd] in IH. rewrite T2, Hkept in IH. fold request in IH.
    destruct IH as (evs & H3 & Fa & Lf & Ls & Ht & Hv).
    exists (Fetched request :: e2 ++ evs).
    split; [rewrite H3, H2, H1; cbn; rewrite <- !app_assoc; reflexivity|].
    cbn. rewrite fetches_app, sleeps_app, F2, ?length_app. cbn.
    split; [constructor; auto|]. split; [lia|]. split; [lia|]. split; [exact Ht|].
    intros v Hr. destruct (Hv v Hr) as (pre & w & resp & -> & Hrest).
    exists (Fetched request :: e2 ++ pre), w, resp.
    split; [cbn; rewrite <- app_assoc; reflexivity|exact Hrest].
Qed.

(** ** The request as a whole *)

(** X21. What one [request] can do, whatever the server answers.  It fetches at
    most [retryAttempts] times (never, when that is zero or less) and sleeps
    at most as often; every fetch sends the same request: the method, the
    URL [buildUrl(path)], the headers and the body it started with.  A value
    it returns is the JSON of a 2xx answer to the last fetch.  It never
    sets a token: afterwards the adapter is as it was, or has lost its
    token, and this only when the request ends with the error
    [Authentication failed - token may be expired]. *)
Theorem request_stays_within_its_budget (method path : string) (data : option D)
    (headers : gmap string string) (retryAttemptsOption retryDelayOption : option Z)
    (st : St W D) :
  let budget := default (retryAttempts (this st)) retryAttemptsOption in
  let sent := requestOf (this st) method (buildUrl (this st) path) data headers in
  let out := request fetch method path data headers retryAttemptsOption retryDelayOption st in
  exists evs,
    history (snd out) = history st ++ evs
    /\ Forall (eq sent) (fetches evs)
    /\ (List.length (fetches evs) <= Z.to_nat budget)%nat
    /\ (List.length (sleeps evs) <= Z.to_nat budget)%nat
    /\ (this (snd out) = this st
        \/ this (snd out) = set_authToken None (this st)
           /\ fst out = inl authenticationFailed)
    /\ forall v, fst out = inr v ->
         exists pre w response,
           evs = pre ++ [Fetched sent]
           /\ fetch sent w = (inr response, world (snd out))
           /\ ok response = true /\ json response = inr v.
Proof.
  cbn zeta. unfold request, bind, StateM.get.
  apply (attempts_summary (Z.to_nat (default (retryAttempts (this st)) retryAttemptsOption))
           method (buildUrl (this st) path) data headers).
Qed.

(** *** A 401 *)

(** X22. At whatever attempt a fetch is answered 401, the request ends there with
    [Authentication failed - token may be expired]: no sleep and no further
    fetch, whatever is left of the budget.  The token is dropped, so
    [isAuthenticated()] is false afterwards and the next request carries an
    [Authorization] header only if the caller or the configuration supplies
    one. *)
Theorem a_401_ends_the_request (fuel : nat) (method url : string) (data : option D)
    (headers : gmap string string) (retryAttempts retryDelay attempt : Z)
    (lastError : option JsError) (st : St W D) (response : Response J) (w : W) :
  (attempt < retryAttempts)%Z ->
  fetch (requestOf (this st) method url data headers) (world st) = (inr response, w) ->
  status response = 401%Z ->
  let after := {| this := set_authToken None (this st); world := w;
                  history := history st
                             ++ [Fetched (requestOf (this st) method url data headers)] |} in
  attempts fetch (S fuel) method url data headers retryAttempts retryDelay attempt lastError st
  = (inl authenticationFailed, after)
  /\ isAuthenticated (this after) = false
  /\ buildHeaders (this after) headers !! "Authorization"
     = (headers ∪ HttpAdapter.headers (this st)) !! "Authorization".
Proof.
  intros Hlt Hfetch H401 after. split; [|split].
  - cbn [attempts]. destruct (Z.ltb_spec attempt retryAttempts) as [_|]; [|lia].
    unfold bind. rewrite tryBlock_cases, Hfetch. cbn [fst snd].
    unfold ok. rewrite H401. cbn. reflexivity.
  - reflexivity.
  - unfold buildHeaders. cbn.
    rewrite lookup_union_l; [reflexivity|].
    rewrite lookup_insert_ne by discriminate. rewrite lookup_singleton_ne by discriminate.
    reflexivity.
Qed.

(** *** A server that cannot be reached *)

Lemma attempts_S (fuel : nat) (method url : string) (data : option D)
    (headers : gmap string string) (retryAttempts retryDelay attempt : Z)
    (lastError : option JsError) :
  attempts fetch (S fuel) method url data headers retryAttempts retryDelay attempt lastError
  = if (attempt <? retryAttempts)%Z then
      c <- tryBlock fetch method url data headers retryDelay attempt ;;
      match c with
      | Returned responseData => ret (inr responseData)
      | Continued =>
          attempts fetch fuel method url data headers retryAttempts retryDelay
            (attempt + 1) lastError
      | Thrown error =>
          if isTypeError error && includes "abort" (message error) then
            ret (inl (new_Error "Request timeout"))
          else if includes "Authentication failed" (message error) then
            ret (inl error)
          else
            (if (attempt <? retryAttempts - 1)%Z
             then sleep (Ms (retryDelay * (attempt + 1)))
             else ret tt) ;;;
            attempts fetch fuel method url data headers retryAttempts retryDelay
              (attempt + 1) (Some error)
      end
    else ret (inl (giveUp lastError)).
Proof. reflexivity. Qed.

(** The errors the [catch] block retries. *)
Definition retried (error : JsError) : bool :=
  negb (isTypeError error && includes "abort" (message error))
  && negb (includes "Authentication failed" (message error)).

(** The events after the first fetch of a request that fails [k] more
    times: a sleep before each further fetch. *)
Fixpoint retries (sent : Request D) (retryDelay : Z) (k : nat) (attempt : Z)
  : list (event D) :=
  match k with
  | O => []
  | S k' => Slept (Ms (retryDelay * attempt)) :: Fetched sent
            :: retries sent retryDelay k' (attempt + 1)
  end.

(** The milliseconds slept, for delays that are not taken from a header. *)
Fixpoint total (delays : list delay) : Z :=
  match delays with
  | [] => 0
  | Ms ms :: rest => ms + total rest
  | RetryAfter _ :: rest => total rest
  end.

Lemma retries_total (sent : Request D) (retryDelay : Z) (k : nat) (attempt : Z) :
  (2 * total (sleeps (retries sent retryDelay k attempt))
   = retryDelay * (Z.of_nat k * (2 * attempt + Z.of_nat k - 1)))%Z.
Proof.
  revert attempt. induction k as [|k IH]; intros attempt; [cbn; lia|].
  cbn [retries sleeps total]. specialize (IH (attempt + 1)%Z). nia.
Qed.

Lemma retries_fetches (sent : Request D) (retryDelay : Z) (k : nat) (attempt : Z) :
  fetches (retries sent retryDelay k attempt) = repeat sent k.
Proof.
  revert attempt. induction k as [|k IH]; intros attempt; [reflexivity|].
  cbn. rewrite IH. reflexivity.
Qed.

Lemma attempts_down (k : nat) (method url : string) (data : option D)
    (headers : gmap string string) (retryAttempts retryDelay attempt : Z)
    (lastError : option JsError) (st : St W D) :
  (forall request w, exists error,
      fst (fetch request w) = inl error /\ retried error = true) ->
  retryAttempts = (attempt + 1 + Z.of_nat k)%Z ->
  let sent := requestOf (this st) method url data headers in
  let out := attempts fetch (S k) method url data headers retryAttempts retryDelay
               attempt lastError st in
  history (snd out) = history st ++ Fetched sent :: retries sent retryDelay k (attempt + 1)
  /\ this (snd out) = this st
  /\ exists error w, fst out = inl error /\ fst (fetch sent w) = inl error
                     /\ world (snd out) = snd (fetch sent w).
Proof.
  intros down.
  revert attempt lastError st. induction k as [|k IH]; intros attempt lastError st Hn;
    cbn zeta;
    destruct (attempts fetch _ method url data headers retryAttempts retryDelay
                attempt lastError st) as [r st'] eqn:Hloop;
    cbn [fst snd]; rewrite attempts_S in Hloop;
    (destruct (Z.ltb_spec attempt retryAttempts) as [_|]; [|lia]);
    apply EngineFacts.bind_inv in Hloop as (c & st1 & Htry & Hloop);
    rewrite tryBlock_cases in Htry;
    destruct (down (requestOf (this st) method url data headers) (world st))
      as (error & Hf & Hr);
    rewrite Hf in Htry; injection Htry as <- <-;
    unfold retried in Hr; apply andb_true_iff in Hr as [Hr1 Hr2];
    apply negb_true_iff in Hr1, Hr2; rewrite Hr1, Hr2 in Hloop;
    apply EngineFacts.bind_inv in Hloop as ([] & st2 & Hsleep & Hloop).
  - destruct (Z.ltb_spec attempt (retryAttempts - 1)) as [|_]; [lia|].
    injection Hsleep as <-. cbn in Hloop. injection Hloop as <- <-. cbn.
    split; [reflexivity|]. split; [reflexivity|]. exists error, (world st). auto.
  - destruct (Z.ltb_spec attempt (retryAttempts - 1)) as [_|]; [|lia].
    unfold sleep, emit, modify in Hsleep. injection Hsleep as <-.
    match type of Hloop with
    | attempts _ _ _ _ _ _ _ _ _ _ ?s = _ =>
        specialize (IH (attempt + 1)%Z (Some error) s ltac:(lia))
    end. cbn zeta in IH.
    rewrite Hloop in IH. cbn [fst snd this world history fetched] in IH.
    destruct IH as (H1 & H2 & H3). split; [|split; [exact H2|exact H3]].
    rewrite H1. rewrite <- !app_assoc. reflexivity.
Qed.

(** X23. When every fetch fails with an error that is retried (it is not a
    [TypeError] whose message mentions [abort], and its message does not
    mention [Authentication failed]), a request with the configured budget
    [n >= 1] fetches exactly [n] times, sleeps [retryDelay * k] before the
    fetch number [k + 1] and not after the last one, that is
    [retryDelay * n * (n - 1) / 2] in all, leaves the adapter as it was and
    throws the error of a fetch. *)
Theorem request_backs_off_linearly (method path : string) (data : option D)
    (headers : gmap string string) (st : St W D) :
  (forall request w, exists error, fst (fetch request w) = inl error /\ retried error = true) ->
  (1 <= retryAttempts (this st))%Z ->
  let n := retryAttempts (this st) in
  let sent := requestOf (this st) method (buildUrl (this st) path) data headers in
  let out := request fetch method path data headers None None st in
  exists evs,
    history (snd out) = history st ++ evs
    /\ evs = Fetched sent :: retries sent (retryDelay (this st)) (Z.to_nat (n - 1)) 1
    /\ fetches evs = repeat sent (Z.to_nat n)
    /\ (2 * total (sleeps evs) = retryDelay (this st) * (n * (n - 1)))%Z
    /\ this (snd out) = this st
    /\ exists error w, fst out = inl error /\ fst (fetch sent w) = inl error.
Proof.
  intros down Hn n sent out. subst out. unfold request, bind, StateM.get. cbn [default].
  replace (Z.to_nat (retryAttempts (this st))) with (S (Z.to_nat (n - 1))) by (subst n; lia).
  destruct (attempts_down (Z.to_nat (n - 1)) method (buildUrl (this st) path) data headers
              (retryAttempts (this st)) (retryDelay (this st)) 0 None st down
              ltac:(subst n; lia))
    as (H1 & H2 & error & w & H3 & H4 & _).
  eexists. split; [exact H1|]. split; [reflexivity|].
  split; [|split; [|split; [exact H2|eauto]]].
  - cbn. rewrite retries_fetches. fold sent.
    replace (Z.to_nat n) with (S (Z.to_nat (n - 1))) by lia. reflexivity.
  - cbn [sleeps]. rewrite retries_total. rewrite Z2Nat.id by (subst n; lia). ring.
Qed.

(** *** A server that keeps answering 429 *)

Lemma attempts_rate_limited (k : nat) (method url : string) (data : option D)
    (headers : gmap string string) (retryAttempts retryDelay attempt : Z)
    (lastError : option JsError) (st : St W D) :
  (forall request w, exists response,
      fst (fetch request w) = inr response /\ status response = 429%Z) ->
  retryAttempts = (attempt + Z.of_nat k)%Z ->
  let sent := requestOf (this st) method url data headers in
  let out := attempts fetch k method url data headers retryAttempts retryDelay
               attempt lastError st in
  exists delays,
    history (snd out) = history st ++ flat_map (fun d => [Fetched sent; Slept d]) delays
    /\ List.length delays = k
    /\ this (snd out) = this st
    /\ fst out = inl (giveUp lastError).
Proof.
  intros limited. revert attempt st. induction k as [|k IH]; intros attempt st Hn.
  { cbn. exists []. rewrite app_nil_r. auto. }
  cbn zeta.
  destruct (attempts fetch _ method url data headers retryAttempts retryDelay
              attempt lastError st) as [r st'] eqn:Hloop.
  cbn [fst snd]. rewrite attempts_S in Hloop.
  destruct (Z.ltb_spec attempt retryAttempts) as [_|]; [|lia].
  apply EngineFacts.bind_inv in Hloop as (c & st1 & Htry & Hloop).
  rewrite tryBlock_cases in Htry.
  destruct (limited (requestOf (this st) method url data headers) (world st))
    as (response & Hf & H429).
  rewrite Hf in Htry. unfold ok in Htry. rewrite H429 in Htry. cbn in Htry.
  injection Htry as <- <-.
  match type of Hloop with
  | attempts _ _ _ _ _ _ _ _ _ _ ?s = _ => specialize (IH (attempt + 1)%Z s ltac:(lia))
  end. cbn zeta in IH.
  rewrite Hloop in IH. cbn [fst snd this world history] in IH.
  destruct IH as (delays & H1 & H2 & H3 & H4).
  exists (rateLimitDelay response retryDelay attempt :: delays).
  split; [|split; [cbn; lia|split; [exact H3|exact H4]]].
  rewrite H1. cbn. rewrite <- !app_assoc. reflexivity.
Qed.

(** X24. When every fetch is answered 429, a request with the configured budget
    fetches as many times as the budget says, sleeps after every fetch, the
    last one included, and then throws [Request failed after retries]: the
    429 answers leave no trace in the error. *)
Theorem a_rate_limit_ends_without_its_cause (method path : string) (data : option D)
    (headers : gmap string string) (st : St W D) :
  (forall request w, exists response,
      fst (fetch request w) = inr response /\ status response = 429%Z) ->
  (0 <= retryAttempts (this st))%Z ->
  let sent := requestOf (this st) method (buildUrl (this st) path) data headers in
  let out := request fetch method path data headers None None st in
  exists delays,
    history (snd out) = history st ++ flat_map (fun d => [Fetched sent; Slept d]) delays
    /\ List.length delays = Z.to_nat (retryAttempts (this st))
    /\ this (snd out) = this st
    /\ fst out = inl (new_Error "Request failed after retries").
Proof.
  intros limited Hn sent out. subst out. unfold request, bind, StateM.get. cbn [default].
  apply (attempts_rate_limited (Z.to_nat (retryAttempts (this st))) method
           (buildUrl (this st) path) data headers (retryAttempts (this st))
           (retryDelay (this st)) 0 None st limited).
  lia.
Qed.

(** *** A budget of zero *)

(** X25. A [retryAttempts] of zero (or less) in the configuration handed to the
    constructor is kept, the default of 3 notwithstanding, and with it every
    request throws [Request failed after retries] without a fetch and
    without a change to the adapter. *)
Theorem a_budget_of_zero_is_kept (config : HttpConfig.t) (n : Z) (token : option string)
    (method path : string) (data : option D) (headers : gmap string string) (st : St W D) :
  HttpConfig.retryAttempts config = Some n ->
  (n <= 0)%Z ->
  this st = set_authToken token (new config) ->
  request fetch method path data headers None None st
  = (inl (new_Error "Request failed after retries"), st).
Proof.
  intros Hconfig Hn Hthis. unfold request, bind, StateM.get. cbn [default].
  rewrite Hthis. cbn [retryAttempts set_authToken new]. rewrite Hconfig.
  unfold default. cbn [from_option id].
  replace (Z.to_nat n) with 0%nat by lia. reflexivity.
Qed.

(** *** The health check *)

(** X26. [healthCheck()] makes one fetch, of the URL [/] as it stands (the base
    URL is not put before it) with the method HEAD, no headers and no body,
    and leaves the adapter as it is.  It reports healthy exactly when the
    fetch resolves with a status below 500: a 401 or a 404 counts as
    healthy, a rejected fetch does not. *)
Theorem healthCheck_probes_the_bare_path (st : St W D) :
  let sent := {| url := "/"; method := "HEAD"; requestHeaders := ∅; body := None;
                 requestTimeout := timeout (this st) |} in
  let out := healthCheck fetch now st in
  history (snd out) = history st ++ [Fetched sent]
  /\ this (snd out) = this st
  /\ world (snd out) = snd (fetch sent (world st))
  /\ (HealthCheckResult.healthy (fst out) = true
      <-> exists response, fst (fetch sent (world st)) = inr response
                           /\ (status response < 500)%Z).
Proof.
  cbn zeta. unfold healthCheck, fetchWithTimeout, bind, StateM.get. cbn.
  destruct (fetch _ (world st)) as [[error|response] w]; cbn.
  - do 3 (split; [reflexivity|]). split; [discriminate|]. intros (r & [=] & _).
  - do 3 (split; [reflexivity|]). unfold ok. split.
    + intros H. exists response. split; [reflexivity|]. lia.
    + intros (r & [= <-] & H). lia.
Qed.

End WithWorld.
End HttpFacts.
(** * The HTTP adapter against concrete servers *)

Module HttpMoreFacts.
Import HttpAdapter HttpScenario.

Lemma a_401_ends_the_request_witness :
  fst (get unauthorized "/podcasts" ∅ with_token)
  = inl (new_Error "Authentication failed - token may be expired")
  /\ authToken (this (snd (get unauthorized "/podcasts" ∅ with_token))) = None.
Proof.
  destruct (HttpFacts.a_401_ends_the_request unauthorized 2 "GET"
              (buildUrl (this with_token) "/podcasts") None ∅ 3 1000 0 None with_token
              {| status := 401; retryAfter := None; text := Some "{}"; json := inr tt |} 1%nat
              ltac:(lia) eq_refl eq_refl) as (H & _).
  change (get unauthorized "/podcasts" ∅ with_token)
    with (attempts unauthorized 3 "GET" (buildUrl (this with_token) "/podcasts") None ∅
            3 1000 0 None with_token).
  rewrite H. split; reflexivity.
Defined.

Lemma request_backs_off_linearly_witness :
  sleeps (history (snd (get unreachable "/podcasts" ∅ with_token))) = [Ms 1000; Ms 2000].
Proof.
  destruct (HttpFacts.request_backs_off_linearly unreachable "GET" "/podcasts" None ∅
              with_token
              (fun _ _ => ex_intro _ {| isTypeError := true; message := "fetch failed" |}
                            (conj eq_refl eq_refl))
              ltac:(vm_compute; discriminate))
    as (evs & H & -> & _).
  unfold get. rewrite H. reflexivity.
Defined.

Lemma a_rate_limit_ends_without_its_cause_witness :
  fst (get rate_limited "/podcasts" ∅ with_token)
  = inl (new_Error "Request failed after retries").
Proof.
  destruct (HttpFacts.a_rate_limit_ends_without_its_cause rate_limited "GET" "/podcasts"
              None ∅ with_token
              (fun _ _ => ex_intro _ {| status := 429; retryAfter := Some "2";
                                        text := Some ""; json := inr tt |}
                            (conj eq_refl eq_refl))
              ltac:(vm_compute; discriminate))
    as (delays & _ & _ & _ & H).
  exact H.
Defined.

Lemma a_budget_of_zero_is_kept_witness :
  get unreachable "/podcasts" ∅ (start (new no_attempts))
  = (inl (new_Error "Request failed after retries"), start (new no_attempts)).
Proof.
  apply (HttpFacts.a_budget_of_zero_is_kept unreachable no_attempts 0 None "GET" "/podcasts"
           None ∅ (start (new no_attempts)) eq_refl ltac:(lia) eq_refl).
Defined.

(** The run against the rate-limited server, event by event: the header
    sets every delay, and the last fetch is followed by a sleep as well. *)
Example rate_limited_history :
  map (fun ev => match ev with Fetched r => url r | Slept _ => "(sleep)" end)
    (history (snd (get rate_limited "episodes" ∅ with_token)))
  = ["https://api.xiaoyuzhoufm.com/episodes"; "(sleep)";
     "https://api.xiaoyuzhoufm.com/episodes"; "(sleep)";
     "https://api.xiaoyuzhoufm.com/episodes"; "(sleep)"]
  /\ sleeps (history (snd (get rate_limited "episodes" ∅ with_token)))
     = [RetryAfter "2"; RetryAfter "2"; RetryAfter "2"].
Proof. split; vm_compute; reflexivity. Qed.

(** The header of a request made with a token. *)
Example bearer_header :
  buildHeaders (this with_token) ∅ !! "Authorization" = Some "Bearer t0k3n".
Proof. reflexivity. Qed.

End HttpMoreFacts.
(** * The client: guarded calls through the engine *)

Module ClientFacts.
Import StrategyEngine XiaoYuzhouClient.

Section WithWorld.

Context {W E : Type}.
Variable healthCheck : IAdapter -> W -> HealthCheckResult.t * W.
Variable now : W -> Z.

(** ** Where a rejection that [execute] throws comes from *)

Section Origin.

Context {F T : Type}.
Variable operation : IAdapter -> W -> (F + T) * W.

Lemma attempt_origin (st : St W F) (e : F) :
  fst (attempt operation st) = inl (Rejected e) ->
  exists a, fst (operation a (world st)) = inl e.
Proof.
  unfold attempt, call, bind, this, in_world, emit, modify, ret. cbn.
  destruct (StrategyEngine.getCurrentAdapter (engine st)) as [err|a] eqn:Hcur; cbn.
  - intros [= ->]. unfold StrategyEngine.getCurrentAdapter in Hcur.
    destruct (currentAdapter (engine st)); [|discriminate].
    destruct (adapters (engine st) !! _); discriminate.
  - destruct (operation a (world st)) as [[e'|v] w'] eqn:Hop; cbn; [|discriminate].
    intros [= ->]. exists a. rewrite Hop. reflexivity.
Qed.

Lemma loop_origin (fuel : nat) (fb : bool) (attempts max : Z) (st : St W F) (e : F) :
  fst (loop healthCheck now operation fuel fb attempts max st) = inl (Rejected e) ->
  exists a w, fst (operation a w) = inl e.
Proof.
  revert attempts st. induction fuel as [|fuel IH]; intros attempts st; [discriminate|].
  destruct (loop healthCheck now operation (S fuel) fb attempts max st) as [r st'] eqn:Hloop.
  cbn [fst]. intros ->. cbn [loop] in Hloop.
  destruct (attempts <? max)%Z; [|discriminate].
  apply EngineFacts.bind_inv in Hloop as (r1 & st1 & Hatt & Hloop).
  destruct r1 as [error|v].
  2:{ apply EngineFacts.bind_inv in Hloop as ([] & st2 & _ & Hloop). discriminate. }
  apply EngineFacts.bind_inv in Hloop as ([] & st2 & _ & Hloop).
  apply EngineFacts.bind_inv in Hloop as ([] & st3 & _ & Hloop).
  apply EngineFacts.bind_inv in Hloop as (fbres & st4 & _ & Hloop).
  destruct fbres as [v|]; [discriminate|].
  apply EngineFacts.bind_inv in Hloop as (ty & st5 & _ & Hloop).
  destruct (max <=? attempts + 1)%Z.
  - injection Hloop as -> _.
    destruct (attempt_origin st e) as [a Ha]; [rewrite Hatt; reflexivity|]. eauto.
  - apply (IH (attempts + 1)%Z st5). rewrite Hloop. reflexivity.
Qed.

End Origin.

(** ** The guarded calls *)

Section Unwrap.

Context {T : Type}.
Variable call : IAdapter -> W -> (E + AdapterResult.t T) * W.
Variable message : string.
Variable orElse : T.

Definition operation (adapter : IAdapter) (w : W) : (thrown E + T) * W :=
  unwrap message orElse (call adapter w).

Lemma unwrap_value (a : IAdapter) (w : W) (v : T) :
  fst (operation a w) = inr v ->
  exists result, fst (call a w) = inr result
                 /\ AdapterResult.success result = true
                 /\ v = default orElse (AdapterResult.data result).
Proof.
  unfold operation, unwrap. destruct (fst (call a w)) as [e|result]; [discriminate|].
  destruct (AdapterResult.success result) eqn:Hs; [|discriminate].
  intros [= <-]. eauto.
Qed.

Lemma unwrap_error (a : IAdapter) (w : W) (m : string) :
  fst (operation a w) = inl (Error m) ->
  exists result, fst (call a w) = inr result
                 /\ AdapterResult.success result = false
                 /\ m = BaseAdapter.or_else (AdapterResult.error result) message.
Proof.
  unfold operation, unwrap. destruct (fst (call a w)) as [e|result]; [discriminate|].
  destruct (AdapterResult.success result) eqn:Hs; [discriminate|].
  intros [= <-]. eauto.
Qed.

(** What a guarded call of the client is to the adapter method behind it. *)
Definition guards (authenticated : bool)
    (m : M (S:=St W (thrown E)) (thrown (thrown E) + T)) : Prop :=
  forall st : St W (thrown E),
    (authenticated = false ->
     m st = (inl (Error "Not authenticated. Please login first."), st))
    /\ exists evs,
         history (snd (m st)) = history st ++ evs
         /\ (List.length (calls evs) <= 2 * Z.to_nat (retryAttempts (config (engine st))))%nat
         /\ (forall v, fst (m st) = inr v ->
               authenticated = true
               /\ exists a w result pre,
                    fst (call a w) = inr result
                    /\ AdapterResult.success result = true
                    /\ v = default orElse (AdapterResult.data result)
                    /\ evs = pre ++ [Call a None])
         /\ (forall m', fst (m st) = inl (Rejected (Error m')) ->
               exists a w result,
                 fst (call a w) = inr result
                 /\ AdapterResult.success result = false
                 /\ m' = BaseAdapter.or_else (AdapterResult.error result) message).

Lemma guarded (authManager : AuthManager.t) (disk : gmap string Fs.node) :
  guards (AuthManager.isAuthenticated authManager disk)
    (match ensureAuthenticated (E:=E) authManager disk with
     | Some error => ret (inl error)
     | None => execute healthCheck now operation true true
     end).
Proof.
  intros st. unfold ensureAuthenticated.
  destruct (AuthManager.isAuthenticated authManager disk).
  - split; [discriminate|].
    unfold execute, bind, this. cbn zeta.
    destruct (EngineMore.loop_summary healthCheck now operation
                (Z.to_nat (retryAttempts (config (engine st)))) true 0
                (retryAttempts (config (engine st))) st)
      as (evs & Hevs & Hcalls & _ & _ & Hv).
    exists evs. split; [exact Hevs|]. split; [exact Hcalls|]. split.
    + intros v Hr. split; [reflexivity|].
      destruct (Hv v Hr) as (a & w & pre & Hop & ->).
      destruct (unwrap_value a w v Hop) as (result & H1 & H2 & H3).
      exists a, w, result, pre. auto.
    + intros m' Hr. apply loop_origin in Hr as (a & w & Hop).
      destruct (unwrap_error a w m' Hop) as (result & H). eauto.
  - split; [reflexivity|]. exists []. cbn. rewrite app_nil_r.
    split; [reflexivity|]. split; [lia|]. split; discriminate.
Qed.

End Unwrap.

(** ** The four calls *)

Context {Show Resource PublishOptions : Type}.
Variable adapter_getShows : IAdapter -> W -> (E + AdapterResult.t (list Show)) * W.
Variable adapter_getResources :
  IAdapter -> string -> W -> (E + AdapterResult.t (list Resource)) * W.
Variable adapter_publishResource :
  IAdapter -> string -> option PublishOptions -> W
  -> (E + AdapterResult.t PublishResult.t) * W.
Variable adapter_publishResources :
  IAdapter -> list string -> option PublishOptions -> W
  -> (E + AdapterResult.t (list PublishResult.t)) * W.

(** X27. [getShows], [getResources], [publishResource] and [publishResources] of
    the client.  Without a session ([isAuthenticated()] is false) the call
    throws [Not authenticated. Please login first.] and neither the engine
    nor an adapter is touched.  Otherwise the adapters are called at most
    twice per attempt of the engine's budget; a value the call returns is
    the data of an answer with [success: true] (or the default when the
    answer has no data), given in the last adapter call of the run; and an
    [Error] of the callback that the call throws carries the error of an
    answer with [success: false] (or the default message).  So an answer
    that reports a failure is never returned as a result. *)
Theorem the_client_hands_out_successful_answers_only
    (authManager : AuthManager.t) (disk : gmap string Fs.node)
    (showId resourceId : string) (resourceIds : list string)
    (options : option PublishOptions) :
  let authenticated := AuthManager.isAuthenticated authManager disk in
  guards adapter_getShows "Failed to get shows" [] authenticated
    (getShows healthCheck now adapter_getShows authManager disk)
  /\ guards (fun a => adapter_getResources a showId) "Failed to get resources" []
       authenticated
       (getResources healthCheck now adapter_getResources authManager disk showId)
  /\ guards (fun a => adapter_publishResource a resourceId options)
       "Failed to publish resource"
       {| PublishResult.success := false; PublishResult.resourceId := resourceId;
          PublishResult.publishedUrl := None; PublishResult.error := Some "Unknown error" |}
       authenticated
       (publishResource healthCheck now adapter_publishResource authManager disk
          resourceId options)
  /\ guards (fun a => adapter_publishResources a resourceIds options)
       "Failed to publish resources" [] authenticated
       (publishResources healthCheck now adapter_publishResources authManager disk
          resourceIds options).
Proof.
  cbn zeta. split; [|split; [|split]]; apply guarded.
Qed.

(** ** Answers that are failures *)

(** X28. When the adapters answer every [publishResource] with [success: false],
    the client's [publishResource] (a session given, a positive budget)
    throws: the engine has logged the failed attempts 1 to [retryAttempts],
    the error thrown is that of the last of them, and when it is not an
    error of the engine's own it carries the error of a failure answer (or
    [Failed to publish resource]).  So through the client an answer that
    reports a failure counts as a failed attempt and is retried. *)
Theorem a_failed_publish_is_retried
    (authManager : AuthManager.t) (disk : gmap string Fs.node)
    (resourceId : string) (options : option PublishOptions) (st : St W (thrown E)) :
  AuthManager.isAuthenticated authManager disk = true ->
  (forall a w, exists result,
      fst (adapter_publishResource a resourceId options w) = inr result
      /\ AdapterResult.success result = false) ->
  (0 < retryAttempts (config (engine st)))%Z ->
  let out := publishResource healthCheck now adapter_publishResource authManager disk
               resourceId options st in
  exists err evs,
    fst out = inl err
    /\ history (snd out) = history st ++ evs
    /\ map fst (failures evs) = seqZ 1 (retryAttempts (config (engine st)))
    /\ surfaced evs (retryAttempts (config (engine st))) err
    /\ match err with
       | Rejected (Error m) =>
           exists a w result,
             fst (adapter_publishResource a resourceId options w) = inr result
             /\ AdapterResult.success result = false
             /\ m = BaseAdapter.or_else (AdapterResult.error result)
                      "Failed to publish resource"
       | Rejected (Rejected _) => False
       | Error _ => True
       end.
Proof.
  intros Hauth Hfails Hbudget out. subst out.
  unfold publishResource, ensureAuthenticated. rewrite Hauth.
  set (orElse := {| PublishResult.success := false; PublishResult.resourceId := resourceId;
                    PublishResult.publishedUrl := None;
                    PublishResult.error := Some "Unknown error" |}).
  set (op := fun (adapter : IAdapter) (w : W) =>
               unwrap "Failed to publish resource" orElse
                 (adapter_publishResource adapter resourceId options w)).
  assert (Hrejects : forall a w, exists e, fst (op a w) = inl e).
  { intros a w. destruct (Hfails a w) as (result & Hr & Hs).
    unfold op, unwrap. rewrite Hr, Hs. eauto. }
  assert (Hthrows : exists err, fst (execute healthCheck now op true true st) = inl err).
  { unfold execute, bind, this. apply (EngineFacts.loop_rejects healthCheck now op Hrejects). }
  destruct Hthrows as [err Herr].
  destruct (EngineFacts.execute_history healthCheck now op true true st) as (evs & Hevs & Hres).
  rewrite Herr in Hres. unfold maxAttempts in Hres.
  destruct (Z.ltb_spec 0 (retryAttempts (config (engine st)))) as [_|]; [|lia].
  destruct Hres as [Hnum Hsurf].
  exists err, evs. do 4 (split; [assumption|]).
  destruct err as [[e|m]|m]; [| |exact I].
  - unfold execute, bind, this in Herr. apply loop_origin in Herr as (a & w & Hop).
    destruct (Hfails a w) as (result & Hr & Hs).
    unfold op, unwrap in Hop. rewrite Hr, Hs in Hop. discriminate.
  - unfold execute, bind, this in Herr. apply loop_origin in Herr as (a & w & Hop).
    exists a, w.
    apply (unwrap_error (fun a => adapter_publishResource a resourceId options)
             "Failed to publish resource" orElse a w m Hop).
Qed.

End WithWorld.
End ClientFacts.
(** * The client on a concrete run *)

Module ClientMoreFacts.
Import StrategyEngine XiaoYuzhouClient Scenario AuthScenario ClientScenario.

Lemma a_failed_publish_is_retried_witness :
  exists err,
    fst (publishResource (probe all_up) clock publish_fails signed_in disk_with_session
           "ep-1" None initialized) = inl err
    /\ map fst (failures
                  (history (snd (publishResource (probe all_up) clock publish_fails signed_in
                                   disk_with_session "ep-1" None initialized))))
       = [1; 2; 3]%Z.
Proof.
  destruct (ClientFacts.a_failed_publish_is_retried (probe all_up) clock publish_fails
              signed_in disk_with_session "ep-1" None initialized eq_refl
              (fun _ _ => ex_intro _ (BaseAdapter.failure "Publish button not found" None)
                            (conj eq_refl eq_refl))
              ltac:(vm_compute; reflexivity))
    as (err & evs & Herr & Hevs & Hnum & _).
  exists err. split; [exact Herr|]. rewrite Hevs. exact Hnum.
Defined.

(** The run of that call: three calls, all on the Playwright adapter, which
    stays the current one until the third failure flags it unhealthy. *)
Example a_failed_publish_run :
  let out := publishResource (probe all_up) clock publish_fails signed_in disk_with_session
               "ep-1" None initialized in
  fst out = inl (Rejected (Error "Publish button not found"))
  /\ calls (history (snd out)) = [playwrightAdapter; playwrightAdapter; playwrightAdapter]
  /\ currentAdapter (engine (snd out)) = Some AdapterType.HTTP.
Proof. vm_compute. repeat split. Qed.

End ClientMoreFacts.
